(** * AnimatedStatus: the status rotation scheduler

    A shallow embedding of the scheduler part of the AnimatedStatus plugin
    ([src/animated status/index.tsx]): [isRunning], [stop], [startAnimation],
    [setStatus], [updateStatus], [updateInterval] and the interval callbacks
    they arm, together with the module-level variables [currentIndex] and
    [statusInterval] they share.

    JavaScript code that may throw or reject is written in a small state and
    exception monad [JS] over a [World] that holds the plugin's variables,
    the settings store, the clock, the live interval timers and the trace of
    observable effects (toasts, log lines, timer calls, external updates).
    In [JS] an [async] function runs to completion in one step, which is how
    it behaves when nothing else is scheduled while it waits.  What happens
    when another call is made at one of its [await]s is the subject of the
    last part of the file, where [setStatus] and [startAnimation] are written
    once more as tasks that suspend where the source awaits. *)

From Stdlib Require Import ZArith List String Bool Lia DecimalString.
Import ListNotations.
Open Scope Z_scope.

(** ** Data *)

(** [status?: "online" | "idle" | "dnd" | "invisible"] *)
Inductive PresenceKind : Type := online | idle | dnd | invisible.

(** [interface StatusStep]; [setStatus] also reads [expires_at] from the
    object it is given. *)
Record StatusStep : Type := mkStep {
  text : string;
  emoji_name : option string;
  emoji_id : option string;
  category : option string;
  status : option PresenceKind;
  expires_at : option Z
}.

(** A thrown or rejected JavaScript value that a template literal can
    render: a string, or an [Error] with its name and message. *)
Inductive JsValue : Type :=
| VString (s : string)
| VError (name : string) (message : string).

(** What a [throw] or a rejected promise carries.  Any value can be thrown;
    [Unprintable] stands for those a template literal cannot convert to a
    string (a Symbol, an object with no [toString]): rendering one throws a
    TypeError.  A value that brings conversion code of its own (a [toString]
    or [Symbol.toPrimitive] that throws something else, or has effects) is
    not modelled. *)
Inductive Thrown : Type :=
| Printable (e : JsValue)
| Unprintable.

Coercion Printable : JsValue >-> Thrown.

(** The argument of [CustomStatus.updateSetting]. *)
Record Payload : Type := mkPayload {
  p_text : string;
  p_emojiName : string;
  p_emojiId : string;
  p_createdAtMs : string;
  p_expiresAtMs : string
}.

(** The object [setStatus] returns: [{ success, error }]. *)
Record ApplyResult : Type := mkResult {
  success : bool;
  error : option Thrown
}.

(** What [settings.store.animation] holds, seen through [JSON.parse]. *)
Inductive AnimationSetting : Type :=
| JsonEmpty                        (* the empty string *)
| JsonInvalid (err : JsValue)      (* JSON.parse throws *)
| JsonNotArray                     (* parses, but not to an array *)
| JsonArray (steps : list StatusStep).

(** [settings.store] *)
Record Settings : Type := mkSettings {
  timeout : Z;
  animation : AnimationSetting;
  randomize : bool;
  autoStart : bool
}.

(** The two callbacks the plugin hands to [setInterval].  Both call
    [this.updateStatus]: the one [startAnimation] installs passes the
    category its closure captured, the one [updateInterval] installs passes
    nothing. *)
Inductive Callback : Type :=
| StartCallback (category : option string)
| ReconfigureCallback.

(** An interval timer: the handle [setInterval] returns. *)
Record Timer : Type := mkTimer {
  tid : nat;
  delay : Z;
  callback : Callback
}.

Inductive ToastType : Type := MESSAGE | SUCCESS | FAILURE.
Inductive LogLevel : Type := LDebug | LInfo | LWarn | LError.

(** Observable effects, in the order they happen. *)
Inductive Event : Type :=
| EToast (type : ToastType) (message : string)
| ELog (level : LogLevel) (message : string)
| EClearInterval (t : Timer)
| ESetInterval (t : Timer)
| ESleep (ms : Z)
| EApply (statusObj : option StatusStep)          (* [this.setStatus(...)] is called *)
| ECustomStatus (p : Payload) (resolved : bool)    (* [CustomStatus.updateSetting] *)
| EStatusSetting (k : PresenceKind) (resolved : bool). (* [StatusSetting.updateSetting] *)

(** The host client.  Every external interaction is answered by an oracle
    that is asked with the number of interactions made so far, so that an
    external call may behave differently each time it is made.  An answer
    [Some e] means the call throws (or its promise rejects with) [e], which
    may be any value at all. *)
Module Raw.
Record Host : Type := mkHost {
  getCached : nat -> option Thrown;
  CustomStatus : option (nat -> Payload -> option Thrown);
  StatusSetting : option (nat -> PresenceKind -> option Thrown);
  random_floor : nat -> Z -> Z   (* Math.floor(Math.random() * n) *)
}.
End Raw.

(** A host client whose calls, when they fail, fail with a value that can be
    rendered: a string or an [Error]. *)
Record Host : Type := mkHost {
  getCached : nat -> option JsValue;
  CustomStatus : option (nat -> Payload -> option JsValue);
  StatusSetting : option (nat -> PresenceKind -> option JsValue);
  random_floor : nat -> Z -> Z   (* Math.floor(Math.random() * n) *)
}.

(** Such a host is a host. *)
Definition raw (h : Host) : Raw.Host :=
  Raw.mkHost
    (fun n => option_map Printable (getCached h n))
    (option_map (fun custom n p => option_map Printable (custom n p))
                (CustomStatus h))
    (option_map (fun setting n k => option_map Printable (setting n k))
                (StatusSetting h))
    (random_floor h).

Coercion raw : Host >-> Raw.Host.

Record World : Type := mkWorld {
  currentIndex : Z;
  statusInterval : option Timer;
  _lastUpdateTime : option Z;
  store : Settings;
  clock : Z;                 (* Date.now() *)
  timers : list Timer;       (* the intervals the event loop holds *)
  nextTimer : nat;
  calls : nat;               (* external interactions so far *)
  trace : list Event
}.

(** ** The monad *)

Inductive Completion (A : Type) : Type :=
| Normal (a : A)
| Abrupt (e : Thrown).
Arguments Normal {A} a.
Arguments Abrupt {A} e.

Definition JS (A : Type) : Type := World -> Completion A * World.

Definition ret {A} (a : A) : JS A := fun w => (Normal a, w).

Definition throw {A} (e : Thrown) : JS A := fun w => (Abrupt e, w).

Definition bind {A B} (m : JS A) (k : A -> JS B) : JS B :=
  fun w =>
    match m w with
    | (Normal a, w') => k a w'
    | (Abrupt e, w') => (Abrupt e, w')
    end.

(** [try { body } catch (e) { handler e }] *)
Definition try_catch {A} (body : JS A) (handler : Thrown -> JS A) : JS A :=
  fun w =>
    match body w with
    | (Normal a, w') => (Normal a, w')
    | (Abrupt e, w') => handler e w'
    end.

(** [promise.catch(handler)] on a promise nobody awaits.  A throw of the
    handler rejects the promise [catch] returns, which nothing observes; the
    statement itself completes normally. *)
Definition detached_catch (promise : JS unit) (handler : Thrown -> JS unit)
  : JS unit :=
  fun w =>
    match promise w with
    | (Normal a, w') => (Normal a, w')
    | (Abrupt e, w') => (Normal tt, snd (handler e w'))
    end.

Declare Scope js_scope.
Delimit Scope js_scope with js.
Bind Scope js_scope with JS.
Notation "x <- m ;; k" := (bind m (fun x => k))
  (at level 61, m at next level, right associativity) : js_scope.
Notation "m ;; k" := (bind m (fun _ => k))
  (at level 61, right associativity) : js_scope.
Open Scope js_scope.

(** ** Primitive operations on the world *)

Definition emit (e : Event) : JS unit :=
  fun w => (Normal tt,
            mkWorld (currentIndex w) (statusInterval w) (_lastUpdateTime w)
                    (store w) (clock w) (timers w) (nextTimer w) (calls w)
                    (trace w ++ [e])).

Definition set_currentIndex (i : Z) : JS unit :=
  fun w => (Normal tt,
            mkWorld i (statusInterval w) (_lastUpdateTime w)
                    (store w) (clock w) (timers w) (nextTimer w) (calls w)
                    (trace w)).

Definition set_statusInterval (h : option Timer) : JS unit :=
  fun w => (Normal tt,
            mkWorld (currentIndex w) h (_lastUpdateTime w)
                    (store w) (clock w) (timers w) (nextTimer w) (calls w)
                    (trace w)).

Definition set_lastUpdateTime (t : Z) : JS unit :=
  fun w => (Normal tt,
            mkWorld (currentIndex w) (statusInterval w) (Some t)
                    (store w) (clock w) (timers w) (nextTimer w) (calls w)
                    (trace w)).

Definition get {A} (f : World -> A) : JS A := fun w => (Normal (f w), w).

(** One more external interaction has been made; returns its number. *)
Definition interact : JS nat :=
  fun w => (Normal (calls w),
            mkWorld (currentIndex w) (statusInterval w) (_lastUpdateTime w)
                    (store w) (clock w) (timers w) (nextTimer w) (S (calls w))
                    (trace w)).

Definition Date_now : JS Z := get clock.

(** [await new Promise(resolve => setTimeout(resolve, ms))] *)
Definition sleep (ms : Z) : JS unit :=
  fun w => (Normal tt,
            mkWorld (currentIndex w) (statusInterval w) (_lastUpdateTime w)
                    (store w) (clock w + ms) (timers w) (nextTimer w) (calls w)
                    (trace w ++ [ESleep ms])).

(** [setInterval(callback, ms)]: a fresh timer joins the event loop. *)
Definition setInterval (cb : Callback) (ms : Z) : JS Timer :=
  fun w =>
    let t := mkTimer (nextTimer w) ms cb in
    (Normal t,
     mkWorld (currentIndex w) (statusInterval w) (_lastUpdateTime w)
             (store w) (clock w) (timers w ++ [t]) (S (nextTimer w)) (calls w)
             (trace w ++ [ESetInterval t])).

(** [clearInterval(t)]: the timer leaves the event loop. *)
Definition clearInterval (t : Timer) : JS unit :=
  fun w => (Normal tt,
            mkWorld (currentIndex w) (statusInterval w) (_lastUpdateTime w)
                    (store w) (clock w)
                    (filter (fun t' => negb (Nat.eqb (tid t') (tid t))) (timers w))
                    (nextTimer w) (calls w)
                    (trace w ++ [EClearInterval t])).

Definition logger (level : LogLevel) (message : string) : JS unit :=
  emit (ELog level message).

(** [Toasts.show({ message, type, id: Toasts.genId() })] *)
Definition Toasts_show (message : string) (type : ToastType) : JS unit :=
  emit (EToast type message).

(** ** Strings *)

(** [n.toString()] for an integer below [10^21] in absolute value, which
    JavaScript prints with all its digits.  The numbers rendered here are
    clock readings, list lengths, periods and retry counts. *)
Definition string_of_Z (z : Z) : string := NilZero.string_of_int (Z.to_int z).

Definition dquote : string := String (Ascii.ascii_of_nat 34) EmptyString.

(** The string a template literal makes of a value it can render.  For an
    [Error] this is [Error.prototype.toString]: the name, a colon and the
    message, or just one of the two when the other is empty. *)
Definition show (e : JsValue) : string :=
  match e with
  | VString s => s
  | VError n m =>
      if String.eqb n EmptyString then m
      else if String.eqb m EmptyString then n
      else n ++ ": " ++ m
  end.

(** [`${e}`] for a caught value [e]: the conversion to a string throws a
    TypeError when the value has no string form. *)
Definition toString (e : Thrown) : JS string :=
  match e with
  | Printable v => ret (show v)
  | Unprintable =>
      throw (VError "TypeError" "Cannot convert object to primitive value")
  end.

Definition show_kind (k : PresenceKind) : string :=
  match k with
  | online => "online"
  | idle => "idle"
  | dnd => "dnd"
  | invisible => "invisible"
  end.

(** Truthiness of an optional string: [undefined] and the empty string are
    falsy. *)
Definition truthy (o : option string) : bool :=
  match o with
  | Some s => negb (String.eqb s EmptyString)
  | None => false
  end.

(** [o || d] for an optional string. *)
Definition or_else (o : option string) (d : string) : string :=
  match o with
  | Some s => if String.eqb s EmptyString then d else s
  | None => d
  end.

(** Template-literal rendering of an optional string. *)
Definition show_opt (o : option string) : string :=
  match o with
  | Some s => s
  | None => "undefined"
  end.

(** ** The plugin *)

(** [l[i]]: [undefined] out of range. *)
Definition index {A} (l : list A) (i : Z) : option A :=
  if i <? 0 then None else nth_error l (Z.to_nat i).

(** [a === b] on optional strings. *)
Definition strict_eq (a b : option string) : bool :=
  match a, b with
  | Some x, Some y => String.eqb x y
  | None, None => true
  | _, _ => false
  end.

(** [category ? animation.filter(step => step.category === category) : animation] *)
Definition filterSteps (cat : option string) (animation : list StatusStep)
  : list StatusStep :=
  if truthy cat
  then filter (fun step => strict_eq (category step) cat) animation
  else animation.

(** [safeParseJSON(jsonString, fallback)]: the parsed array, or the
    fallback when the string is empty, does not parse (which is logged) or
    parses to something else. *)
Definition safeParseJSON (jsonString : AnimationSetting)
  (fallback : list StatusStep) : JS (list StatusStep) :=
  match jsonString with
  | JsonEmpty => ret fallback
  | JsonInvalid err =>
      logger LError ("Failed to parse animation settings: " ++ show err) ;;
      ret fallback
  | JsonNotArray => ret fallback
  | JsonArray parsed => ret parsed
  end.

(** [isRunning() { return !!statusInterval; }] *)
Definition isRunning (w : World) : bool :=
  match statusInterval w with
  | Some _ => true
  | None => false
  end.

(** [if (statusInterval) { clearInterval(statusInterval); statusInterval = null; after }] *)
Definition clear_if_running (after : JS unit) : JS unit :=
  h <- get statusInterval ;;
  match h with
  | Some t => clearInterval t ;; set_statusInterval None ;; after
  | None => ret tt
  end.

(** [stop()] *)
Definition stop : JS unit :=
  clear_if_running
    (logger LInfo "Status animation stopped, current status preserved").

Section Plugin.

Variable host : Raw.Host.

(** The object [setStatus] hands to [CustomStatus.updateSetting]:
    [emoji_id?.toString() || "0"], [Date.now().toString()],
    [expires_at ? expires_at.toString() : "0"], and [text] and
    [emoji_name] with the empty string for a missing value. *)
Definition payload_of (statusObj : StatusStep) (now : Z) : Payload :=
  let emojiId := or_else (emoji_id statusObj) "0" in
  let emojiId := if String.eqb emojiId EmptyString then "0"%string else emojiId in
  let createdAtMs := string_of_Z now in
  let expiresAtMs :=
    match expires_at statusObj with
    | Some n => if n =? 0 then "0"%string else string_of_Z n
    | None => "0"%string
    end in
  mkPayload (text statusObj) (or_else (emoji_name statusObj) EmptyString)
            emojiId createdAtMs expiresAtMs.

(** [await setting.updateSetting(x)] *)
Definition updateSetting {X} (oracle : nat -> X -> option Thrown)
  (observe : X -> bool -> Event) (x : X) : JS unit :=
  n <- interact ;;
  match oracle n x with
  | None => emit (observe x true)
  | Some e => emit (observe x false) ;; throw e
  end.

(** [async setStatus(statusObj)].  The whole body sits in one [try]; the
    presence-state update has a [try] of its own.  Both handlers render the
    value they caught into a log line.  The argument is [undefined] when the
    caller indexed its list out of range. *)
Definition setStatus (statusObj : option StatusStep) : JS ApplyResult :=
  try_catch
    (n <- interact ;;
     match Raw.getCached host n with
     | Some e => throw e
     | None =>
       match Raw.CustomStatus host with
       | None =>
           logger LError "Failed to get CustomStatus setting" ;;
           ret (mkResult false
                  (Some (Printable (VString "CustomStatus setting not available"))))
       | Some custom =>
         match statusObj with
         | None =>
             throw (VError "TypeError" "Cannot read properties of undefined (reading 'emoji_id')")
         | Some step =>
             now <- Date_now ;;
             updateSetting custom ECustomStatus (payload_of step now) ;;
             match status step, Raw.StatusSetting host with
             | Some k, Some setting =>
                 try_catch
                   (updateSetting setting EStatusSetting k ;;
                    logger LInfo ("Changed status type to: " ++ show_kind k))
                   (fun statusError =>
                      reason <- toString statusError ;;
                      logger LError ("Failed to update status type: " ++ reason))
             | _, _ => ret tt
             end ;;
             ret (mkResult true None)
         end
       end
     end)
    (fun err =>
       reason <- toString err ;;
       logger LError ("Error when setting status: " ++ reason) ;;
       ret (mkResult false (Some err))).

(** The method [this.setStatus] resolves to when the functions below run. *)
Variable this_setStatus : option StatusStep -> JS ApplyResult.

(** [await this.setStatus(statusObj)], with the call recorded in the trace. *)
Definition call_setStatus (statusObj : option StatusStep) : JS ApplyResult :=
  emit (EApply statusObj) ;; this_setStatus statusObj.

(** One iteration of the [for] loop of [startAnimation]: [true] is
    [initialSetSuccess = true; break], [false] goes round again. *)
Definition initial_attempt (retry : Z) (filteredAnimation : list StatusStep)
  : JS bool :=
  try_catch
    (call_setStatus (index filteredAnimation 0) ;; ret true)
    (fun error =>
       reason <- toString error ;;
       logger LWarn ("Failed to set initial status (attempt "
                     ++ string_of_Z (retry + 1) ++ "): " ++ reason) ;;
       if retry =? 2 then throw error
       else sleep 500 ;; ret false).

(** [for (let retry = 0; retry < 3; retry++)]; [left] is [3 - retry], the
    iterations the loop still has.  The result is [initialSetSuccess]. *)
Fixpoint initial_set (left : nat) (retry : Z)
  (filteredAnimation : list StatusStep) : JS bool :=
  match left with
  | O => ret false
  | S left' =>
    if retry <? 3 then
      done <- initial_attempt retry filteredAnimation ;;
      if (done : bool) then ret true
      else initial_set left' (retry + 1) filteredAnimation
    else ret false
  end.

(** [async startAnimation(category?)] *)
Definition startAnimationWith (cat : option string) : JS unit :=
  try_catch
    (json <- get (fun w => animation (store w)) ;;
     animation <- safeParseJSON json [] ;;
     if (Z.of_nat (List.length animation) =? 0) then
       Toasts_show "Add some status animations in settings!" MESSAGE
     else
       let filteredAnimation := filterSteps cat animation in
       if (Z.of_nat (List.length filteredAnimation) =? 0) then
         Toasts_show ("No status messages in " ++ dquote ++ show_opt cat
                      ++ dquote ++ " category!") FAILURE
       else
         clear_if_running (ret tt) ;;
         set_currentIndex 0 ;;
         initialSetSuccess <- initial_set 3 0 filteredAnimation ;;
         if negb initialSetSuccess then
           throw (VError "Error" "Failed to set initial status after multiple attempts")
         else
           let categoryMsg :=
             if truthy cat
             then (" in category " ++ dquote ++ show_opt cat ++ dquote)%string
             else EmptyString in
           logger LInfo ("Animation started with "
                         ++ string_of_Z (Z.of_nat (List.length filteredAnimation))
                         ++ " status messages" ++ categoryMsg) ;;
           seconds <- get (fun w => timeout (store w)) ;;
           let intervalTime := Z.max (seconds * 1000) 5000 in
           t <- setInterval (StartCallback cat) intervalTime ;;
           set_statusInterval (Some t) ;;
           logger LInfo ("Status interval set to " ++ string_of_Z intervalTime ++ " ms") ;;
           Toasts_show "Status animation started!" SUCCESS)
    (fun err =>
       reason <- toString err ;;
       logger LError ("Failed to start animation: " ++ reason) ;;
       Toasts_show "Failed to start status animation" FAILURE).

(** One iteration of the [while] loop of [updateStatus], entered with
    [retries = S retries']: [true] is [break], [false] goes round again
    with [retries'] attempts left. *)
Definition update_attempt (retries' : nat) (filteredAnimation : list StatusStep)
  : JS bool :=
  try_catch
    (i <- get currentIndex ;;
     call_setStatus (index filteredAnimation i) ;;
     ret true)
    (fun err =>
       if Z.of_nat retries' <=? 0 then
         reason <- toString err ;;
         logger LError ("Failed to update status after multiple attempts: "
                        ++ reason) ;;
         throw err
       else
         reason <- toString err ;;
         logger LWarn ("Status update failed, retrying ("
                       ++ string_of_Z (Z.of_nat retries')
                       ++ " attempts left): " ++ reason) ;;
         sleep ((4 - Z.of_nat retries') * 500) ;;
         ret false).

(** [let retries = 3; while (retries > 0) { ... }]; the recursion is on the
    loop variable itself. *)
Fixpoint update_retry (retries : nat) (filteredAnimation : list StatusStep)
  : JS unit :=
  match retries with
  | O => ret tt
  | S retries' =>
    done <- update_attempt retries' filteredAnimation ;;
    if (done : bool) then ret tt
    else update_retry retries' filteredAnimation
  end.

(** [async updateStatus(category?)] *)
Definition updateStatusWith (cat : option string) : JS unit :=
  try_catch
    (now <- Date_now ;;
     last <- get _lastUpdateTime ;;
     if now - (match last with Some t => t | None => 0 end) <? 2000 then
       logger LDebug "Throttling status update - too frequent"
     else
       now' <- Date_now ;;
       set_lastUpdateTime now' ;;
       json <- get (fun w => animation (store w)) ;;
       animation <- safeParseJSON json [] ;;
       let filteredAnimation := filterSteps cat animation in
       if (Z.of_nat (List.length filteredAnimation) =? 0) then
         clear_if_running
           (logger LWarn "Animation stopped - no status messages found")
       else
         random <- get (fun w => randomize (store w)) ;;
         nextIndex <-
           (if (random : bool) then
              n <- interact ;;
              ret (Raw.random_floor host n (Z.of_nat (List.length filteredAnimation)))
            else
              i <- get currentIndex ;;
              ret (Z.rem (i + 1) (Z.of_nat (List.length filteredAnimation)))) ;;
         set_currentIndex nextIndex ;;
         update_retry 3 filteredAnimation)
    (fun err =>
       reason <- toString err ;;
       logger LError ("Failed to update status: " ++ reason) ;;
       clear_if_running (ret tt) ;;
       Toasts_show "Status animation stopped due to an error" FAILURE).

(** What the event loop runs when an interval fires.  The callback of
    [startAnimation] logs a debug line first; otherwise the two are the
    same code: [this.updateStatus(...)] with a [.catch] attached, inside a
    [try]. *)
Definition intervalCallbackWith (cb : Callback) : JS unit :=
  match cb with
  | StartCallback cat =>
      try_catch
        (logger LDebug "Interval triggered, updating status..." ;;
         detached_catch (updateStatusWith cat)
           (fun e =>
              reason <- toString e ;;
              logger LError ("Error in interval update: " ++ reason)))
        (fun e =>
           reason <- toString e ;;
           logger LError ("Fatal error in animation interval: " ++ reason) ;;
           clear_if_running (ret tt))
  | ReconfigureCallback =>
      try_catch
        (detached_catch (updateStatusWith None)
           (fun e =>
              reason <- toString e ;;
              logger LError ("Error in interval update: " ++ reason)))
        (fun e =>
           reason <- toString e ;;
           logger LError ("Fatal error in animation interval: " ++ reason) ;;
           clear_if_running (ret tt))
  end.

End Plugin.

(** [updateInterval(newTimeout)] *)
Definition updateInterval (newTimeout : Z) : JS unit :=
  h <- get statusInterval ;;
  match h with
  | None => ret tt
  | Some t =>
      clearInterval t ;;
      let intervalTime := Z.max (newTimeout * 1000) 5000 in
      t' <- setInterval ReconfigureCallback intervalTime ;;
      set_statusInterval (Some t') ;;
      logger LInfo ("Updated animation interval to " ++ string_of_Z intervalTime
                    ++ "ms without restarting")
  end.

(** The plugin object as the repository defines it: [this.setStatus] is
    [setStatus]. *)
Definition startAnimation (host : Raw.Host) : option string -> JS unit :=
  startAnimationWith (setStatus host).

Definition updateStatus (host : Raw.Host) : option string -> JS unit :=
  updateStatusWith host (setStatus host).

Definition intervalCallback (host : Raw.Host) : Callback -> JS unit :=
  intervalCallbackWith host (setStatus host).

(** ** Runs *)

(** The store collaborator rewrites the settings. *)
Definition edit (s : Settings) : JS unit :=
  fun w => (Normal tt,
            mkWorld (currentIndex w) (statusInterval w) (_lastUpdateTime w)
                    s (clock w) (timers w) (nextTimer w) (calls w) (trace w)).

(** Time passes. *)
Definition elapse (ms : Z) : JS unit :=
  fun w => (Normal tt,
            mkWorld (currentIndex w) (statusInterval w) (_lastUpdateTime w)
                    (store w) (clock w + ms) (timers w) (nextTimer w) (calls w)
                    (trace w)).

(** The event loop lets the oldest live interval come due and runs its
    callback. *)
Definition tick (host : Raw.Host) : JS unit :=
  ts <- get timers ;;
  match ts with
  | [] => ret tt
  | t :: _ => elapse (delay t) ;; intervalCallback host (callback t)
  end.

(** What can happen to the scheduler from outside. *)
Inductive Action : Type :=
| ATick
| AEdit (s : Settings)
| AStart (category : option string)
| AStop
| AUpdateInterval (newTimeout : Z).

Definition perform (host : Raw.Host) (a : Action) : JS unit :=
  match a with
  | ATick => tick host
  | AEdit s => edit s
  | AStart cat => startAnimation host cat
  | AStop => stop
  | AUpdateInterval s => updateInterval s
  end.

(** A history of the scheduler in which no two calls overlap: the actions
    one after the other, each settled before the next begins. *)
Fixpoint run (host : Raw.Host) (actions : list Action) : JS unit :=
  match actions with
  | [] => ret tt
  | a :: rest => perform host a ;; run host rest
  end.

(** ** Reading traces *)

(** The events a computation adds to the trace of the world it starts in. *)
Definition new_events {A} (m : JS A) (w : World) : list Event :=
  skipn (List.length (trace w)) (trace (snd (m w))).

(** The arguments of the [this.setStatus] calls, in order. *)
Definition applied (evs : list Event) : list (option StatusStep) :=
  flat_map (fun e => match e with EApply s => [s] | _ => [] end) evs.

Definition attempts (evs : list Event) : nat := List.length (applied evs).

(** The backoff waits, in order. *)
Definition sleeps (evs : list Event) : list Z :=
  flat_map (fun e => match e with ESleep ms => [ms] | _ => [] end) evs.

Definition toasts (evs : list Event) : list (ToastType * string) :=
  flat_map (fun e => match e with EToast ty m => [(ty, m)] | _ => [] end) evs.

Definition failure_toasts (evs : list Event) : list string :=
  flat_map (fun e => match e with EToast FAILURE m => [m] | _ => [] end) evs.

(** Timers armed and timers cancelled, in order. *)
Definition armed (evs : list Event) : list Timer :=
  flat_map (fun e => match e with ESetInterval t => [t] | _ => [] end) evs.

Definition cancelled (evs : list Event) : list Timer :=
  flat_map (fun e => match e with EClearInterval t => [t] | _ => [] end) evs.

(** Calls of [CustomStatus.updateSetting] with how they ended, and the same
    for [StatusSetting.updateSetting]. *)
Definition custom_updates (evs : list Event) : list (Payload * bool) :=
  flat_map (fun e => match e with ECustomStatus p ok => [(p, ok)] | _ => [] end) evs.

Definition presence_updates (evs : list Event) : list (PresenceKind * bool) :=
  flat_map (fun e => match e with EStatusSetting k ok => [(k, ok)] | _ => [] end) evs.

(** ** Reading the store *)

(** What [safeParseJSON(settings.store.animation)] returns. *)
Definition steps_of (json : AnimationSetting) : list StatusStep :=
  match json with
  | JsonArray steps => steps
  | _ => []
  end.

(** What [safeParseJSON] logs on the way. *)
Definition parse_log (json : AnimationSetting) : list Event :=
  match json with
  | JsonInvalid err =>
      [ELog LError ("Failed to parse animation settings: " ++ show err)]
  | _ => []
  end.

(** The toast [startAnimation] shows when it has nothing to rotate: one
    message when the list is empty, another when the category is. *)
Definition empty_toast (cat : option string) (steps : list StatusStep) : Event :=
  match steps with
  | [] => EToast MESSAGE "Add some status animations in settings!"
  | _ :: _ =>
      EToast FAILURE ("No status messages in " ++ dquote ++ show_opt cat
                      ++ dquote ++ " category!")
  end.

(** The cancellation [if (statusInterval) { clearInterval(statusInterval) }]
    leaves in the trace, and the timers it leaves alive. *)
Definition cancel_events (w : World) : list Event :=
  match statusInterval w with
  | Some t => [EClearInterval t]
  | None => []
  end.

Definition timers_cleared (w : World) : list Timer :=
  match statusInterval w with
  | Some t => filter (fun t' => negb (Nat.eqb (tid t') (tid t))) (timers w)
  | None => timers w
  end.

(** The throttle guard of [updateStatus]. *)
Definition throttled (w : World) : bool :=
  clock w - (match _lastUpdateTime w with Some t => t | None => 0 end) <? 2000.

(** The index [updateStatus] moves to. *)
Definition next_index (host : Raw.Host) (w : World) (fa : list StatusStep) : Z :=
  if randomize (store w)
  then Raw.random_floor host (calls w) (Z.of_nat (List.length fa))
  else Z.rem (currentIndex w + 1) (Z.of_nat (List.length fa)).

(** ** Frames *)

(** [w] after external interactions and new events only: the scheduler's
    variables, the store, the clock and the timers are as they were. *)
Definition touch (w : World) (c : nat) (evs : list Event) : World :=
  mkWorld (currentIndex w) (statusInterval w) (_lastUpdateTime w)
          (store w) (clock w) (timers w) (nextTimer w) c (trace w ++ evs).

(** Log lines and the two external updates: what an apply may add to the
    trace. *)
Definition external_only (e : Event) : bool :=
  match e with
  | ELog _ _ | ECustomStatus _ _ | EStatusSetting _ _ => true
  | _ => false
  end.

(** An apply procedure that leaves the scheduler alone, whether it returns
    or throws. *)
Definition framed (apply : option StatusStep -> JS ApplyResult) : Prop :=
  forall so w, exists c evs,
    snd (apply so w) = touch w c evs /\ forallb external_only evs = true.

Definition never_throws (apply : option StatusStep -> JS ApplyResult) : Prop :=
  forall so w, exists r, fst (apply so w) = Normal r.

(** An apply procedure for experiments with the retry loops: its [n]-th
    external interaction ends as [script n] says. *)
Definition scriptedApply (script : nat -> option JsValue)
  (statusObj : option StatusStep) : JS ApplyResult :=
  n <- interact ;;
  match script n with
  | None => ret (mkResult true None)
  | Some e => throw e
  end.

(** ** Schedules, invariants and concrete inputs *)

(** [w] after a retry loop: the clock has moved as well. *)
Definition advance (w : World) (ck : Z) (c : nat) (evs : list Event) : World :=
  mkWorld (currentIndex w) (statusInterval w) (_lastUpdateTime w)
          (store w) ck (timers w) (nextTimer w) c (trace w ++ evs).

(** The waits of [updateStatus]'s loop when it is entered with [retries]
    attempts left: [(4 - retries) * 500] with [retries] already
    decremented, and none after the last attempt. *)
Fixpoint backoff (retries : nat) : list Z :=
  match retries with
  | O => []
  | S r =>
      match r with
      | O => []
      | S _ => (4 - Z.of_nat r) * 500 :: backoff r
      end
  end.

(** What a retry loop leaves in the trace: between one and [bound] calls of
    [this.setStatus], all with the same argument, a wait from [waits] after
    each call but the last, and no toast or timer event. *)
Definition retry_events (target : option StatusStep) (waits : list Z)
  (bound : nat) (evs : list Event) : Prop :=
  toasts evs = [] /\ failure_toasts evs = [] /\
  armed evs = [] /\ cancelled evs = [] /\
  (1 <= attempts evs <= bound)%nat /\
  applied evs = repeat target (attempts evs) /\
  sleeps evs = firstn (attempts evs - 1) waits.

(** Worlds used as concrete inputs. *)
Definition defaultSettings : Settings :=
  mkSettings 10 (JsonArray [mkStep "Hey there!" None None None None None])
             false true.

Definition noSteps : Settings := mkSettings 10 (JsonArray []) false true.

(** A freshly loaded plugin: [currentIndex = 0], [statusInterval = null]. *)
Definition freshWorld (s : Settings) (now : Z) : World :=
  mkWorld 0 None None s now [] 0 0 [].

(** A scheduler that has been running, three steps into its list. *)
Definition runningWorld (s : Settings) (now : Z) : World :=
  let t := mkTimer 0 10000 (StartCallback None) in
  mkWorld 2 (Some t) (Some (now - 10000)) s now [t] 1 6 [].

(** A host whose calls all succeed, and one whose custom-status update is
    rejected every time it is made. *)
Definition obligingHost : Host :=
  mkHost (fun _ => None) (Some (fun _ _ => None)) (Some (fun _ _ => None))
         (fun _ _ => 0).

Definition rejectingHost : Host :=
  mkHost (fun _ => None)
         (Some (fun _ _ => Some (VError "Error" "rate limited")))
         (Some (fun _ _ => None))
         (fun _ _ => 0).

(** What a callback passes to [this.updateStatus], and what it logs first. *)
Definition cb_category (cb : Callback) : option string :=
  match cb with
  | StartCallback cat => cat
  | ReconfigureCallback => None
  end.

Definition cb_log (cb : Callback) : list Event :=
  match cb with
  | StartCallback _ => [ELog LDebug "Interval triggered, updating status..."]
  | ReconfigureCallback => []
  end.

(** [this._lastUpdateTime || 0] *)
Definition last_or_0 (w : World) : Z :=
  match _lastUpdateTime w with Some t => t | None => 0 end.

(** The event loop holds the timer the scheduler knows and no other. *)
Definition timers_consistent (w : World) : Prop :=
  timers w = match statusInterval w with Some t => [t] | None => [] end.

(** [Math.floor(Math.random() * n)] lies in [[0, n)]. *)
Definition random_in_range (host : Host) : Prop :=
  forall k n, 0 < n -> 0 <= random_floor host k n < n.

(** A run in progress: the timer [startAnimation cat] armed is the one
    alive, the store holds [st], the index is [i], and no update is stamped
    later than now. *)
Definition rotating (cat : option string) (st : Settings) (i : Z) (w : World)
  : Prop :=
  (exists t, statusInterval w = Some t /\ timers w = [t] /\
             callback t = StartCallback cat /\ 5000 <= delay t) /\
  store w = st /\ currentIndex w = i /\ last_or_0 w <= clock w.

Definition threeSteps : Settings :=
  mkSettings 5
    (JsonArray [mkStep "A" None None None None None;
                mkStep "B" None None None None None;
                mkStep "C" None None None None None])
    false true.

(** A run started with category [C] is in progress or has stopped: the
    only timer alive, if any, is one whose callback passes [C]. *)
Definition in_run (C : string) (w : World) : Prop :=
  timers_consistent w /\
  (forall t, statusInterval w = Some t -> callback t = StartCallback (Some C)) /\
  0 <= currentIndex w.

(** What may happen during a run without ending it or starting another:
    ticks, edits of the store, and [stop]. *)
Definition within_run (a : Action) : bool :=
  match a with
  | ATick | AEdit _ | AStop => true
  | AStart _ | AUpdateInterval _ => false
  end.

Definition has_category (C : string) (so : option StatusStep) : Prop :=
  exists step, so = Some step /\ category step = Some C.

(** Two steps tagged "work" and one tagged "fun". *)
Definition workAndFun : Settings :=
  mkSettings 5
    (JsonArray [mkStep "standup" None None (Some "work"%string) None None;
                mkStep "review" None None (Some "work"%string) (Some dnd) None;
                mkStep "lunch" None None (Some "fun"%string) None None])
    false true.

(** A procedure that throws every time it is called. *)
Definition alwaysThrows : option StatusStep -> JS ApplyResult :=
  scriptedApply (fun _ => Some (VError "Error" "rate limited")).

(** ** The rest of the plugin: categories, auto-start, the popout menu and
    the handlers of the settings panel *)

(** [[...new Set(l)]]: the first occurrence of each element, in order;
    [seen] is what the set already holds. *)
Fixpoint set_order (seen : list string) (l : list string) : list string :=
  match l with
  | [] => []
  | x :: rest =>
      if existsb (String.eqb x) seen then set_order seen rest
      else x :: set_order (x :: seen) rest
  end.

(** The type guard of [getUniqueCategories]:
    [category] is neither [undefined] nor [null] nor the empty string. *)
Definition is_category (c : option string) : bool :=
  match c with
  | Some s => negb (String.eqb s EmptyString)
  | None => false
  end.

(** A list the guard has narrowed to strings. *)
Definition narrowed (l : list (option string)) : list string :=
  flat_map (fun c => match c with Some s => [s] | None => [] end) l.

(** [getUniqueCategories(steps)] *)
Definition getUniqueCategories (steps : list StatusStep) : list string :=
  let categories := narrowed (filter is_category (map category steps)) in
  set_order [] categories.

(** [start()]: the plugin's lifecycle hook.  With [autoStart] set it hands
    [setTimeout] a callback and 3000; the result is that pending timeout. *)
Definition start (host : Raw.Host) : JS (option (Z * JS unit)) :=
  auto <- get (fun w => autoStart (store w)) ;;
  if (auto : bool) then
    let pending :=
      (3000,
       detached_catch (startAnimation host None)
         (fun err =>
            reason <- toString err ;;
            logger LError ("Failed to auto-start animation: " ++ reason))) in
    logger LInfo "Auto-starting animation (3s delay)" ;;
    ret (Some pending)
  else ret None.

(** The plugin is loaded and the timeout [start] left, if any, comes due. *)
Definition boot (host : Raw.Host) : JS unit :=
  pending <- start host ;;
  match pending with
  | Some (ms, callback) => elapse ms ;; callback
  | None => ret tt
  end.

(** The action of a category item of the popout menu:
    [plugin.stop(); setTimeout(() => plugin.startAnimation(category), 100)],
    with the timeout come due. *)
Definition popoutCategoryAction (host : Raw.Host) (category : string) : JS unit :=
  stop ;; elapse 100 ;; startAnimation host (Some category).

(** The part of the settings panel's React state its handlers read. *)
Record Panel : Type := mkPanel {
  ui_animation : list StatusStep;
  ui_isRunning : bool;
  ui_activeCategory : option string
}.

(** [settings.store.animation = JSON.stringify(newAnimation)] *)
Definition write_animation (newAnimation : list StatusStep) : JS unit :=
  s <- get store ;;
  edit (mkSettings (timeout s) (JsonArray newAnimation) (randomize s) (autoStart s)).

(** [settings.store.timeout = value] *)
Definition write_timeout (value : Z) : JS unit :=
  s <- get store ;;
  edit (mkSettings value (animation s) (randomize s) (autoStart s)).

(** [animation.filter((_, i) => i !== index)] *)
Definition remove_at (index : Z) (animation : list StatusStep) : list StatusStep :=
  map snd
    (filter (fun p => negb (Z.of_nat (fst p) =? index))
       (combine (seq 0 (List.length animation)) animation)).

(** [deleteStep(index)] of the settings panel; the result is the panel
    state it sets. *)
Definition deleteStep (index : Z) (p : Panel) : JS Panel :=
  let newAnimation := remove_at index (ui_animation p) in
  write_animation newAnimation ;;
  Toasts_show "Status deleted" SUCCESS ;;
  ret (mkPanel newAnimation (ui_isRunning p) (ui_activeCategory p)).

(** [existing.text === newStep.text && existing.category === newStep.category] *)
Definition same_entry (existing newStep : StatusStep) : bool :=
  String.eqb (text existing) (text newStep)
  && strict_eq (category existing) (category newStep).

(** [presetSteps.filter(newStep => !animation.some(existing => ...))] *)
Definition preset_news (animation presetSteps : list StatusStep)
  : list StatusStep :=
  filter (fun newStep => negb (existsb (fun existing => same_entry existing newStep)
                                 animation))
         presetSteps.

(** [handleAddPreset(presetName, presetSteps)] *)
Definition handleAddPreset (presetName : string) (presetSteps : list StatusStep)
  (p : Panel) : JS Panel :=
  let newSteps := preset_news (ui_animation p) presetSteps in
  if Z.of_nat (List.length newSteps) =? 0 then
    Toasts_show "All preset statuses already exist" FAILURE ;;
    ret p
  else
    let newAnimation := ui_animation p ++ newSteps in
    write_animation newAnimation ;;
    Toasts_show ("Added " ++ string_of_Z (Z.of_nat (List.length newSteps))
                 ++ " statuses from " ++ dquote ++ presetName ++ dquote
                 ++ " preset") SUCCESS ;;
    ret (mkPanel newAnimation (ui_isRunning p) (Some presetName)).

(** [handleTimeoutChange(value)] *)
Definition handleTimeoutChange (value : Z) (p : Panel) : JS unit :=
  write_timeout value ;;
  if ui_isRunning p then updateInterval value else ret tt.

(** A scheduler that ticks: the timer alive is the one the scheduler holds,
    its callback is [cb], the store holds [st], the index is [i], and no
    update is stamped later than now. *)
Definition ticking (cb : Callback) (st : Settings) (i : Z) (w : World) : Prop :=
  (exists t, statusInterval w = Some t /\ timers w = [t] /\
             callback t = cb /\ 5000 <= delay t) /\
  store w = st /\ currentIndex w = i /\ last_or_0 w <= clock w.

(** A preset of two entries, and a panel showing [workAndFun]. *)
Definition gamingPreset : list StatusStep :=
  [mkStep "in a match" None None (Some "gaming"%string) (Some dnd) None;
   mkStep "lunch" None None (Some "fun"%string) None None].

Definition workAndFunPanel : Panel :=
  mkPanel (steps_of (animation workAndFun)) false None.

(** A call of [this.setStatus] is given a step, not [undefined]. *)
Definition defined_step (so : option StatusStep) : Prop := so <> None.

(** The live timer, if there is one, has the period the stored timeout
    asks for. *)
Definition period_in_sync (w : World) : Prop :=
  forall t, statusInterval w = Some t ->
            delay t = Z.max (timeout (store w) * 1000) 5000.

(** Hosts whose calls fail with a value that has no string form: one whose
    custom-status update is rejected that way every time it is made, and
    one whose custom-status update resolves while its presence-state update
    is rejected that way.  The third rejects the presence-state update with
    an [Error]. *)
Definition opaqueHost : Raw.Host :=
  Raw.mkHost (fun _ => None) (Some (fun _ _ => Some Unprintable))
             (Some (fun _ _ => None)) (fun _ _ => 0).

Definition opaquePresenceHost : Raw.Host :=
  Raw.mkHost (fun _ => None) (Some (fun _ _ => None))
             (Some (fun _ _ => Some Unprintable)) (fun _ _ => 0).

Definition flakyPresenceHost : Host :=
  mkHost (fun _ => None) (Some (fun _ _ => None))
         (Some (fun _ _ => Some (VError "Error" "presence unavailable")))
         (fun _ _ => 0).

(** A step that sets the presence state as well. *)
Definition busyStep : StatusStep :=
  mkStep "in a meeting" None None None (Some dnd) None.

(** An oracle's answer [None]: the call returned, or its promise resolved. *)
Definition resolved {A} (answer : option A) : bool :=
  match answer with
  | None => true
  | Some _ => false
  end.

(** ** Suspending at [await]

    [setStatus] and [startAnimation] once more, this time as functions that
    give control back where the source awaits something the host settles:
    the two [updateSetting] promises and the 500ms timeout.  Everything
    between two such points runs in one piece, as JavaScript runs it.
    ([await this.setStatus(...)] itself gives other callbacks a chance only
    while [setStatus] is suspended inside.) *)

(** An [async] function that has been called.  It has settled, leaving the
    world [w]; or it is suspended at an [await], having left the world [w],
    and [resume] is what it goes on to do in the world it finds when it is
    resumed. *)
Inductive Task (A : Type) : Type :=
| Settled (c : Completion A) (w : World)
| Awaiting (w : World) (resume : World -> Task A).
Arguments Settled {A} c w.
Arguments Awaiting {A} w resume.

Definition Async (A : Type) : Type := World -> Task A.

Declare Scope async_scope.
Delimit Scope async_scope with async.
Bind Scope async_scope with Async.

(** Code that runs without giving control back. *)
Definition sync {A} (m : JS A) : Async A :=
  fun w => let (c, w') := m w in Settled c w'.

(** [await p], for a promise [p] the host settles: the function is
    suspended, and [outcome] is what it finds when it is resumed. *)
Definition await {A} (outcome : JS A) : Async A :=
  fun w => Awaiting w (sync outcome).

Fixpoint then_task {A B} (t : Task A) (k : A -> Async B) : Task B :=
  match t with
  | Settled (Normal a) w => k a w
  | Settled (Abrupt e) w => Settled (Abrupt e) w
  | Awaiting w resume => Awaiting w (fun w' => then_task (resume w') k)
  end.

Fixpoint catch_task {A} (t : Task A) (handler : Thrown -> Async A) : Task A :=
  match t with
  | Settled (Normal a) w => Settled (Normal a) w
  | Settled (Abrupt e) w => handler e w
  | Awaiting w resume => Awaiting w (fun w' => catch_task (resume w') handler)
  end.

Definition bind_async {A B} (m : Async A) (k : A -> Async B) : Async B :=
  fun w => then_task (m w) k.

Definition try_catch_async {A} (body : Async A) (handler : Thrown -> Async A)
  : Async A :=
  fun w => catch_task (body w) handler.

Notation "x <- m ;; k" := (bind_async m (fun x => k))
  (at level 61, m at next level, right associativity) : async_scope.
Notation "m ;; k" := (bind_async m (fun _ => k))
  (at level 61, right associativity) : async_scope.

(** The task runs on with nothing else scheduled while it waits: each time
    it is resumed in the world it left. *)
Fixpoint settle {A} (t : Task A) : Completion A * World :=
  match t with
  | Settled c w => (c, w)
  | Awaiting w resume => settle (resume w)
  end.

(** Left alone, the suspending function does what the atomic one does. *)
Definition refines {A} (a : Async A) (m : JS A) : Prop :=
  forall w, settle (a w) = m w.

Section AsyncPlugin.

Variable host : Raw.Host.

(** [await setting.updateSetting(x)]: the call is made, and the function
    waits for its promise. *)
Definition updateSetting_async {X} (oracle : nat -> X -> option Thrown)
  (observe : X -> bool -> Event) (x : X) : Async unit :=
  (n <- sync interact ;;
   await (match oracle n x with
          | None => emit (observe x true)
          | Some e => emit (observe x false) ;; throw e
          end)%js)%async.

(** [async setStatus(statusObj)] *)
Definition setStatus_async (statusObj : option StatusStep) : Async ApplyResult :=
  try_catch_async
    (n <- sync interact ;;
     match Raw.getCached host n with
     | Some e => sync (throw e)
     | None =>
       match Raw.CustomStatus host with
       | None =>
           sync (logger LError "Failed to get CustomStatus setting" ;;
                 ret (mkResult false
                        (Some (Printable (VString "CustomStatus setting not available")))))%js
       | Some custom =>
         match statusObj with
         | None =>
             sync (throw (VError "TypeError" "Cannot read properties of undefined (reading 'emoji_id')"))
         | Some step =>
             now <- sync Date_now ;;
             updateSetting_async custom ECustomStatus (payload_of step now) ;;
             match status step, Raw.StatusSetting host with
             | Some k, Some setting =>
                 try_catch_async
                   (updateSetting_async setting EStatusSetting k ;;
                    sync (logger LInfo ("Changed status type to: " ++ show_kind k)))
                   (fun statusError =>
                      sync (reason <- toString statusError ;;
                            logger LError ("Failed to update status type: " ++ reason))%js)
             | _, _ => sync (ret tt)
             end ;;
             sync (ret (mkResult true None))
         end
       end
     end)%async
    (fun err =>
       sync (reason <- toString err ;;
             logger LError ("Error when setting status: " ++ reason) ;;
             ret (mkResult false (Some err)))%js).

(** [await this.setStatus(statusObj)] *)
Definition call_setStatus_async (statusObj : option StatusStep)
  : Async ApplyResult :=
  (sync (emit (EApply statusObj)) ;; setStatus_async statusObj)%async.

Definition initial_attempt_async (retry : Z) (filteredAnimation : list StatusStep)
  : Async bool :=
  try_catch_async
    (call_setStatus_async (index filteredAnimation 0) ;; sync (ret true))%async
    (fun error =>
       (reason <- sync (toString error) ;;
        sync (logger LWarn ("Failed to set initial status (attempt "
                            ++ string_of_Z (retry + 1) ++ "): " ++ reason)) ;;
        if retry =? 2 then sync (throw error)
        else await (sleep 500) ;; sync (ret false))%async).

Fixpoint initial_set_async (left : nat) (retry : Z)
  (filteredAnimation : list StatusStep) : Async bool :=
  match left with
  | O => sync (ret false)
  | S left' =>
    if retry <? 3 then
      (done <- initial_attempt_async retry filteredAnimation ;;
       if (done : bool) then sync (ret true)
       else initial_set_async left' (retry + 1) filteredAnimation)%async
    else sync (ret false)
  end.

(** [async startAnimation(category?)] *)
Definition startAnimation_async (cat : option string) : Async unit :=
  try_catch_async
    (json <- sync (get (fun w => animation (store w))) ;;
     animation <- sync (safeParseJSON json []) ;;
     if (Z.of_nat (List.length animation) =? 0) then
       sync (Toasts_show "Add some status animations in settings!" MESSAGE)
     else
       let filteredAnimation := filterSteps cat animation in
       if (Z.of_nat (List.length filteredAnimation) =? 0) then
         sync (Toasts_show ("No status messages in " ++ dquote ++ show_opt cat
                            ++ dquote ++ " category!") FAILURE)
       else
         sync (clear_if_running (ret tt)) ;;
         sync (set_currentIndex 0) ;;
         initialSetSuccess <- initial_set_async 3 0 filteredAnimation ;;
         if negb initialSetSuccess then
           sync (throw (VError "Error" "Failed to set initial status after multiple attempts"))
         else
           let categoryMsg :=
             if truthy cat
             then (" in category " ++ dquote ++ show_opt cat ++ dquote)%string
             else EmptyString in
           sync (logger LInfo ("Animation started with "
                               ++ string_of_Z (Z.of_nat (List.length filteredAnimation))
                               ++ " status messages" ++ categoryMsg) ;;
                 seconds <- get (fun w => timeout (store w)) ;;
                 let intervalTime := Z.max (seconds * 1000) 5000 in
                 t <- setInterval (StartCallback cat) intervalTime ;;
                 set_statusInterval (Some t) ;;
                 logger LInfo ("Status interval set to " ++ string_of_Z intervalTime ++ " ms") ;;
                 Toasts_show "Status animation started!" SUCCESS)%js)%async
    (fun err =>
       sync (reason <- toString err ;;
             logger LError ("Failed to start animation: " ++ reason) ;;
             Toasts_show "Failed to start status animation" FAILURE)%js).

End AsyncPlugin.

(** [other] is called, and runs to its end, while [first] is suspended at
    its first [await]; then [first] is resumed and runs on undisturbed.  A
    [first] that never waits is simply followed by [other]. *)
Definition overlapped {A B} (first : Async A) (other : JS B) : JS A :=
  fun w =>
    match first w with
    | Settled c w1 => (c, snd (other w1))
    | Awaiting w1 resume => settle (resume (snd (other w1)))
    end.

(** Whatever [m] throws can be rendered by a template literal. *)
Definition throws_printable {A} (m : JS A) : Prop :=
  forall w e w', m w = (Abrupt e, w') -> exists v : JsValue, e = Printable v.

(** ** Basic facts *)

Lemma new_events_touch {A} (m : JS A) (w : World) (c : nat) (evs : list Event) :
  snd (m w) = touch w c evs -> new_events m w = evs.
Proof.
  unfold new_events. intros ->. simpl.
  rewrite skipn_app, skipn_all, Nat.sub_diag. reflexivity.
Qed.

Lemma new_events_trace {A} (m : JS A) (w : World) (evs : list Event) :
  trace (snd (m w)) = trace w ++ evs -> new_events m w = evs.
Proof.
  unfold new_events. intros ->.
  rewrite skipn_app, skipn_all, Nat.sub_diag. reflexivity.
Qed.

Lemma applied_app (a b : list Event) : applied (a ++ b) = applied a ++ applied b.
Proof. apply flat_map_app. Qed.

Lemma sleeps_app (a b : list Event) : sleeps (a ++ b) = sleeps a ++ sleeps b.
Proof. apply flat_map_app. Qed.

Lemma toasts_app (a b : list Event) : toasts (a ++ b) = toasts a ++ toasts b.
Proof. apply flat_map_app. Qed.

Lemma failure_toasts_app (a b : list Event) :
  failure_toasts (a ++ b) = failure_toasts a ++ failure_toasts b.
Proof. apply flat_map_app. Qed.

Lemma armed_app (a b : list Event) : armed (a ++ b) = armed a ++ armed b.
Proof. apply flat_map_app. Qed.

Lemma cancelled_app (a b : list Event) :
  cancelled (a ++ b) = cancelled a ++ cancelled b.
Proof. apply flat_map_app. Qed.

Lemma attempts_app (a b : list Event) :
  attempts (a ++ b) = (attempts a + attempts b)%nat.
Proof. unfold attempts. rewrite applied_app. apply length_app. Qed.

(** Events of an apply are invisible to the readers of scheduler events. *)
Lemma external_only_silent (evs : list Event) :
  forallb external_only evs = true ->
  applied evs = [] /\ sleeps evs = [] /\ toasts evs = [] /\
  failure_toasts evs = [] /\ armed evs = [] /\ cancelled evs = [].
Proof.
  induction evs as [|e evs IH]; simpl; [tauto|].
  intros H. apply andb_true_iff in H as [He Hevs].
  destruct (IH Hevs) as (-> & -> & -> & -> & -> & ->).
  destruct e; simpl in *; try discriminate; tauto.
Qed.

(** ** [setStatus] *)

Ltac fields :=
  cbn [currentIndex statusInterval _lastUpdateTime store clock timers
       nextTimer calls trace fst snd] in *.

Ltac norm_trace := repeat (rewrite <- ?app_assoc; cbn [app]).

Ltac js_unfold :=
  unfold logger, Toasts_show, Date_now in *;
  unfold toString, detached_catch in *;
  unfold bind, try_catch, ret, throw, get, emit, interact, sleep,
    set_currentIndex, set_statusInterval, set_lastUpdateTime, setInterval,
    clearInterval, touch in *.

Ltac setStatus_case :=
  rewrite <- ?app_assoc; simpl;
  do 3 eexists; (split; [reflexivity|]); simpl;
  (split; [reflexivity|]);
  split; split; intros H;
  repeat match goal with
         | H : exists _, _ |- _ => destruct H
         | H : _ \/ _ |- _ => destruct H
         end;
  try discriminate; try reflexivity; eauto.

(** On a host whose rejections can be rendered, [setStatus] returns a
    result object, touches nothing but the trace, makes at most one
    custom-status call, and reports success exactly when that call was made
    and resolved. *)
Lemma setStatus_spec (host : Host) (so : option StatusStep) (w : World) :
  exists r c evs,
    setStatus host so w = (Normal r, touch w c evs) /\
    forallb external_only evs = true /\
    (success r = true <-> exists p, custom_updates evs = [(p, true)]) /\
    (success r = false <->
       custom_updates evs = [] \/ exists p, custom_updates evs = [(p, false)]).
Proof.
  destruct w as [ci si lu st ck tm nt cl tr].
  unfold setStatus, updateSetting. js_unfold. simpl.
  destruct (getCached host cl) as [e|]; simpl; [setStatus_case|].
  destruct (CustomStatus host) as [custom|]; simpl; [|setStatus_case].
  destruct so as [step|]; simpl; [|setStatus_case].
  destruct (custom (S cl) (payload_of step ck)) as [e|]; simpl;
    [setStatus_case|].
  destruct (status step) as [k|], (StatusSetting host) as [setting|]; simpl;
    try setStatus_case.
  destruct (setting (S (S cl)) k) as [e|]; simpl; setStatus_case.
Qed.

(** Whatever the host throws at it, and whether it returns or rejects,
    [setStatus] leaves the scheduler alone. *)
Lemma setStatus_framed_raw (host : Raw.Host) : framed (setStatus host).
Proof.
  intros so w. destruct w as [ci si lu st ck tm nt cl tr].
  unfold setStatus, updateSetting. js_unfold. simpl.
  destruct (Raw.getCached host cl) as [[v|]|]; simpl;
    try (rewrite <- ?app_assoc; simpl; do 2 eexists; split; reflexivity).
  { exists (S cl), []. rewrite app_nil_r. split; reflexivity. }
  destruct (Raw.CustomStatus host) as [custom|]; simpl;
    try (rewrite <- ?app_assoc; simpl; do 2 eexists; split; reflexivity).
  destruct so as [step|]; simpl;
    try (rewrite <- ?app_assoc; simpl; do 2 eexists; split; reflexivity).
  destruct (custom (S cl) (payload_of step ck)) as [[v|]|]; simpl;
    try (rewrite <- ?app_assoc; simpl; do 2 eexists; split; reflexivity).
  destruct (status step) as [k|], (Raw.StatusSetting host) as [setting|]; simpl;
    try (rewrite <- ?app_assoc; simpl; do 2 eexists; split; reflexivity).
  destruct (setting (S (S cl)) k) as [[v|]|]; simpl;
    rewrite <- ?app_assoc; simpl; do 2 eexists; split; reflexivity.
Qed.

Lemma setStatus_framed (host : Host) : framed (setStatus host).
Proof.
  intros so w. destruct (setStatus_spec host so w) as (r & c & evs & E & H & _).
  exists c, evs. rewrite E. auto.
Qed.

Lemma setStatus_never_throws (host : Host) : never_throws (setStatus host).
Proof.
  intros so w. destruct (setStatus_spec host so w) as (r & c & evs & E & _).
  exists r. rewrite E. reflexivity.
Qed.

(** ** The retry loops, for any apply procedure *)

Section RetryLoops.

Variable apply : option StatusStep -> JS ApplyResult.
Hypothesis apply_framed : framed apply.

Ltac run_apply :=
  match goal with
  | |- context [apply ?so ?W] =>
      let c := fresh "c" in
      let evs := fresh "evs" in
      let Hsnd := fresh "Hsnd" in
      let Hext := fresh "Hext" in
      let r := fresh "r" in
      let w' := fresh "w'" in
      let E := fresh "E" in
      destruct (apply_framed so W) as (c & evs & Hsnd & Hext);
      destruct (apply so W) as [r w'] eqn:E;
      unfold touch in Hsnd; simpl in Hsnd; subst w';
      destruct (external_only_silent evs Hext) as (? & ? & ? & ? & ? & ?)
  end.

Lemma never_throws_abrupt so W e w' :
  never_throws apply -> apply so W = (Abrupt e, w') -> False.
Proof.
  intros Hnt E. destruct (Hnt so W) as [r Hr]. rewrite E in Hr. discriminate.
Qed.

Ltac cannot_throw :=
  try intros ?; exfalso; eapply never_throws_abrupt; eassumption.

(** One iteration: a call that returns ends the loop; a call that throws
    either ends it abruptly (no attempt left, or the value thrown cannot be
    rendered into the log line) or waits and goes on.  What leaves the
    iteration abruptly is a value that can be rendered. *)
Lemma update_attempt_spec (r : nat) (fa : list StatusStep) (w : World) :
  exists c evs,
    forallb external_only evs = true /\
    ((update_attempt apply r fa w
      = (Normal true, touch w c ([EApply (index fa (currentIndex w))] ++ evs)))
     \/
     (~ never_throws apply /\ exists (e : JsValue) tail,
        forallb external_only tail = true /\
        update_attempt apply r fa w
        = (Abrupt e, touch w c ([EApply (index fa (currentIndex w))] ++ evs
                                ++ tail)))
     \/
     (~ never_throws apply /\ r <> O /\ exists msg,
        update_attempt apply r fa w
        = (Normal false,
           advance w (clock w + (4 - Z.of_nat r) * 500) c
             ([EApply (index fa (currentIndex w))] ++ evs
              ++ [ELog LWarn msg; ESleep ((4 - Z.of_nat r) * 500)])))).
Proof.
  destruct w as [ci si lu st ck tm nt cl tr].
  unfold update_attempt, call_setStatus. js_unfold. simpl.
  run_apply. exists c, evs. split; [assumption|].
  destruct r0 as [r0|e]; simpl.
  - left. rewrite <- app_assoc. reflexivity.
  - right. destruct r as [|r].
    + left. simpl. split; [cannot_throw|].
      destruct e as [v|]; simpl.
      * exists v. eexists [ELog LError _]. split; [reflexivity|].
        rewrite <- !app_assoc. reflexivity.
      * eexists. exists []. split; [reflexivity|].
        rewrite app_nil_r, <- !app_assoc. reflexivity.
    + replace (Z.of_nat (S r) <=? 0) with false
        by (symmetry; apply Z.leb_gt; lia).
      destruct e as [v|]; simpl.
      * right. split; [cannot_throw|]. split; [discriminate|].
        eexists. unfold advance. simpl. rewrite <- !app_assoc. reflexivity.
      * left. split; [cannot_throw|].
        eexists. exists []. split; [reflexivity|].
        rewrite app_nil_r, <- !app_assoc. reflexivity.
Qed.

Ltac count_events :=
  unfold retry_events, attempts;
  rewrite ?toasts_app, ?failure_toasts_app, ?armed_app, ?cancelled_app,
    ?applied_app, ?sleeps_app;
  repeat match goal with
         | H : forallb external_only ?evs = true |- _ =>
             destruct (external_only_silent evs H) as (? & ? & ? & ? & ? & ?);
             clear H
         end;
  repeat match goal with H : _ = [] |- _ => rewrite H end;
  cbn [app toasts failure_toasts armed cancelled applied sleeps flat_map
       List.length].

Lemma update_retry_S (r : nat) (fa : list StatusStep) (w : World) :
  update_retry apply (S r) fa w
  = match update_attempt apply r fa w with
    | (Normal true, w') => (Normal tt, w')
    | (Normal false, w') => update_retry apply r fa w'
    | (Abrupt e, w') => (Abrupt e, w')
    end.
Proof.
  cbn [update_retry]. unfold bind.
  destruct (update_attempt apply r fa w) as [[[|]|e] w']; reflexivity.
Qed.

Lemma update_retry_spec (n : nat) :
  forall (fa : list StatusStep) (w : World),
  exists res ck c evs,
    update_retry apply (S n) fa w = (res, advance w ck c evs) /\
    retry_events (index fa (currentIndex w)) (backoff (S n)) (S n) evs /\
    (res = Normal tt \/
     ~ never_throws apply /\ exists e : JsValue, res = Abrupt e) /\
    (never_throws apply ->
     res = Normal tt /\ attempts evs = 1%nat /\ ck = clock w).
Proof.
  induction n as [|n IH]; intros fa w; rewrite update_retry_S;
    match goal with
    | |- context [update_attempt apply ?r fa w] =>
        destruct (update_attempt_spec r fa w)
          as (c & evs & Hext &
              [E | [(Hnt & e & tail & Htail & E) | (Hnt & Hr & msg & E)]])
    end;
    rewrite E; try congruence.
  - exists (Normal tt), (clock w), c, ([EApply (index fa (currentIndex w))] ++ evs).
    split; [reflexivity|]. count_events. simpl. repeat split; auto.
  - exists (Abrupt e), (clock w), c,
      ([EApply (index fa (currentIndex w))] ++ evs ++ tail).
    split; [reflexivity|]. count_events. simpl.
    repeat split; eauto; intros; contradiction.
  - exists (Normal tt), (clock w), c, ([EApply (index fa (currentIndex w))] ++ evs).
    split; [reflexivity|]. count_events. simpl. repeat split; auto. lia.
  - exists (Abrupt e), (clock w), c,
      ([EApply (index fa (currentIndex w))] ++ evs ++ tail).
    split; [reflexivity|]. count_events. simpl.
    repeat split; eauto; try lia; intros; contradiction.
  - match goal with
    | |- context [update_retry apply (S n) fa ?W] =>
        destruct (IH fa W) as (res & ck' & c' & evs' & Eq & Hev & Hres & _)
    end.
    rewrite Eq. clear Eq.
    exists res, ck', c',
      ([EApply (index fa (currentIndex w))] ++ evs
       ++ [ELog LWarn msg; ESleep ((4 - Z.of_nat (S n)) * 500)] ++ evs').
    split.
    { unfold advance. fields. norm_trace. destruct res; reflexivity. }
    unfold advance in Hev. fields.
    destruct Hev as (Ht & Hf & Ha & Hc & Hn & Hap & Hs).
    unfold attempts in *. count_events.
    rewrite Hs.
    set (k := List.length (applied evs')) in *.
    repeat split; auto; try lia.
    + cbn [repeat]. f_equal. exact Hap.
    + destruct k as [|k]; [lia|]. simpl. rewrite Nat.sub_0_r. reflexivity.
    + contradiction.
    + contradiction.
    + contradiction.
Qed.

Lemma initial_attempt_spec (retry : Z) (fa : list StatusStep) (w : World) :
  exists c evs,
    forallb external_only evs = true /\
    ((initial_attempt apply retry fa w
      = (Normal true, touch w c ([EApply (index fa 0)] ++ evs)))
     \/
     (~ never_throws apply /\ exists (e : JsValue) tail,
        forallb external_only tail = true /\
        initial_attempt apply retry fa w
        = (Abrupt e, touch w c ([EApply (index fa 0)] ++ evs ++ tail)))
     \/
     (~ never_throws apply /\ retry <> 2 /\ exists msg,
        initial_attempt apply retry fa w
        = (Normal false,
           advance w (clock w + 500) c
             ([EApply (index fa 0)] ++ evs ++ [ELog LWarn msg; ESleep 500])))).
Proof.
  destruct w as [ci si lu st ck tm nt cl tr].
  unfold initial_attempt, call_setStatus. js_unfold. simpl.
  run_apply. exists c, evs. split; [assumption|].
  destruct r as [r|e]; simpl.
  - left. rewrite <- app_assoc. reflexivity.
  - right. destruct e as [v|]; simpl.
    + destruct (Z.eqb_spec retry 2) as [->|Hne].
      * left. simpl. split; [cannot_throw|].
        exists v. eexists [ELog LWarn _]. split; [reflexivity|].
        rewrite <- !app_assoc. reflexivity.
      * right. simpl. split; [cannot_throw|]. split; [assumption|].
        eexists. unfold advance. simpl. rewrite <- !app_assoc. reflexivity.
    + left. split; [cannot_throw|].
      eexists. exists []. split; [reflexivity|].
      rewrite app_nil_r, <- !app_assoc. reflexivity.
Qed.

Lemma initial_set_S (left : nat) (retry : Z) (fa : list StatusStep) (w : World) :
  retry < 3 ->
  initial_set apply (S left) retry fa w
  = match initial_attempt apply retry fa w with
    | (Normal true, w') => (Normal true, w')
    | (Normal false, w') => initial_set apply left (retry + 1) fa w'
    | (Abrupt e, w') => (Abrupt e, w')
    end.
Proof.
  intros H. cbn [initial_set].
  replace (retry <? 3) with true by (symmetry; apply Z.ltb_lt; assumption).
  unfold bind.
  destruct (initial_attempt apply retry fa w) as [[[|]|e] w']; reflexivity.
Qed.

(** The [for] loop entered with [retry = 2 - n], that is with [S n]
    iterations to go: it never falls out of the loop with
    [initialSetSuccess] still false. *)
Lemma initial_set_spec (n : nat) :
  forall (retry : Z) (fa : list StatusStep) (w : World),
  retry = 2 - Z.of_nat n ->
  exists res ck c evs,
    initial_set apply (S n) retry fa w = (res, advance w ck c evs) /\
    retry_events (index fa 0) (repeat 500 n) (S n) evs /\
    (res = Normal true \/
     ~ never_throws apply /\ exists e : JsValue, res = Abrupt e) /\
    (never_throws apply ->
     res = Normal true /\ attempts evs = 1%nat /\ ck = clock w).
Proof.
  induction n as [|n IH]; intros retry fa w Hretry;
    (rewrite initial_set_S by lia);
    destruct (initial_attempt_spec retry fa w)
      as (c & evs & Hext &
          [E | [(Hnt & e & tail & Htail & E) | (Hnt & Hr & msg & E)]]);
    rewrite E; try lia.
  - exists (Normal true), (clock w), c, ([EApply (index fa 0)] ++ evs).
    split; [reflexivity|]. count_events. simpl. repeat split; auto.
  - exists (Abrupt e), (clock w), c, ([EApply (index fa 0)] ++ evs ++ tail).
    split; [reflexivity|]. count_events. simpl.
    repeat split; eauto; intros; contradiction.
  - exists (Normal true), (clock w), c, ([EApply (index fa 0)] ++ evs).
    split; [reflexivity|]. count_events. simpl. repeat split; auto. lia.
  - exists (Abrupt e), (clock w), c, ([EApply (index fa 0)] ++ evs ++ tail).
    split; [reflexivity|]. count_events. simpl.
    repeat split; eauto; try lia; intros; contradiction.
  - match goal with
    | |- context [initial_set apply (S n) ?r fa ?W] =>
        destruct (IH r fa W ltac:(lia))
          as (res & ck' & c' & evs' & Eq & Hev & Hres & _)
    end.
    rewrite Eq. clear Eq.
    exists res, ck', c',
      ([EApply (index fa 0)] ++ evs ++ [ELog LWarn msg; ESleep 500] ++ evs').
    split.
    { unfold advance. fields. norm_trace. destruct res; reflexivity. }
    destruct Hev as (Ht & Hf & Ha & Hc & Hn & Hap & Hs).
    unfold attempts in *. count_events.
    rewrite Hs.
    set (k := List.length (applied evs')) in *.
    repeat split; auto; try lia.
    + cbn [repeat]. f_equal. exact Hap.
    + destruct k as [|k]; [lia|]. simpl. rewrite Nat.sub_0_r. reflexivity.
    + contradiction.
    + contradiction.
    + contradiction.
Qed.

(** *** [startAnimation], for any apply procedure *)

Lemma startAnimationWith_empty (cat : option string) (w : World) :
  filterSteps cat (steps_of (animation (store w))) = [] ->
  startAnimationWith apply cat w
  = (Normal tt,
     touch w (calls w)
       (parse_log (animation (store w))
        ++ [empty_toast cat (steps_of (animation (store w)))])).
Proof.
  destruct w as [ci si lu st ck tm nt cl tr]. fields.
  unfold startAnimationWith, safeParseJSON. js_unfold. fields.
  destruct (animation st) as [|err| |steps]; cbn [steps_of parse_log];
    intros H; try reflexivity.
  - cbn. rewrite <- app_assoc. reflexivity.
  - destruct steps as [|s steps]; [reflexivity|].
    rewrite H. reflexivity.
Qed.

(** With something to rotate, [startAnimation] cancels the live timer,
    resets [currentIndex], runs the initial retry loop and then either arms
    a fresh timer or, when the loop threw, reports the failure and stays
    stopped. *)
Lemma startAnimationWith_ready (cat : option string) (w : World) :
  let fa := filterSteps cat (steps_of (animation (store w))) in
  let t := mkTimer (nextTimer w) (Z.max (timeout (store w) * 1000) 5000)
                   (StartCallback cat) in
  fa <> [] ->
  exists ck c evs,
    retry_events (index fa 0) [500; 500] 3 evs /\
    (never_throws apply -> attempts evs = 1%nat /\ ck = clock w) /\
    ((exists m1 m2,
        startAnimationWith apply cat w
        = (Normal tt,
           mkWorld 0 (Some t) (_lastUpdateTime w) (store w) ck
             (timers_cleared w ++ [t]) (S (nextTimer w)) c
             (trace w ++ cancel_events w ++ evs
              ++ [ELog LInfo m1; ESetInterval t; ELog LInfo m2;
                  EToast SUCCESS "Status animation started!"])))
     \/
     (~ never_throws apply /\ exists m,
        startAnimationWith apply cat w
        = (Normal tt,
           mkWorld 0 None (_lastUpdateTime w) (store w) ck
             (timers_cleared w) (nextTimer w) c
             (trace w ++ cancel_events w ++ evs
              ++ [ELog LError m;
                  EToast FAILURE "Failed to start status animation"])))).
Proof.
  intros fa t Hfa.
  remember (startAnimationWith apply cat w) as R eqn:HR.
  destruct w as [ci si lu st ck tm nt cl tr].
  unfold cancel_events, timers_cleared. fields.
  unfold startAnimationWith, safeParseJSON, clear_if_running in HR.
  destruct (animation st) as [|err| |steps] eqn:Ejson;
    try (exfalso; apply Hfa; subst fa; destruct cat as [[|]|]; reflexivity).
  cbn [steps_of] in fa.
  destruct steps as [|s steps].
  { exfalso; apply Hfa; subst fa; destruct cat as [[|]|]; reflexivity. }
  destruct fa as [|s0 fa0] eqn:Efa; [congruence|].
  js_unfold.
  cbn -[initial_set filterSteps Z.max Z.mul string_of_Z append] in HR.
  rewrite Ejson in HR.
  cbn -[initial_set filterSteps Z.max Z.mul string_of_Z append] in HR.
  subst fa. rewrite Efa in HR.
  cbn -[initial_set filterSteps Z.max Z.mul string_of_Z append] in HR.
  destruct si as [old|];
    cbn -[initial_set filterSteps Z.max Z.mul string_of_Z append] in HR;
    match type of HR with
    | context [initial_set apply 3 0 ?l ?W] =>
        destruct (initial_set_spec 2 0 l W eq_refl)
          as (res & ck' & c' & evs & Eq & Hev & Hres & Hnt);
        rewrite Eq in HR; clear Eq
    end;
    unfold advance in HR; fields;
    exists ck', c', evs; (split; [exact Hev|]);
    (split; [intros Hn; destruct (Hnt Hn) as (_ & ? & ?); split; assumption|]);
    (destruct Hres as [->|(Hthrows & e & ->)];
     [left|right; split; [exact Hthrows|]]);
    js_unfold;
    cbn -[filterSteps Z.max Z.mul string_of_Z append] in HR;
    subst R; subst t; norm_trace; do 2 eexists; reflexivity.
Qed.

(** *** [updateStatus], for any apply procedure *)

Variable host : Raw.Host.

Lemma updateStatusWith_throttled (cat : option string) (w : World) :
  throttled w = true ->
  updateStatusWith host apply cat w
  = (Normal tt,
     touch w (calls w) [ELog LDebug "Throttling status update - too frequent"]).
Proof.
  destruct w as [ci si lu st ck tm nt cl tr]. unfold throttled. fields.
  intros H. unfold updateStatusWith. js_unfold. fields.
  rewrite H. reflexivity.
Qed.

(** Nothing left to rotate: the scheduler stops itself, silently. *)
Lemma updateStatusWith_empty (cat : option string) (w : World) :
  throttled w = false ->
  filterSteps cat (steps_of (animation (store w))) = [] ->
  updateStatusWith host apply cat w
  = (Normal tt,
     mkWorld (currentIndex w) None (Some (clock w)) (store w) (clock w)
       (timers_cleared w) (nextTimer w) (calls w)
       (trace w ++ parse_log (animation (store w)) ++ cancel_events w
        ++ match statusInterval w with
           | Some _ => [ELog LWarn "Animation stopped - no status messages found"]
           | None => []
           end)).
Proof.
  destruct w as [ci si lu st ck tm nt cl tr].
  unfold throttled, cancel_events, timers_cleared. fields.
  intros H Hfa.
  unfold updateStatusWith, safeParseJSON, clear_if_running. js_unfold.
  cbn -[filterSteps Z.sub Z.ltb append]. rewrite H. fields.
  destruct (animation st) as [|err| |steps]; cbn [steps_of parse_log] in *;
    cbn -[filterSteps Z.sub Z.ltb append];
    try rewrite Hfa;
    destruct si as [old|]; cbn -[append]; norm_trace; rewrite ?app_nil_r;
    reflexivity.
Qed.

Lemma updateStatusWith_ready (cat : option string) (w : World) :
  let fa := filterSteps cat (steps_of (animation (store w))) in
  let next := next_index host w fa in
  throttled w = false ->
  fa <> [] ->
  exists ck c evs,
    retry_events (index fa next) [1000; 1500] 3 evs /\
    (never_throws apply -> attempts evs = 1%nat /\ ck = clock w) /\
    ((updateStatusWith host apply cat w
      = (Normal tt,
         mkWorld next (statusInterval w) (Some (clock w)) (store w) ck
           (timers w) (nextTimer w) c (trace w ++ evs)))
     \/
     (~ never_throws apply /\ exists m,
        updateStatusWith host apply cat w
        = (Normal tt,
           mkWorld next None (Some (clock w)) (store w) ck
             (timers_cleared w) (nextTimer w) c
             (trace w ++ evs ++ [ELog LError m] ++ cancel_events w
              ++ [EToast FAILURE "Status animation stopped due to an error"])))).
Proof.
  intros fa next Hth Hfa.
  remember (updateStatusWith host apply cat w) as R eqn:HR.
  destruct w as [ci si lu st ck tm nt cl tr].
  unfold throttled, cancel_events, timers_cleared, next_index in *. fields.
  unfold updateStatusWith, safeParseJSON, clear_if_running in HR.
  destruct (animation st) as [|err| |steps] eqn:Ejson;
    try (exfalso; apply Hfa; subst fa; destruct cat as [[|]|]; reflexivity).
  cbn [steps_of] in fa.
  destruct fa as [|s0 fa0] eqn:Efa; [congruence|].
  js_unfold.
  cbn -[update_retry filterSteps Z.rem Z.add Z.sub Z.ltb string_of_Z append] in HR.
  rewrite Hth in HR. fields. rewrite Ejson in HR.
  cbn -[update_retry filterSteps Z.rem Z.add Z.sub Z.ltb string_of_Z append] in HR.
  subst fa. rewrite Efa in HR.
  cbn -[update_retry filterSteps Z.rem Z.add Z.sub Z.ltb string_of_Z append] in HR.
  destruct (randomize st);
    cbn -[update_retry filterSteps Z.rem Z.add Z.sub Z.ltb string_of_Z append] in HR;
    match type of HR with
    | context [update_retry apply 3 ?l ?W] =>
        destruct (update_retry_spec 2 l W)
          as (res & ck' & c' & evs & Eq & Hev & Hres & Hnt);
        rewrite Eq in HR; clear Eq
    end;
    unfold advance in HR; fields;
    exists ck', c', evs; (split; [exact Hev|]);
    (split; [intros Hn; destruct (Hnt Hn) as (_ & ? & ?); split; assumption|]);
    (destruct Hres as [->|(Hthrows & e & ->)];
     [left|right; split; [exact Hthrows|]]);
    try (subst R next; reflexivity);
    destruct si as [old|];
    cbn -[filterSteps Z.rem Z.add Z.sub Z.ltb string_of_Z append] in HR;
    subst R next; norm_trace; eexists; reflexivity.
Qed.

End RetryLoops.

(** ** The plugin as it is: [this.setStatus] is [setStatus], on a host
    whose rejections can be rendered *)

Lemma retry_events_once (target : option StatusStep) (waits : list Z)
  (bound : nat) (evs : list Event) :
  retry_events target waits bound evs -> attempts evs = 1%nat ->
  applied evs = [target] /\ sleeps evs = [] /\ toasts evs = [] /\
  failure_toasts evs = [] /\ armed evs = [] /\ cancelled evs = [].
Proof.
  intros (Ht & Hf & Ha & Hc & _ & Hap & Hs) H1.
  rewrite H1 in Hap, Hs. simpl in Hap, Hs. tauto.
Qed.

Lemma startAnimation_ready (host : Host) (cat : option string) (w : World) :
  let fa := filterSteps cat (steps_of (animation (store w))) in
  let t := mkTimer (nextTimer w) (Z.max (timeout (store w) * 1000) 5000)
                   (StartCallback cat) in
  fa <> [] ->
  exists c evs m1 m2,
    startAnimation host cat w
    = (Normal tt,
       mkWorld 0 (Some t) (_lastUpdateTime w) (store w) (clock w)
         (timers_cleared w ++ [t]) (S (nextTimer w)) c
         (trace w ++ cancel_events w ++ evs
          ++ [ELog LInfo m1; ESetInterval t; ELog LInfo m2;
              EToast SUCCESS "Status animation started!"])) /\
    retry_events (index fa 0) [500; 500] 3 evs /\
    attempts evs = 1%nat.
Proof.
  intros fa t Hfa.
  destruct (startAnimationWith_ready (setStatus host) (setStatus_framed host)
              cat w Hfa)
    as (ck & c & evs & Hev & Hq & [(m1 & m2 & E) | (Hn & _)]).
  - destruct (Hq (setStatus_never_throws host)) as [H1 ->].
    exists c, evs, m1, m2. auto.
  - destruct (Hn (setStatus_never_throws host)).
Qed.

Lemma updateStatus_ready (host : Host) (cat : option string) (w : World) :
  let fa := filterSteps cat (steps_of (animation (store w))) in
  let next := next_index host w fa in
  throttled w = false ->
  fa <> [] ->
  exists c evs,
    updateStatus host cat w
    = (Normal tt,
       mkWorld next (statusInterval w) (Some (clock w)) (store w) (clock w)
         (timers w) (nextTimer w) c (trace w ++ evs)) /\
    retry_events (index fa next) [1000; 1500] 3 evs /\
    attempts evs = 1%nat.
Proof.
  intros fa next Hth Hfa.
  destruct (updateStatusWith_ready (setStatus host) (setStatus_framed host)
              host cat w Hth Hfa)
    as (ck & c & evs & Hev & Hq & [E | (Hn & _)]).
  - destruct (Hq (setStatus_never_throws host)) as [H1 ->].
    exists c, evs. auto.
  - destruct (Hn (setStatus_never_throws host)).
Qed.

(** ** Stopping *)

Lemma stop_stopped (w : World) :
  statusInterval w = None -> stop w = (Normal tt, w).
Proof.
  destruct w as [ci si lu st ck tm nt cl tr]. simpl. intros ->. reflexivity.
Qed.

Lemma stop_running (w : World) (t : Timer) :
  statusInterval w = Some t ->
  stop w
  = (Normal tt,
     mkWorld (currentIndex w) None (_lastUpdateTime w) (store w) (clock w)
       (filter (fun t' => negb (Nat.eqb (tid t') (tid t))) (timers w))
       (nextTimer w) (calls w)
       (trace w ++ [EClearInterval t;
                    ELog LInfo "Status animation stopped, current status preserved"])).
Proof.
  destruct w as [ci si lu st ck tm nt cl tr]. simpl. intros ->.
  unfold stop, clear_if_running. js_unfold. simpl.
  rewrite <- app_assoc. reflexivity.
Qed.

Lemma not_in_cleared (t : Timer) (ts : list Timer) :
  ~ In t (filter (fun t' => negb (Nat.eqb (tid t') (tid t))) ts).
Proof.
  intros H. apply filter_In in H as [_ H].
  rewrite Nat.eqb_refl in H. discriminate.
Qed.

(** C9.  [stop] is idempotent: stopping twice is stopping once, and
    stopping a stopped scheduler changes nothing at all; stopping a running
    one cancels its timer and nulls the handle, leaves [currentIndex] and the
    other variables alone and makes no call to the presence service. *)
Theorem stop_idempotent (w : World) :
  (stop ;; stop) w = stop w /\
  isRunning (snd (stop w)) = false /\
  match statusInterval w with
  | None => stop w = (Normal tt, w)
  | Some t =>
      let w' := snd (stop w) in
      statusInterval w' = None /\
      cancelled (new_events stop w) = [t] /\
      ~ In t (timers w') /\
      currentIndex w' = currentIndex w /\
      _lastUpdateTime w' = _lastUpdateTime w /\
      store w' = store w /\
      applied (new_events stop w) = [] /\
      custom_updates (new_events stop w) = [] /\
      presence_updates (new_events stop w) = []
  end.
Proof.
  destruct (statusInterval w) as [t|] eqn:E.
  - pose proof (stop_running w t E) as Hs.
    split.
    { unfold bind. rewrite Hs. rewrite stop_stopped; reflexivity. }
    rewrite Hs. simpl. split; [reflexivity|].
    rewrite (new_events_trace stop w _ (f_equal (fun r => trace (snd r)) Hs)).
    simpl. repeat split; try reflexivity. apply not_in_cleared.
  - pose proof (stop_stopped w E) as Hs.
    split.
    { unfold bind. rewrite Hs. exact Hs. }
    rewrite Hs. unfold isRunning. simpl. rewrite E. auto.
Qed.

(** ** Starting *)

(** C6.  Started with nothing to rotate (no steps at all, or none in the
    given category), [startAnimation] shows one toast and returns: no timer
    is armed or cancelled, no apply is made, and every scheduler variable is
    as it was, so a stopped scheduler is still stopped. *)
Theorem startAnimation_empty (host : Host) (cat : option string) (w : World) :
  filterSteps cat (steps_of (animation (store w))) = [] ->
  let w' := snd (startAnimation host cat w) in
  let evs := new_events (startAnimation host cat) w in
  fst (startAnimation host cat w) = Normal tt /\
  toasts evs
  = match steps_of (animation (store w)) with
    | [] => [(MESSAGE, "Add some status animations in settings!"%string)]
    | _ :: _ => [(FAILURE, ("No status messages in " ++ dquote ++ show_opt cat
                            ++ dquote ++ " category!")%string)]
    end /\
  armed evs = [] /\ cancelled evs = [] /\ applied evs = [] /\
  currentIndex w' = currentIndex w /\
  statusInterval w' = statusInterval w /\
  _lastUpdateTime w' = _lastUpdateTime w /\
  timers w' = timers w /\
  isRunning w' = isRunning w.
Proof.
  intros H w' evs. subst w' evs.
  pose proof (startAnimationWith_empty (setStatus host) cat w H) as E.
  fold (startAnimation host) in E.
  rewrite (new_events_touch _ w _ _ (f_equal snd E)). rewrite E.
  unfold isRunning. simpl.
  rewrite toasts_app, armed_app, cancelled_app, applied_app.
  destruct (animation (store w)) as [|err| |[|s steps]]; simpl; tauto.
Qed.

Lemma startAnimation_empty_witness :
  let w := freshWorld noSteps 1700000000000 in
  isRunning (snd (startAnimation obligingHost None w)) = false /\
  toasts (new_events (startAnimation obligingHost None) w)
  = [(MESSAGE, "Add some status animations in settings!"%string)].
Proof.
  intros w.
  destruct (startAnimation_empty obligingHost None w eq_refl)
    as (_ & Ht & _ & _ & _ & _ & _ & _ & _ & Hr).
  split; [exact Hr | exact Ht].
Defined.

(** C8, as the code has it.  A call of [startAnimation] that finds nothing
    to rotate leaves [currentIndex] as it was.  A call that finds something
    resets [currentIndex] to 0, and what it does first is cancel the timer
    that was running: the new timer is armed afterwards and is the only one
    the call adds. *)
Theorem startAnimation_resets (host : Host) (cat : option string) (w : World) :
  let w' := snd (startAnimation host cat w) in
  match filterSteps cat (steps_of (animation (store w))) with
  | [] => currentIndex w' = currentIndex w
  | _ :: _ =>
      currentIndex w' = 0 /\
      exists t rest,
        statusInterval w' = Some t /\
        new_events (startAnimation host cat) w = cancel_events w ++ rest /\
        cancelled rest = [] /\ armed rest = [t] /\
        timers w' = timers_cleared w ++ [t]
  end.
Proof.
  intros w'. subst w'.
  destruct (filterSteps cat (steps_of (animation (store w))))
    as [|s0 fa0] eqn:Efa.
  - pose proof (startAnimationWith_empty (setStatus host) cat w Efa) as E.
    fold (startAnimation host) in E. rewrite E. reflexivity.
  - assert (Hfa : filterSteps cat (steps_of (animation (store w))) <> [])
      by (rewrite Efa; discriminate).
    destruct (startAnimation_ready host cat w Hfa)
      as (c & evs & m1 & m2 & E & Hev & H1).
    destruct (retry_events_once _ _ _ _ Hev H1) as (_ & _ & _ & _ & Ha & Hc).
    rewrite (new_events_trace _ w _ (f_equal (fun r => trace (snd r)) E)).
    rewrite E. simpl. split; [reflexivity|].
    eexists. eexists. split; [reflexivity|]. split; [reflexivity|].
    rewrite cancelled_app, armed_app, Ha, Hc. simpl. auto.
Qed.

(** C8, as the claim has it, fails: a call whose precondition fails returns
    before the reset, so [currentIndex] keeps the value it had. *)
Lemma startAnimation_failed_start_keeps_index :
  let w := runningWorld noSteps 1700000000000 in
  currentIndex w = 2 /\
  currentIndex (snd (startAnimation obligingHost None w)) <> 0.
Proof. simpl. split; [reflexivity | discriminate]. Qed.

(** ** The interval floor *)

Lemma updateInterval_running (newTimeout : Z) (w : World) (old : Timer) :
  statusInterval w = Some old ->
  let t := mkTimer (nextTimer w) (Z.max (newTimeout * 1000) 5000)
                   ReconfigureCallback in
  exists m,
    updateInterval newTimeout w
    = (Normal tt,
       mkWorld (currentIndex w) (Some t) (_lastUpdateTime w) (store w)
         (clock w) (timers_cleared w ++ [t]) (S (nextTimer w)) (calls w)
         (trace w ++ [EClearInterval old; ESetInterval t; ELog LInfo m])).
Proof.
  destruct w as [ci si lu st ck tm nt cl tr]. simpl. intros ->.
  unfold updateInterval, timers_cleared. js_unfold.
  cbn -[Z.max Z.mul string_of_Z append].
  eexists. norm_trace. reflexivity.
Qed.

Lemma updateInterval_stopped (newTimeout : Z) (w : World) :
  statusInterval w = None -> updateInterval newTimeout w = (Normal tt, w).
Proof.
  destruct w as [ci si lu st ck tm nt cl tr]. simpl. intros ->. reflexivity.
Qed.

(** C5.  For every [s] and every state of the scheduler and of the store:
    [updateInterval s] on a running scheduler arms one timer, of period
    [max (s * 1000) 5000], and leaves it in [statusInterval]; on a stopped
    scheduler it arms nothing.  [startAnimation], from the stopped state as
    from a running one, arms one timer whenever it has something to rotate,
    of period [max (timeout * 1000) 5000] for the stored timeout, and arms
    nothing otherwise; on a host whose rejections cannot all be rendered a
    start may fail, and then too whatever it arms has that period.  The
    period is 5000 whenever the number of seconds is below 5, and never less
    than 5000. *)
Theorem interval_floor (host : Host) (cat : option string) (s : Z) (w : World) :
  let floor x := Z.max (x * 1000) 5000 in
  match statusInterval w with
  | Some old =>
      exists t,
        armed (new_events (updateInterval s) w) = [t] /\
        cancelled (new_events (updateInterval s) w) = [old] /\
        statusInterval (snd (updateInterval s w)) = Some t /\
        In t (timers (snd (updateInterval s w))) /\
        delay t = floor s
  | None =>
      armed (new_events (updateInterval s) w) = [] /\
      statusInterval (snd (updateInterval s w)) = None
  end /\
  match filterSteps cat (steps_of (animation (store w))) with
  | _ :: _ =>
      exists t,
        armed (new_events (startAnimation host cat) w) = [t] /\
        statusInterval (snd (startAnimation host cat w)) = Some t /\
        In t (timers (snd (startAnimation host cat w))) /\
        delay t = floor (timeout (store w))
  | [] => armed (new_events (startAnimation host cat) w) = []
  end /\
  (forall any : Raw.Host,
     Forall (fun t => delay t = floor (timeout (store w)))
            (armed (new_events (startAnimation any cat) w))) /\
  forall x, floor x = (if x <? 5 then 5000 else x * 1000) /\ 5000 <= floor x.
Proof.
  intros floor.
  assert (Hce : armed (cancel_events w) = [])
    by (unfold cancel_events; destruct (statusInterval w); reflexivity).
  split; [|split; [|split]].
  - destruct (statusInterval w) as [old|] eqn:Eold.
    + destruct (updateInterval_running s w old Eold) as (m & E).
      rewrite (new_events_trace _ w _ (f_equal (fun r => trace (snd r)) E)).
      rewrite E. simpl. eexists. split; [reflexivity|]. split; [reflexivity|].
      split; [reflexivity|]. split; [|reflexivity].
      apply in_or_app. right. left. reflexivity.
    + pose proof (updateInterval_stopped s w Eold) as E.
      rewrite (new_events_trace _ w [])
        by (rewrite E; simpl; rewrite app_nil_r; reflexivity).
      rewrite E. auto.
  - destruct (filterSteps cat (steps_of (animation (store w))))
      as [|s0 fa0] eqn:Efa.
    + pose proof (startAnimationWith_empty (setStatus host) cat w Efa) as E.
      fold (startAnimation host) in E.
      rewrite (new_events_touch _ w _ _ (f_equal snd E)).
      rewrite armed_app.
      destruct (animation (store w)) as [|err| |[|st steps]]; reflexivity.
    + assert (Hfa : filterSteps cat (steps_of (animation (store w))) <> [])
        by (rewrite Efa; discriminate).
      destruct (startAnimation_ready host cat w Hfa)
        as (c & evs & m1 & m2 & E & Hev & H1).
      destruct (retry_events_once _ _ _ _ Hev H1) as (_ & _ & _ & _ & Ha & Hc).
      rewrite (new_events_trace _ w _ (f_equal (fun r => trace (snd r)) E)).
      rewrite E. simpl. eexists.
      rewrite !armed_app, Ha, Hce. simpl.
      split; [reflexivity|]. split; [reflexivity|].
      split; [|reflexivity].
      apply in_or_app. right. left. reflexivity.
  - intros any.
    destruct (filterSteps cat (steps_of (animation (store w))))
      as [|s0 fa0] eqn:Efa.
    + pose proof (startAnimationWith_empty (setStatus any) cat w Efa) as E.
      fold (startAnimation any) in E.
      rewrite (new_events_touch _ w _ _ (f_equal snd E)).
      rewrite armed_app.
      destruct (animation (store w)) as [|err| |[|st steps]]; constructor.
    + assert (Hfa : filterSteps cat (steps_of (animation (store w))) <> [])
        by (rewrite Efa; discriminate).
      destruct (startAnimationWith_ready (setStatus any)
                  (setStatus_framed_raw any) cat w Hfa)
        as (ck & c & evs & Hev & _ & [(m1 & m2 & E) | (_ & m & E)]);
        fold (startAnimation any) in E;
        destruct Hev as (_ & _ & Ha & _);
        rewrite (new_events_trace _ w _ (f_equal (fun r => trace (snd r)) E));
        rewrite !armed_app, Ha, Hce; simpl; repeat constructor.
  - intros x. subst floor. simpl.
    destruct (Z.ltb_spec x 5); lia.
Qed.

(** A start from the stopped state with a stored timeout of 3 seconds, and
    a reconfiguration to 3 seconds of a running scheduler: 5000ms both. *)
Lemma interval_floor_witness :
  let stopped := freshWorld (mkSettings 3 (animation threeSteps) false true)
                   1700000000000 in
  let running := runningWorld defaultSettings 1700000000000 in
  map delay (armed (new_events (startAnimation obligingHost None) stopped))
  = [5000] /\
  map delay (armed (new_events (updateInterval 3) running)) = [5000].
Proof.
  intros stopped running.
  destruct (interval_floor obligingHost None 3 stopped) as (_ & Hs & _ & _).
  destruct (interval_floor obligingHost None 3 running) as (Hu & _ & _ & _).
  cbv zeta in Hs, Hu.
  destruct Hs as (t & Ha & _ & _ & Hd).
  destruct Hu as (t' & Ha' & _ & _ & _ & Hd').
  rewrite Ha, Ha'. cbn [map]. rewrite Hd, Hd'. split; reflexivity.
Defined.

(** ** Applying a step *)

(** The presence-state call is made at most once and only after the
    custom-status call resolved; whether it resolves or rejects, the result
    reports success, and a rejection leaves an error line in the log. *)
Lemma setStatus_presence (host : Host) (so : option StatusStep) (w : World) :
  exists r c evs,
    setStatus host so w = (Normal r, touch w c evs) /\
    (presence_updates evs = [] \/
     exists k ok,
       presence_updates evs = [(k, ok)] /\ success r = true /\
       (exists p, custom_updates evs = [(p, true)]) /\
       (ok = true \/ exists m, In (ELog LError m) evs)).
Proof.
  destruct w as [ci si lu st ck tm nt cl tr].
  unfold setStatus, updateSetting. js_unfold. simpl.
  destruct (getCached host cl) as [e|]; simpl;
    [norm_trace; do 3 eexists; split; [reflexivity|left; reflexivity]|].
  destruct (CustomStatus host) as [custom|]; simpl;
    [|norm_trace; do 3 eexists; split; [reflexivity|left; reflexivity]].
  destruct so as [step|]; simpl;
    [|norm_trace; do 3 eexists; split; [reflexivity|left; reflexivity]].
  destruct (custom (S cl) (payload_of step ck)) as [e|]; simpl;
    [norm_trace; do 3 eexists; split; [reflexivity|left; reflexivity]|].
  destruct (status step) as [k|], (StatusSetting host) as [setting|]; simpl;
    try (norm_trace; do 3 eexists; split; [reflexivity|left; reflexivity]).
  destruct (setting (S (S cl)) k) as [e|]; simpl; norm_trace;
    do 3 eexists; (split; [reflexivity|right]); simpl;
    do 2 eexists; (split; [reflexivity|]); (split; [reflexivity|]);
    (split; [eexists; reflexivity|]).
  - right. eexists. right. right. left. reflexivity.
  - left. reflexivity.
Qed.

(** As long as rejections can be rendered, the outcome of [setStatus] does
    not depend on the presence-state call: two hosts that differ only there
    get the same result.  The result reports success exactly when the
    custom-status update was made and resolved, and a presence-state update
    that rejects is logged while the result still reports success. *)
Lemma setStatus_outcome
  (cached : nat -> option JsValue)
  (custom : option (nat -> Payload -> option JsValue))
  (presence1 presence2 : option (nat -> PresenceKind -> option JsValue))
  (rf1 rf2 : nat -> Z -> Z) (so : option StatusStep) (w : World) :
  let host := mkHost cached custom presence1 rf1 in
  let evs := new_events (setStatus host so) w in
  fst (setStatus host so w)
  = fst (setStatus (mkHost cached custom presence2 rf2) so w) /\
  exists r,
    fst (setStatus host so w) = Normal r /\
    (success r = true <-> exists p, custom_updates evs = [(p, true)]) /\
    (forall k, In (k, false) (presence_updates evs) ->
               success r = true /\ exists m, In (ELog LError m) evs).
Proof.
  intros host evs. split.
  - subst host. destruct w as [ci si lu st ck tm nt cl tr].
    unfold setStatus, updateSetting. js_unfold. simpl.
    destruct (cached cl) as [e|]; simpl; [reflexivity|].
    destruct custom as [cu|]; simpl; [|reflexivity].
    destruct so as [step|]; simpl; [|reflexivity].
    destruct (cu (S cl) (payload_of step ck)) as [e|]; simpl; [reflexivity|].
    destruct (status step) as [k|]; simpl;
      destruct presence1 as [p1|], presence2 as [p2|]; simpl;
      try destruct (p1 (S (S cl)) k); try destruct (p2 (S (S cl)) k);
      reflexivity.
  - destruct (setStatus_spec host so w) as (r & c & evs1 & E & _ & Hs & _).
    destruct (setStatus_presence host so w) as (r' & c' & evs' & E' & Hp).
    rewrite E in E'. injection E' as <- _ Ht.
    assert (evs' = evs1) as -> by (eapply app_inv_head; symmetry; exact Ht).
    subst evs. rewrite (new_events_touch _ w c evs1 (f_equal snd E)).
    exists r. rewrite E. split; [reflexivity|]. split; [exact Hs|].
    intros k Hin.
    destruct Hp as [Hp | (k' & ok & Hp & Hsucc & _ & Hlog)].
    + rewrite Hp in Hin. destruct Hin.
    + rewrite Hp in Hin. destruct Hin as [Hin|[]].
      injection Hin as -> ->. split; [exact Hsucc|].
      destruct Hlog as [Hlog|Hlog]; [discriminate | exact Hlog].
Qed.

(** Given a step and a host client that has the setting, [setStatus] makes
    the custom-status call, with the payload of the step, and reports how it
    ended; when it resolved and the step names a presence state the host has
    a setting for, it makes the presence-state call as well.  A rejection of
    that second call, when it can be rendered, ends in the log and leaves
    the result alone. *)
Lemma setStatus_calls (host : Host) (step : StatusStep) (w : World)
  (custom : nat -> Payload -> option JsValue) :
  getCached host (calls w) = None ->
  CustomStatus host = Some custom ->
  let evs := new_events (setStatus host (Some step)) w in
  let payload := payload_of step (clock w) in
  let ok := resolved (custom (S (calls w)) payload) in
  custom_updates evs = [(payload, ok)] /\
  (exists r, fst (setStatus host (Some step) w) = Normal r /\ success r = ok) /\
  presence_updates evs
  = (if ok then
       match status step, StatusSetting host with
       | Some k, Some setting => [(k, resolved (setting (S (S (calls w))) k))]
       | _, _ => []
       end
     else []) /\
  (forall k setting e,
     ok = true -> status step = Some k -> StatusSetting host = Some setting ->
     setting (S (S (calls w))) k = Some e ->
     In (ELog LError ("Failed to update status type: " ++ show e)) evs).
Proof.
  intros Hcached Hcustom evs payload ok. subst evs payload ok.
  destruct w as [ci si lu st ck tm nt cl tr]. fields.
  unfold new_events, setStatus, updateSetting. js_unfold. simpl.
  rewrite Hcached, Hcustom. simpl.
  destruct (custom (S cl) (payload_of step ck)) as [e|]; simpl.
  - rewrite <- !app_assoc, skipn_app, skipn_all, Nat.sub_diag. simpl.
    repeat split; eauto. discriminate.
  - destruct (status step) as [k|], (StatusSetting host) as [setting|]; simpl;
      try (rewrite <- ?app_assoc, skipn_app, skipn_all, Nat.sub_diag; simpl;
           repeat split; eauto; discriminate).
    destruct (setting (S (S cl)) k) as [e|] eqn:Es; simpl;
      rewrite <- !app_assoc, skipn_app, skipn_all, Nat.sub_diag; simpl;
      (split; [reflexivity|]); (split; [eauto|]); (split; [reflexivity|]);
      intros k' setting' e' _ Hk Hs He;
      injection Hk as <-; injection Hs as <-; rewrite Es in He;
      [injection He as <-; right; right; left; reflexivity | discriminate].
Qed.

(** C10 is not what the code does when the presence-state update is
    rejected with a value that has no string form.  The custom-status update
    was made and resolved, the presence-state update was made and rejected;
    the log line of its handler throws, the handler of the whole body
    catches that, and [setStatus] reports failure.  The same step on a host
    that rejects the presence-state update with an [Error] is reported as a
    success. *)
Theorem setStatus_presence_failure_fails_apply :
  let w := freshWorld defaultSettings 1700000000000 in
  let evs := new_events (setStatus opaquePresenceHost (Some busyStep)) w in
  map snd (custom_updates evs) = [true] /\
  presence_updates evs = [(dnd, false)] /\
  (exists r, fst (setStatus opaquePresenceHost (Some busyStep) w) = Normal r /\
             success r = false) /\
  (exists r, fst (setStatus flakyPresenceHost (Some busyStep) w) = Normal r /\
             success r = true).
Proof. vm_compute. repeat split; eexists; split; reflexivity. Qed.

(** As long as rejections can be rendered, [setStatus] returns a result
    object whatever the host and the step are, so its callers never see it
    throw: [startAnimation] and [updateStatus] call it exactly once when
    they get as far as their retry loop and not at all otherwise, never
    wait, and never take the way out that reports exhausted retries. *)
Lemma setStatus_total_single_attempt
  (host : Host) (cat : option string) (w : World) :
  let fa := filterSteps cat (steps_of (animation (store w))) in
  let start := new_events (startAnimation host cat) w in
  let update := new_events (updateStatus host cat) w in
  (forall so, exists r, fst (setStatus host so w) = Normal r) /\
  (attempts start = match fa with [] => 0%nat | _ :: _ => 1%nat end /\
   sleeps start = [] /\
   ~ In "Failed to start status animation"%string (failure_toasts start)) /\
  (attempts update
   = (if throttled w then 0%nat
      else match fa with [] => 0%nat | _ :: _ => 1%nat end) /\
   sleeps update = [] /\
   toasts update = [] /\
   statusInterval (snd (updateStatus host cat w))
   = (if throttled w then statusInterval w
      else match fa with [] => None | _ :: _ => statusInterval w end)).
Proof.
  intros fa start update. split; [|split].
  - intros so. destruct (setStatus_never_throws host so w) as [r Hr]. eauto.
  - subst start. destruct fa as [|s0 fa0] eqn:Efa.
    + pose proof (startAnimationWith_empty (setStatus host) cat w Efa) as E.
      fold (startAnimation host) in E.
      rewrite (new_events_touch _ w _ _ (f_equal snd E)).
      unfold attempts.
      rewrite applied_app, sleeps_app, failure_toasts_app.
      destruct (animation (store w)) as [|err| |[|s steps]]; simpl;
        repeat split; try reflexivity; intros Hin; simpl in Hin;
        intuition discriminate.
    + assert (Hfa : fa <> []) by (subst fa; rewrite Efa; discriminate).
      destruct (startAnimation_ready host cat w Hfa)
        as (c & evs & m1 & m2 & E & Hev & H1).
      destruct (retry_events_once _ _ _ _ Hev H1)
        as (Hap & Hsl & _ & Hft & _ & _).
      rewrite (new_events_trace _ w _ (f_equal (fun r => trace (snd r)) E)).
      assert (Hce : applied (cancel_events w) = [] /\
                    sleeps (cancel_events w) = [] /\
                    failure_toasts (cancel_events w) = [])
        by (unfold cancel_events; destruct (statusInterval w); simpl; auto).
      destruct Hce as (Hc1 & Hc2 & Hc3).
      unfold attempts.
      rewrite !applied_app, !sleeps_app, !failure_toasts_app.
      rewrite Hc1, Hc2, Hc3, Hap, Hsl, Hft. simpl. auto.
  - subst update. destruct (throttled w) eqn:Hth.
    + pose proof (updateStatusWith_throttled (setStatus host) host cat w Hth) as E.
      fold (updateStatus host) in E.
      rewrite (new_events_touch _ w _ _ (f_equal snd E)). rewrite E.
      simpl. auto.
    + destruct fa as [|s0 fa0] eqn:Efa.
      * pose proof (updateStatusWith_empty (setStatus host) host cat w Hth Efa) as E.
        fold (updateStatus host) in E.
        rewrite (new_events_trace _ w _ (f_equal (fun r => trace (snd r)) E)).
        rewrite E. unfold attempts, cancel_events.
        rewrite !applied_app, !sleeps_app, !toasts_app.
        destruct (animation (store w)) as [|err| |steps];
          destruct (statusInterval w); simpl; auto.
      * assert (Hfa : fa <> []) by (subst fa; rewrite Efa; discriminate).
        destruct (updateStatus_ready host cat w Hth Hfa)
          as (c & evs & E & Hev & H1).
        destruct (retry_events_once _ _ _ _ Hev H1)
          as (Hap & Hsl & Hto & _ & _ & _).
        rewrite (new_events_trace _ w _ (f_equal (fun r => trace (snd r)) E)).
        rewrite E. simpl. unfold attempts. rewrite Hap. auto.
Qed.

(** C2 is not what the code does when the custom-status update is rejected
    with a value that has no string form.  The handler of [setStatus]
    renders what it caught into its log line, that rendering throws a
    TypeError, and [setStatus] rejects with it.  Its callers then do retry:
    [updateStatus] calls it three times, waits 1000ms and 1500ms, cancels
    the timer and shows its failure toast; [startAnimation] calls it three
    times, waits 500ms twice and ends with its failure toast and no
    timer. *)
Theorem setStatus_rejects_unprintable :
  let w := runningWorld defaultSettings 1700000000000 in
  let update := new_events (updateStatus opaqueHost None) w in
  let w0 := freshWorld defaultSettings 1700000000000 in
  let start := new_events (startAnimation opaqueHost None) w0 in
  fst (setStatus opaqueHost (index (steps_of (animation defaultSettings)) 0) w)
  = Abrupt (VError "TypeError" "Cannot convert object to primitive value") /\
  (attempts update = 3%nat /\ sleeps update = [1000; 1500] /\
   isRunning (snd (updateStatus opaqueHost None w)) = false /\
   toasts update = [(FAILURE, "Status animation stopped due to an error"%string)]) /\
  (attempts start = 3%nat /\ sleeps start = [500; 500] /\
   isRunning (snd (startAnimation opaqueHost None w0)) = false /\
   toasts start = [(FAILURE, "Failed to start status animation"%string)]).
Proof. vm_compute. repeat split. Qed.

(** C1 is not what the code does.  The scheduler is running, the throttle
    has passed, there are steps to rotate, and the custom-status update is
    rejected every time it is called: [updateStatus] calls [setStatus] once,
    the rejection ends in the log, the timer stays armed and no toast is
    shown. *)
Theorem updateStatus_rejected_stays_running :
  let w := runningWorld defaultSettings 1700000000000 in
  let w' := snd (updateStatus rejectingHost None w) in
  let evs := new_events (updateStatus rejectingHost None) w in
  isRunning w = true /\
  attempts evs = 1%nat /\
  map snd (custom_updates evs) = [false] /\
  sleeps evs = [] /\
  isRunning w' = true /\
  statusInterval w' = statusInterval w /\
  toasts evs = [].
Proof. vm_compute. repeat split. Qed.

(** What the retry loop of [updateStatus] is written to do shows when
    [this.setStatus] is a procedure that does throw: three calls, then the
    timer is cancelled and one failure toast is shown. *)
Lemma updateStatusWith_exhausts_with_throwing_apply :
  let w := runningWorld defaultSettings 1700000000000 in
  let failing := scriptedApply (fun _ => Some (VError "Error" "rate limited")) in
  let w' := snd (updateStatusWith obligingHost failing None w) in
  let evs := new_events (updateStatusWith obligingHost failing None) w in
  attempts evs = 3%nat /\
  isRunning w' = false /\
  toasts evs = [(FAILURE, "Status animation stopped due to an error"%string)].
Proof. vm_compute. repeat split. Qed.

(** ** Ticks *)

(** [updateStatus] resolves: nothing it does reaches the interval callback
    as a rejection. *)
Lemma updateStatus_cases (host : Host) (cat : option string) (w : World) :
  let fa := filterSteps cat (steps_of (animation (store w))) in
  exists w' evs,
    updateStatus host cat w = (Normal tt, w') /\
    trace w' = trace w ++ evs /\
    store w' = store w /\
    nextTimer w' = nextTimer w /\
    ((throttled w = true /\ applied evs = [] /\
      currentIndex w' = currentIndex w /\ statusInterval w' = statusInterval w /\
      timers w' = timers w /\ clock w' = clock w /\
      _lastUpdateTime w' = _lastUpdateTime w)
     \/
     (throttled w = false /\ fa = [] /\ applied evs = [] /\
      currentIndex w' = currentIndex w /\ statusInterval w' = None /\
      timers w' = timers_cleared w /\ clock w' = clock w /\
      _lastUpdateTime w' = Some (clock w))
     \/
     (throttled w = false /\ fa <> [] /\
      applied evs = [index fa (next_index host w fa)] /\
      currentIndex w' = next_index host w fa /\
      statusInterval w' = statusInterval w /\
      timers w' = timers w /\ clock w' = clock w /\
      _lastUpdateTime w' = Some (clock w))).
Proof.
  intros fa. destruct (throttled w) eqn:Hth.
  - pose proof (updateStatusWith_throttled (setStatus host) host cat w Hth) as E.
    fold (updateStatus host) in E. rewrite E.
    do 2 eexists. split; [reflexivity|]. simpl.
    split; [reflexivity|]. split; [reflexivity|]. split; [reflexivity|].
    left. repeat split; reflexivity.
  - destruct fa as [|s0 fa0] eqn:Efa.
    + pose proof (updateStatusWith_empty (setStatus host) host cat w Hth Efa) as E.
      fold (updateStatus host) in E. rewrite E.
      do 2 eexists. split; [reflexivity|]. simpl.
      split; [reflexivity|]. split; [reflexivity|]. split; [reflexivity|].
      right. left. unfold cancel_events.
      rewrite !applied_app.
      destruct (animation (store w)) as [|err| |steps];
        destruct (statusInterval w); simpl; repeat split; reflexivity.
    + assert (Hfa : fa <> []) by (subst fa; rewrite Efa; discriminate).
      destruct (updateStatus_ready host cat w Hth Hfa)
        as (c & evs & E & Hev & H1).
      destruct (retry_events_once _ _ _ _ Hev H1) as (Hap & _).
      rewrite E. do 2 eexists. split; [reflexivity|]. simpl.
      split; [reflexivity|]. split; [reflexivity|]. split; [reflexivity|].
      right. right. subst fa. rewrite Efa in *.
      repeat split; try reflexivity; try discriminate. exact Hap.
Qed.

(** A tick of the event loop is [updateStatus] with the argument the
    callback captured, run after the timer's period has passed. *)
Lemma tick_fires (host : Host) (w : World) (t : Timer) (rest : list Timer) :
  timers w = t :: rest ->
  tick host w
  = updateStatus host (cb_category (callback t))
      (mkWorld (currentIndex w) (statusInterval w) (_lastUpdateTime w)
         (store w) (clock w + delay t) (timers w) (nextTimer w) (calls w)
         (trace w ++ cb_log (callback t))).
Proof.
  destruct w as [ci si lu st ck tm nt cl tr]. simpl. intros ->.
  unfold tick, elapse, intervalCallback. js_unfold. fields.
  destruct (callback t) as [cat|]; unfold intervalCallbackWith;
    js_unfold; cbn -[raw updateStatusWith setStatus].
  - fold (updateStatus host).
    match goal with
    | |- context [updateStatus (raw host) cat ?W] =>
        destruct (updateStatus_cases host cat W) as (w' & evs & E & _)
    end.
    rewrite E. reflexivity.
  - fold (updateStatus host). rewrite app_nil_r.
    match goal with
    | |- context [updateStatus (raw host) None ?W] =>
        destruct (updateStatus_cases host None W) as (w' & evs & E & _)
    end.
    rewrite E. reflexivity.
Qed.

Lemma tick_idle (host : Host) (w : World) :
  timers w = [] -> tick host w = (Normal tt, w).
Proof.
  destruct w as [ci si lu st ck tm nt cl tr]. simpl. intros ->. reflexivity.
Qed.

(** ** Sequential rotation *)

Lemma nth_error_seq {A} (l : list A) :
  map (nth_error l) (seq 0 (List.length l)) = map Some l.
Proof.
  induction l as [|a l IH]; [reflexivity|].
  simpl. f_equal. rewrite <- seq_shift, map_map. exact IH.
Qed.

(** Indices 1, 2, ..., N taken modulo N read the list off rotated by one. *)
Lemma rotation_indices {A} (l : list A) :
  map (fun j => index l (Z.of_nat j mod Z.of_nat (List.length l)))
      (seq 1 (List.length l))
  = map Some (skipn 1 l ++ firstn 1 l).
Proof.
  destruct l as [|a l]; [reflexivity|].
  cbn [List.length skipn firstn].
  rewrite seq_S, !map_app. f_equal.
  - rewrite <- nth_error_seq, <- seq_shift, map_map.
    apply map_ext_in. intros j Hj. apply in_seq in Hj.
    unfold index.
    rewrite Z.mod_small by lia.
    destruct (Z.ltb_spec (Z.of_nat (S j)) 0); [lia|].
    rewrite Nat2Z.id. reflexivity.
  - cbn [map]. replace (1 + List.length l)%nat with (S (List.length l)) by lia.
    rewrite Z.mod_same by lia. reflexivity.
Qed.

Lemma tick_rotates (host : Host) (cat : option string) (st : Settings)
  (i : Z) (w : World) :
  let fa := filterSteps cat (steps_of (animation st)) in
  let n := Z.of_nat (List.length fa) in
  randomize st = false -> fa <> [] -> 0 <= i ->
  rotating cat st i w ->
  exists w' evs,
    tick host w = (Normal tt, w') /\
    trace w' = trace w ++ evs /\
    applied evs = [index fa ((i + 1) mod n)] /\
    rotating cat st ((i + 1) mod n) w'.
Proof.
  intros fa n Hrand Hfa Hi ((t & Hsi & Htm & Hcb & Hd) & Hst & Hci & Hlast).
  subst st.
  rewrite (tick_fires host w t [] Htm). rewrite Hcb. cbn [cb_category cb_log].
  match goal with
  | |- context [updateStatus (raw host) cat ?W] =>
      destruct (updateStatus_cases host cat W)
        as (w' & evs & E & Htr & Hst' & _ & Hcases)
  end.
  fields.
  assert (Hth : throttled
                  (mkWorld (currentIndex w) (statusInterval w) (_lastUpdateTime w)
                     (store w) (clock w + delay t) (timers w) (nextTimer w)
                     (calls w)
                     (trace w ++ [ELog LDebug "Interval triggered, updating status..."]))
                = false).
  { unfold throttled, last_or_0 in *. fields. apply Z.ltb_ge. lia. }
  fold fa in Hcases.
  destruct Hcases as [(Ht & _) | [(_ & He & _) | (_ & _ & Hap & Hci' & Hsi' & Htm' & Hck & Hlu)]];
    [congruence | contradiction |].
  assert (Hnext : next_index host
                    (mkWorld (currentIndex w) (statusInterval w) (_lastUpdateTime w)
                       (store w) (clock w + delay t) (timers w) (nextTimer w)
                       (calls w)
                       (trace w ++ [ELog LDebug "Interval triggered, updating status..."]))
                    fa
                  = (i + 1) mod n).
  { unfold next_index. fields. rewrite Hrand, Hci.
    apply Z.rem_mod_nonneg; [lia|].
    subst n. destruct fa; [contradiction|]. simpl. lia. }
  rewrite Hnext in *.
  exists w', ([ELog LDebug "Interval triggered, updating status..."] ++ evs).
  split; [exact E|]. split; [rewrite Htr, <- app_assoc; reflexivity|].
  split; [rewrite applied_app; exact Hap|].
  split; [|split; [congruence|split; [exact Hci'|]]].
  - exists t. rewrite Hsi', Htm'. auto.
  - unfold last_or_0. rewrite Hlu, Hck. lia.
Qed.

Lemma run_cons (host : Host) (a : Action) (rest : list Action) (w w' : World) :
  perform host a w = (Normal tt, w') ->
  run host (a :: rest) w = run host rest w'.
Proof. intros E. cbn [run]. unfold bind. rewrite E. reflexivity. Qed.

Lemma run_ticks_rotate (host : Host) (cat : option string) (st : Settings)
  (k : nat) :
  let fa := filterSteps cat (steps_of (animation st)) in
  let n := Z.of_nat (List.length fa) in
  randomize st = false -> fa <> [] ->
  forall (i : Z) (w : World),
  0 <= i < n -> rotating cat st i w ->
  exists w' evs,
    run host (repeat ATick k) w = (Normal tt, w') /\
    trace w' = trace w ++ evs /\
    applied evs
    = map (fun j => index fa ((i + Z.of_nat j) mod n)) (seq 1 k) /\
    rotating cat st ((i + Z.of_nat k) mod n) w'.
Proof.
  intros fa n Hrand Hfa.
  induction k as [|k IH]; intros i w Hi Hrot.
  - exists w, []. simpl. rewrite app_nil_r, Z.add_0_r, Z.mod_small by lia.
    auto.
  - destruct (tick_rotates host cat st i w Hrand Hfa ltac:(lia) Hrot)
      as (w1 & evs1 & E1 & Htr1 & Hap1 & Hrot1).
    fold fa n in Hap1, Hrot1.
    assert (Hi1 : 0 <= (i + 1) mod n < n) by (apply Z.mod_pos_bound; lia).
    destruct (IH ((i + 1) mod n) w1 Hi1 Hrot1)
      as (w2 & evs2 & E2 & Htr2 & Hap2 & Hrot2).
    exists w2, (evs1 ++ evs2).
    split; [cbn [repeat]; rewrite (run_cons host ATick _ w w1 E1); exact E2|].
    split; [rewrite Htr2, Htr1, app_assoc; reflexivity|].
    split.
    + rewrite applied_app, Hap1, Hap2.
      cbn [seq map app]. f_equal.
      rewrite <- (seq_shift k 1), map_map.
      apply map_ext. intros j.
      rewrite Zplus_mod_idemp_l. f_equal. f_equal. lia.
    + rewrite Zplus_mod_idemp_l in Hrot2.
      replace (i + Z.of_nat (S k)) with (i + 1 + Z.of_nat k) by lia.
      exact Hrot2.
Qed.

Lemma timers_cleared_consistent (w : World) :
  timers_consistent w -> timers_cleared w = [].
Proof.
  unfold timers_consistent, timers_cleared.
  destruct (statusInterval w) as [old|]; intros ->; [|reflexivity].
  simpl. rewrite Nat.eqb_refl. reflexivity.
Qed.

(** A successful [startAnimation] leaves a run in progress at index 0. *)
Lemma startAnimation_rotating (host : Host) (cat : option string) (w : World) :
  filterSteps cat (steps_of (animation (store w))) <> [] ->
  timers_consistent w -> last_or_0 w <= clock w ->
  rotating cat (store w) 0 (snd (startAnimation host cat w)).
Proof.
  intros Hfa Htc Hl.
  destruct (startAnimation_ready host cat w Hfa)
    as (c & evs & m1 & m2 & E & _ & _).
  rewrite E. unfold rotating, last_or_0 in *. simpl.
  rewrite (timers_cleared_consistent w Htc). simpl.
  split; [|auto].
  eexists. split; [reflexivity|]. split; [reflexivity|].
  split; [reflexivity|]. simpl. lia.
Qed.

(** C4.  In a run that is not randomized, over a filtered list [fa] of
    length [N]: the initial apply is of [fa[0]]; the [k]-th tick moves
    [currentIndex] to [k mod N] and applies the step there; so [N] ticks
    apply the list rotated by one position, [fa[1], ..., fa[N-1], fa[0]]. *)
Theorem sequential_rotation (host : Host) (cat : option string) (w : World) :
  let fa := filterSteps cat (steps_of (animation (store w))) in
  let N := List.length fa in
  let w1 := snd (startAnimation host cat w) in
  randomize (store w) = false ->
  fa <> [] ->
  timers_consistent w ->
  last_or_0 w <= clock w ->
  applied (new_events (startAnimation host cat) w) = [index fa 0] /\
  (forall k,
     applied (new_events (run host (repeat ATick k)) w1)
     = map (fun j => index fa (Z.of_nat j mod Z.of_nat N)) (seq 1 k) /\
     currentIndex (snd (run host (repeat ATick k) w1))
     = Z.of_nat k mod Z.of_nat N) /\
  applied (new_events (run host (repeat ATick N)) w1)
  = map Some (skipn 1 fa ++ firstn 1 fa).
Proof.
  intros fa N w1 Hrand Hfa Htc Hl.
  assert (HN : 0 < Z.of_nat N)
    by (subst N; destruct fa; [contradiction | simpl; lia]).
  pose proof (startAnimation_rotating host cat w Hfa Htc Hl) as Hrot.
  fold w1 in Hrot.
  assert (Hk : forall k,
             applied (new_events (run host (repeat ATick k)) w1)
             = map (fun j => index fa (Z.of_nat j mod Z.of_nat N)) (seq 1 k) /\
             currentIndex (snd (run host (repeat ATick k) w1))
             = Z.of_nat k mod Z.of_nat N).
  { intros k.
    destruct (run_ticks_rotate host cat (store w) k Hrand Hfa 0 w1
                ltac:(fold fa N; lia) Hrot)
      as (w2 & evs & E & Htr & Hap & Hrot2).
    rewrite (new_events_trace _ w1 evs) by (rewrite E; exact Htr).
    rewrite E. split; [exact Hap|].
    destruct Hrot2 as (_ & _ & Hci & _). exact Hci. }
  split; [|split; [exact Hk|]].
  - destruct (startAnimation_ready host cat w Hfa)
      as (c & evs & m1 & m2 & E & Hev & H1).
    destruct (retry_events_once _ _ _ _ Hev H1) as (Hap & _).
    rewrite (new_events_trace _ w _ (f_equal (fun r => trace (snd r)) E)).
    rewrite !applied_app, Hap.
    unfold cancel_events. destruct (statusInterval w); reflexivity.
  - rewrite (proj1 (Hk N)). apply rotation_indices.
Qed.

Lemma sequential_rotation_witness :
  let w := freshWorld threeSteps 1700000000000 in
  let w1 := snd (startAnimation obligingHost None w) in
  map (option_map text)
      (applied (new_events (run obligingHost (repeat ATick 3)) w1))
  = [Some "B"; Some "C"; Some "A"]%string.
Proof.
  intros w w1.
  destruct (sequential_rotation obligingHost None w eq_refl) as (_ & _ & H).
  - simpl. discriminate.
  - reflexivity.
  - unfold last_or_0. simpl. lia.
  - exact (f_equal (map (option_map text)) H).
Defined.

(** ** The category filter *)

Lemma filterSteps_category (C : string) (l : list StatusStep) (step : StatusStep) :
  C <> EmptyString -> In step (filterSteps (Some C) l) -> category step = Some C.
Proof.
  intros HC. unfold filterSteps, truthy.
  destruct (String.eqb_spec C EmptyString) as [|_]; [contradiction|].
  simpl. intros H. apply filter_In in H as [_ H].
  unfold strict_eq in H. destruct (category step) as [c|]; [|discriminate].
  apply String.eqb_eq in H. congruence.
Qed.

Lemma index_in_range {A} (l : list A) (i : Z) :
  0 <= i < Z.of_nat (List.length l) -> exists x, index l i = Some x /\ In x l.
Proof.
  intros Hi. unfold index.
  destruct (Z.ltb_spec i 0); [lia|].
  destruct (nth_error l (Z.to_nat i)) as [x|] eqn:E.
  - exists x. split; [reflexivity|]. eapply nth_error_In; eassumption.
  - apply nth_error_None in E. lia.
Qed.

Lemma next_index_in_range (host : Host) (w : World) (fa : list StatusStep) :
  random_in_range host -> 0 <= currentIndex w -> fa <> [] ->
  0 <= next_index host w fa < Z.of_nat (List.length fa).
Proof.
  intros Hr Hci Hfa.
  assert (Hn : 0 < Z.of_nat (List.length fa))
    by (destruct fa; [contradiction | simpl; lia]).
  unfold next_index. destruct (randomize (store w)).
  - apply Hr. exact Hn.
  - rewrite Z.rem_mod_nonneg by lia. apply Z.mod_pos_bound. exact Hn.
Qed.

Lemma perform_in_run (host : Host) (C : string) (a : Action) (w : World) :
  C <> EmptyString -> random_in_range host ->
  within_run a = true -> in_run C w ->
  exists w' evs,
    perform host a w = (Normal tt, w') /\
    trace w' = trace w ++ evs /\
    Forall (has_category C) (applied evs) /\
    in_run C w'.
Proof.
  intros HC Hr Ha (Htc & Hcb & Hci).
  destruct a as [|s|cat| |s]; try discriminate; cbn [perform].
  - (* a tick *)
    unfold timers_consistent in Htc.
    destruct (statusInterval w) as [t|] eqn:Esi.
    + rewrite (tick_fires host w t [] Htc). rewrite (Hcb t eq_refl).
      cbn [cb_category cb_log].
      match goal with
      | |- context [updateStatus (raw host) (Some C) ?W] =>
          set (W0 := W);
          destruct (updateStatus_cases host (Some C) W0)
            as (w' & evs & E & Htr & _ & _ & Hcases)
      end.
      assert (HtcW : timers_consistent W0)
        by (unfold timers_consistent; subst W0; simpl; rewrite Esi; exact Htc).
      exists w', ([ELog LDebug "Interval triggered, updating status..."] ++ evs).
      split; [exact E|].
      split; [rewrite Htr; subst W0; simpl; rewrite <- app_assoc; reflexivity|].
      rewrite applied_app. cbn [applied flat_map app].
      destruct Hcases
        as [(_ & Hap & Hci' & Hsi' & Htm' & _)
           | [(_ & _ & Hap & Hci' & Hsi' & Htm' & _)
             | (_ & Hfa & Hap & Hci' & Hsi' & Htm' & _)]].
      * rewrite Hap. split; [constructor|].
        unfold in_run, timers_consistent.
        rewrite Hsi', Htm', Hci'. subst W0. simpl. rewrite Esi. auto.
      * rewrite Hap. split; [constructor|].
        unfold in_run, timers_consistent.
        rewrite Hsi', Htm', Hci', (timers_cleared_consistent W0 HtcW).
        subst W0. simpl. repeat split; [discriminate | exact Hci].
      * pose proof (next_index_in_range host W0 _ Hr Hci Hfa) as Hrange.
        destruct (index_in_range _ _ Hrange) as (step & Hstep & Hin).
        rewrite Hap, Hstep. split.
        { constructor; [|constructor]. exists step. split; [reflexivity|].
          eapply filterSteps_category; [exact HC | exact Hin]. }
        unfold in_run, timers_consistent.
        rewrite Hsi', Htm', Hci'. subst W0. simpl. rewrite Esi.
        repeat split; [exact Htc | exact Hcb | apply Hrange].
    + rewrite (tick_idle host w Htc). exists w, [].
      rewrite app_nil_r. repeat split; try constructor.
      * unfold timers_consistent. rewrite Esi. exact Htc.
      * intros t Ht. rewrite Esi in Ht. discriminate.
      * exact Hci.
  - (* the store is edited *)
    exists (snd (edit s w)), []. unfold edit. simpl. rewrite app_nil_r.
    repeat split; try constructor; assumption.
  - (* stop *)
    destruct (statusInterval w) as [t|] eqn:Esi.
    + rewrite (stop_running w t Esi). do 2 eexists.
      split; [reflexivity|]. simpl. split; [reflexivity|].
      split; [constructor|].
      unfold in_run, timers_consistent in *. simpl. rewrite Htc, Esi. simpl.
      rewrite Nat.eqb_refl. simpl. repeat split; [discriminate | exact Hci].
    + rewrite (stop_stopped w Esi). exists w, []. rewrite app_nil_r.
      repeat split; try constructor; try assumption.
      intros t Ht. rewrite Esi in Ht. discriminate.
Qed.

Lemma run_in_run (host : Host) (C : string) (actions : list Action) :
  C <> EmptyString -> random_in_range host ->
  forallb within_run actions = true ->
  forall w, in_run C w ->
  exists w' evs,
    run host actions w = (Normal tt, w') /\
    trace w' = trace w ++ evs /\
    Forall (has_category C) (applied evs).
Proof.
  intros HC Hr. induction actions as [|a rest IH]; intros Hall w Hin.
  - exists w, []. rewrite app_nil_r. repeat split. constructor.
  - simpl in Hall. apply andb_true_iff in Hall as [Ha Hrest].
    destruct (perform_in_run host C a w HC Hr Ha Hin)
      as (w1 & evs1 & E1 & Htr1 & Hap1 & Hin1).
    destruct (IH Hrest w1 Hin1) as (w2 & evs2 & E2 & Htr2 & Hap2).
    exists w2, (evs1 ++ evs2).
    split; [rewrite (run_cons host a rest w w1 E1); exact E2|].
    split; [rewrite Htr2, Htr1, app_assoc; reflexivity|].
    rewrite applied_app. apply Forall_app. auto.
Qed.

(** C7, as the code has it.  In a run started with a non-empty category
    [C], every step applied by the initial apply and by the ticks of the
    timer that start armed has category [C], however the store is edited
    between ticks and whether or not the order is randomized. *)
Theorem category_filter (host : Host) (C : string) (actions : list Action)
  (w : World) :
  C <> EmptyString ->
  random_in_range host ->
  timers_consistent w ->
  filterSteps (Some C) (steps_of (animation (store w))) <> [] ->
  forallb within_run actions = true ->
  Forall (has_category C)
    (applied (new_events (run host (AStart (Some C) :: actions)) w)).
Proof.
  intros HC Hr Htc Hfa Hall.
  destruct (startAnimation_ready host (Some C) w Hfa)
    as (c & evs & m1 & m2 & E & Hev & H1).
  destruct (retry_events_once _ _ _ _ Hev H1) as (Hap & _).
  match type of E with
  | _ = (_, ?W) => set (w1 := W) in *
  end.
  assert (Hin : in_run C w1).
  { unfold in_run, timers_consistent. subst w1. simpl.
    rewrite (timers_cleared_consistent w Htc). simpl.
    repeat split; [|lia]. intros t Ht. injection Ht as <-. reflexivity. }
  destruct (run_in_run host C actions HC Hr Hall w1 Hin)
    as (w2 & evs2 & E2 & Htr2 & Hap2).
  assert (Erun : run host (AStart (Some C) :: actions) w = (Normal tt, w2))
    by (rewrite (run_cons host (AStart (Some C)) actions w w1 E); exact E2).
  rewrite (new_events_trace _ w
             ((cancel_events w ++ evs
               ++ [ELog LInfo m1;
                   ESetInterval (mkTimer (nextTimer w)
                                   (Z.max (timeout (store w) * 1000) 5000)
                                   (StartCallback (Some C)));
                   ELog LInfo m2;
                   EToast SUCCESS "Status animation started!"]) ++ evs2)).
  2:{ rewrite Erun. simpl. rewrite Htr2. subst w1. simpl.
      rewrite <- !app_assoc. reflexivity. }
  rewrite !applied_app. rewrite Hap.
  assert (Hce : applied (cancel_events w) = [])
    by (unfold cancel_events; destruct (statusInterval w); reflexivity).
  rewrite Hce. cbn [applied flat_map app].
  constructor; [|exact Hap2].
  assert (Hrange : 0 <= 0 < Z.of_nat (List.length
                     (filterSteps (Some C) (steps_of (animation (store w))))))
    by (destruct (filterSteps (Some C) (steps_of (animation (store w))));
        [contradiction | simpl; lia]).
  destruct (index_in_range _ _ Hrange) as (step & Hstep & Hinl).
  exists step. split; [exact Hstep|].
  eapply filterSteps_category; [exact HC | exact Hinl].
Qed.

Lemma category_filter_witness :
  Forall (has_category "work")
    (applied (new_events
                (run obligingHost
                   [AStart (Some "work"%string); ATick; ATick;
                    AEdit threeSteps; ATick; AEdit workAndFun; ATick])
                (freshWorld workAndFun 1700000000000))).
Proof.
  apply category_filter.
  - discriminate.
  - intros k n Hn. simpl. lia.
  - reflexivity.
  - simpl. discriminate.
  - reflexivity.
Defined.

(** C7, as the claim has it, fails for the empty category: an empty string
    is falsy, so [startAnimation] called with it does not filter, and the step it
    applies carries another category. *)
Lemma empty_category_is_not_filtered :
  let w := freshWorld workAndFun 1700000000000 in
  ~ Forall (has_category EmptyString)
      (applied (new_events (run obligingHost [AStart (Some EmptyString)]) w)).
Proof.
  intros w H.
  assert (E : applied (new_events (run obligingHost [AStart (Some EmptyString)]) w)
              = [Some (mkStep "standup" None None (Some "work"%string) None None)])
    by reflexivity.
  rewrite E in H. inversion H as [|so l (step & Hs & Hc) _].
  injection Hs as <-. discriminate Hc.
Qed.

(** The timer [updateInterval] arms calls [this.updateStatus()] with no
    argument: from then on the run started with "work" rotates through
    every step, here reaching the one tagged "fun". *)
Lemma updateInterval_drops_category :
  let w := freshWorld workAndFun 1700000000000 in
  map (option_map text)
      (applied (new_events
                  (run obligingHost
                     [AStart (Some "work"%string); AUpdateInterval 5; ATick; ATick])
                  w))
  = [Some "standup"; Some "review"; Some "lunch"]%string.
Proof. reflexivity. Qed.

(** ** The backoff schedule *)

Lemma scriptedApply_framed (script : nat -> option JsValue) :
  framed (scriptedApply script).
Proof.
  intros so w. destruct w as [ci si lu st ck tm nt cl tr].
  unfold scriptedApply. js_unfold. simpl.
  exists (S cl), []. rewrite app_nil_r.
  destruct (script cl); split; reflexivity.
Qed.

(** C3, as the code has it.  Whatever procedure [this.setStatus] is, as long
    as it leaves the scheduler alone: [startAnimation] and [updateStatus]
    call it at most 3 times; every call but the last is followed by one
    wait, and the waits are 500ms and 500ms in [startAnimation], 1000ms and
    then 1500ms in [updateStatus].  No wait follows the third call. *)
Theorem retry_backoff (apply : option StatusStep -> JS ApplyResult)
  (host : Host) (cat : option string) (w : World) :
  framed apply ->
  let start := new_events (startAnimationWith apply cat) w in
  let update := new_events (updateStatusWith host apply cat) w in
  ((attempts start <= 3)%nat /\
   sleeps start = firstn (attempts start - 1) [500; 500]) /\
  ((attempts update <= 3)%nat /\
   sleeps update = firstn (attempts update - 1) [1000; 1500]).
Proof.
  intros Hfr start update.
  assert (Hce : applied (cancel_events w) = [] /\ sleeps (cancel_events w) = [])
    by (unfold cancel_events; destruct (statusInterval w); simpl; auto).
  destruct Hce as (Hc1 & Hc2).
  assert (Hpl : applied (parse_log (animation (store w))) = [] /\
                sleeps (parse_log (animation (store w))) = [])
    by (destruct (animation (store w)); simpl; auto).
  destruct Hpl as (Hp1 & Hp2).
  split.
  - subst start.
    destruct (filterSteps cat (steps_of (animation (store w)))) as [|s0 fa0] eqn:Efa.
    + pose proof (startAnimationWith_empty apply cat w Efa) as E.
      rewrite (new_events_touch _ w _ _ (f_equal snd E)).
      unfold attempts, empty_toast. rewrite applied_app, sleeps_app, Hp1, Hp2.
      destruct (steps_of (animation (store w))); simpl; split; (lia || reflexivity).
    + assert (Hfa : filterSteps cat (steps_of (animation (store w))) <> [])
        by (rewrite Efa; discriminate).
      destruct (startAnimationWith_ready apply Hfr cat w Hfa)
        as (ck & c & evs & Hev & _ & [(m1 & m2 & E) | (_ & m & E)]);
        rewrite (new_events_trace _ w _ (f_equal (fun r => trace (snd r)) E));
        destruct Hev as (_ & _ & _ & _ & Hn & _ & Hs);
        unfold attempts in *;
        rewrite !applied_app, !sleeps_app, Hc1, Hc2; simpl;
        rewrite ?app_nil_r; split; [lia | exact Hs | lia | exact Hs].
  - subst update. destruct (throttled w) eqn:Hth.
    + pose proof (updateStatusWith_throttled apply host cat w Hth) as E.
      rewrite (new_events_touch _ w _ _ (f_equal snd E)).
      unfold attempts. simpl. split; [lia | reflexivity].
    + destruct (filterSteps cat (steps_of (animation (store w))))
        as [|s0 fa0] eqn:Efa.
      * pose proof (updateStatusWith_empty apply host cat w Hth Efa) as E.
        rewrite (new_events_trace _ w _ (f_equal (fun r => trace (snd r)) E)).
        unfold attempts.
        rewrite !applied_app, !sleeps_app, Hc1, Hc2, Hp1, Hp2.
        destruct (statusInterval w); simpl; split; (lia || reflexivity).
      * assert (Hfa : filterSteps cat (steps_of (animation (store w))) <> [])
          by (rewrite Efa; discriminate).
        destruct (updateStatusWith_ready apply Hfr host cat w Hth Hfa)
          as (ck & c & evs & Hev & _ & [E | (_ & m & E)]);
          rewrite (new_events_trace _ w _ (f_equal (fun r => trace (snd r)) E));
          destruct Hev as (_ & _ & _ & _ & Hn & _ & Hs);
          unfold attempts in *;
          rewrite ?applied_app, ?sleeps_app, ?Hc1, ?Hc2; simpl;
          rewrite ?app_nil_r; split; [lia | exact Hs | lia | exact Hs].
Qed.

Lemma retry_backoff_witness :
  let w := runningWorld defaultSettings 1700000000000 in
  sleeps (new_events (updateStatusWith obligingHost alwaysThrows None) w)
  = firstn 2 [1000; 1500].
Proof.
  intros w.
  assert (Hfr : framed alwaysThrows).
  { intros so [ci si lu st ck tm nt cl tr]. exists (S cl), [].
    unfold touch. simpl. rewrite app_nil_r. split; reflexivity. }
  exact (proj2 (proj2 (retry_backoff alwaysThrows obligingHost None w Hfr))).
Defined.

(** C3, as the claim has it, fails: when every call throws, the waits of
    [updateStatus] are 1000ms and then 1500ms, those of [startAnimation]
    are 500ms twice, and neither is 1500ms, 1000ms and 500ms. *)
Lemma backoff_is_not_decreasing :
  let w := runningWorld defaultSettings 1700000000000 in
  let update := new_events (updateStatusWith obligingHost alwaysThrows None) w in
  let start := new_events (startAnimationWith alwaysThrows None) w in
  attempts update = 3%nat /\ sleeps update = [1000; 1500] /\
  attempts start = 3%nat /\ sleeps start = [500; 500] /\
  sleeps update <> [1500; 1000; 500] /\ sleeps start <> [1500; 1000; 500] /\
  hd_error (sleeps update) <> Some 1500 /\ hd_error (sleeps start) <> Some 1500.
Proof. vm_compute. repeat split; discriminate. Qed.

(** ** Categories *)

Lemma seen_iff (x : string) (seen : list string) :
  existsb (String.eqb x) seen = true <-> In x seen.
Proof.
  rewrite existsb_exists. split.
  - intros (y & Hy & E). apply String.eqb_eq in E. subst y. exact Hy.
  - intros H. exists x. split; [exact H | apply String.eqb_refl].
Qed.

Lemma set_order_spec (l : list string) :
  forall seen,
    NoDup (set_order seen l) /\
    forall c, In c (set_order seen l) <-> In c l /\ ~ In c seen.
Proof.
  induction l as [|x rest IH]; intros seen; simpl.
  - split; [constructor | intros c; tauto].
  - destruct (existsb (String.eqb x) seen) eqn:E.
    + apply seen_iff in E. destruct (IH seen) as (Hnd & Hin).
      split; [exact Hnd|]. intros c. rewrite Hin. split.
      * intros (H1 & H2). auto.
      * intros ([-> | H1] & H2); [contradiction | auto].
    + assert (Hx : ~ In x seen)
        by (intros H; apply seen_iff in H; congruence).
      destruct (IH (x :: seen)) as (Hnd & Hin).
      split.
      * constructor; [|exact Hnd]. rewrite Hin. simpl. tauto.
      * intros c. simpl. rewrite Hin. simpl. split.
        -- intros [<- | (H1 & H2)]; [auto | tauto].
        -- intros ([<- | H1] & H2); [auto|].
           destruct (string_dec x c) as [->|Hne]; [auto | right; tauto].
Qed.

Lemma narrowed_categories (steps : list StatusStep) (c : string) :
  In c (narrowed (filter is_category (map category steps))) <->
  c <> EmptyString /\ exists step, In step steps /\ category step = Some c.
Proof.
  unfold narrowed. rewrite in_flat_map. split.
  - intros (o & Ho & Hc). apply filter_In in Ho as (Hm & Hk).
    apply in_map_iff in Hm as (step & Hs & Hin).
    destruct o as [s|]; [|destruct Hc]. destruct Hc as [->|[]].
    unfold is_category in Hk.
    destruct (String.eqb_spec c EmptyString); [discriminate|]. eauto.
  - intros (Hne & step & Hin & Hc). exists (Some c). split; [|left; reflexivity].
    apply filter_In. split.
    + rewrite <- Hc. apply in_map. exact Hin.
    + unfold is_category.
      destruct (String.eqb_spec c EmptyString); [contradiction | reflexivity].
Qed.

Lemma filterSteps_nonempty_iff (c : string) (steps : list StatusStep) :
  c <> EmptyString ->
  (filterSteps (Some c) steps <> [] <->
   exists step, In step steps /\ category step = Some c).
Proof.
  intros Hne. unfold filterSteps, truthy.
  destruct (String.eqb_spec c EmptyString); [contradiction|]. simpl. split.
  - intros H.
    destruct (filter (fun step => strict_eq (category step) (Some c)) steps)
      as [|step l] eqn:E; [contradiction|].
    assert (Hin : In step (step :: l)) by (left; reflexivity).
    rewrite <- E in Hin. apply filter_In in Hin as (Hin & Hc).
    exists step. split; [exact Hin|].
    unfold strict_eq in Hc. destruct (category step) as [c'|]; [|discriminate].
    apply String.eqb_eq in Hc. congruence.
  - intros (step & Hin & Hc) E.
    assert (H : In step (filter (fun step => strict_eq (category step) (Some c)) steps)).
    { apply filter_In. split; [exact Hin|]. rewrite Hc. simpl. apply String.eqb_refl. }
    rewrite E in H. destruct H.
Qed.

Lemma getUniqueCategories_members (steps : list StatusStep) :
  NoDup (getUniqueCategories steps) /\
  forall c, In c (getUniqueCategories steps) <->
            c <> EmptyString /\
            exists step, In step steps /\ category step = Some c.
Proof.
  unfold getUniqueCategories.
  destruct (set_order_spec (narrowed (filter is_category (map category steps))) [])
    as (Hnd & Hin).
  split; [exact Hnd|]. intros c. rewrite Hin, narrowed_categories. simpl. tauto.
Qed.

(** [getUniqueCategories] lists each category once: a string is in the
    result exactly when it is not empty and some step carries it, which for
    a non-empty string is exactly when filtering by it leaves something. *)
Theorem getUniqueCategories_spec (steps : list StatusStep) :
  NoDup (getUniqueCategories steps) /\
  (forall c, In c (getUniqueCategories steps) <->
             c <> EmptyString /\
             exists step, In step steps /\ category step = Some c) /\
  (forall c, In c (getUniqueCategories steps) <->
             c <> EmptyString /\ filterSteps (Some c) steps <> []).
Proof.
  destruct (getUniqueCategories_members steps) as (Hnd & Hin).
  split; [exact Hnd|]. split; [exact Hin|].
  intros c. rewrite Hin. split.
  - intros (Hne & Hex). split; [exact Hne|].
    apply filterSteps_nonempty_iff; assumption.
  - intros (Hne & Hfa). split; [exact Hne|].
    apply filterSteps_nonempty_iff; assumption.
Qed.

(** On a host whose rejections can be rendered, with nothing else running
    in between, a category item of the popout menu starts a run: the
    categories the menu lists are the non-empty ones whose filtered step set
    is not empty, and choosing one leaves the scheduler at index 0 with the
    timer its start armed in [statusInterval], alive, its callback carrying
    that category; one step of that category has been applied and the
    success toast shown. *)
Theorem popout_category_starts (host : Host) (c : string) (w : World) :
  In c (getUniqueCategories (steps_of (animation (store w)))) ->
  let w' := snd (popoutCategoryAction host c w) in
  let evs := new_events (popoutCategoryAction host c) w in
  filterSteps (Some c) (steps_of (animation (store w))) <> [] /\
  (exists t, statusInterval w' = Some t /\ In t (timers w') /\
             armed evs = [t] /\ callback t = StartCallback (Some c)) /\
  currentIndex w' = 0 /\
  (exists step, applied evs = [Some step] /\ category step = Some c) /\
  toasts evs = [(SUCCESS, "Status animation started!"%string)].
Proof.
  intros Hin w' evs.
  apply getUniqueCategories_members in Hin as (Hne & Hex).
  assert (Hfa : filterSteps (Some c) (steps_of (animation (store w))) <> [])
    by (apply filterSteps_nonempty_iff; assumption).
  split; [exact Hfa|].
  (* the world the timeout finds *)
  set (w2 := snd ((stop ;; elapse 100) w)).
  assert (H2 : exists evs1,
             (stop ;; elapse 100) w = (Normal tt, w2) /\
             trace w2 = trace w ++ evs1 /\ applied evs1 = [] /\ toasts evs1 = [] /\
             armed evs1 = [] /\
             store w2 = store w /\ statusInterval w2 = None).
  { subst w2. unfold bind.
    destruct (statusInterval w) as [t|] eqn:Esi.
    - rewrite (stop_running w t Esi). unfold elapse. simpl.
      eexists. split; [reflexivity|]. split; [reflexivity|]. repeat split.
    - rewrite (stop_stopped w Esi). unfold elapse. simpl.
      exists []. rewrite app_nil_r. rewrite Esi. repeat split. }
  destruct H2 as (evs1 & E12 & Htr2 & Hap1 & Hto1 & Har1 & Hst2 & Hsi2).
  assert (Hfa2 : filterSteps (Some c) (steps_of (animation (store w2))) <> [])
    by (rewrite Hst2; exact Hfa).
  destruct (startAnimation_ready host (Some c) w2 Hfa2)
    as (cl & evs2 & m1 & m2 & E & Hev & H1).
  destruct (retry_events_once _ _ _ _ Hev H1) as (Hap & _ & Hto & _ & Har & _).
  assert (Eall : popoutCategoryAction host c w = startAnimation host (Some c) w2).
  { unfold popoutCategoryAction.
    change ((stop ;; elapse 100 ;; startAnimation host (Some c)) w)
      with (match stop w with
            | (Normal a, w1) => (elapse 100 ;; startAnimation host (Some c)) w1
            | (Abrupt e, w1) => (Abrupt e, w1)
            end).
    unfold bind in E12.
    destruct (stop w) as [[[]|e] w1]; [|discriminate].
    unfold bind. unfold elapse in *. simpl in *.
    injection E12 as <-. reflexivity. }
  subst w' evs.
  unfold new_events. rewrite Eall, E. cbn [snd trace].
  unfold timers_cleared, cancel_events. rewrite Hsi2, Htr2.
  rewrite <- !app_assoc, skipn_app, skipn_all, Nat.sub_diag. cbn [skipn app].
  rewrite !applied_app, !toasts_app, !armed_app, Hap1, Hto1, Har1, Hap, Hto, Har.
  simpl.
  split.
  { eexists. split; [reflexivity|]. split; [|split; reflexivity].
    apply in_or_app. right. left. reflexivity. }
  split; [reflexivity|]. split; [|reflexivity].
  assert (Hrange : 0 <= 0 < Z.of_nat (List.length
                     (filterSteps (Some c) (steps_of (animation (store w2))))))
    by (destruct (filterSteps (Some c) (steps_of (animation (store w2))));
        [contradiction | simpl; lia]).
  destruct (index_in_range _ _ Hrange) as (step & Hstep & Hinl).
  exists step. rewrite Hstep. split; [reflexivity|].
  eapply filterSteps_category; [exact Hne | exact Hinl].
Qed.

Lemma popout_category_starts_witness :
  let w := runningWorld workAndFun 1700000000000 in
  currentIndex (snd (popoutCategoryAction obligingHost "fun" w)) = 0 /\
  toasts (new_events (popoutCategoryAction obligingHost "fun") w)
  = [(SUCCESS, "Status animation started!"%string)].
Proof.
  intros w.
  destruct (popout_category_starts obligingHost "fun" w)
    as (_ & _ & Hci & _ & Hto).
  - simpl. right. left. reflexivity.
  - split; [exact Hci | exact Hto].
Defined.

(** ** What every history keeps *)

Lemma perform_keeps (host : Host) (a : Action) (w : World) :
  timers_consistent w ->
  exists w' evs,
    perform host a w = (Normal tt, w') /\
    trace w' = trace w ++ evs /\
    timers_consistent w' /\
    (random_in_range host -> 0 <= currentIndex w ->
     0 <= currentIndex w' /\ Forall defined_step (applied evs)).
Proof.
  intros Htc. destruct a as [|s|cat| |s]; cbn [perform].
  - (* a tick *)
    unfold timers_consistent in Htc.
    destruct (statusInterval w) as [t|] eqn:Esi.
    + rewrite (tick_fires host w t [] Htc).
      match goal with
      | |- context [updateStatus (raw host) ?c ?W] =>
          set (W0 := W);
          destruct (updateStatus_cases host c W0)
            as (w' & evs & E & Htr & _ & _ & Hcases)
      end.
      assert (HtcW : timers_consistent W0)
        by (unfold timers_consistent; subst W0; simpl; rewrite Esi; exact Htc).
      exists w', (cb_log (callback t) ++ evs).
      split; [exact E|].
      split; [rewrite Htr; subst W0; simpl; rewrite <- app_assoc; reflexivity|].
      assert (Hlog : applied (cb_log (callback t)) = [])
        by (destruct (callback t); reflexivity).
      rewrite applied_app, Hlog. cbn [app].
      destruct Hcases
        as [(_ & Hap & Hci' & Hsi' & Htm' & _)
           | [(_ & _ & Hap & Hci' & Hsi' & Htm' & _)
             | (_ & Hfa & Hap & Hci' & Hsi' & Htm' & _)]].
      * split.
        { unfold timers_consistent. rewrite Hsi', Htm'. exact HtcW. }
        intros _ Hci. rewrite Hap, Hci'. split; [exact Hci | constructor].
      * split.
        { unfold timers_consistent.
          rewrite Hsi', Htm', (timers_cleared_consistent W0 HtcW). reflexivity. }
        intros _ Hci. rewrite Hap, Hci'. split; [exact Hci | constructor].
      * split.
        { unfold timers_consistent. rewrite Hsi', Htm'. exact HtcW. }
        intros Hr Hci.
        pose proof (next_index_in_range host W0 _ Hr Hci Hfa) as Hrange.
        destruct (index_in_range _ _ Hrange) as (step & Hstep & _).
        rewrite Hap, Hstep, Hci'. split; [apply Hrange|].
        constructor; [discriminate | constructor].
    + rewrite (tick_idle host w Htc). exists w, []. rewrite app_nil_r.
      split; [reflexivity|]. split; [reflexivity|].
      split; [unfold timers_consistent; rewrite Esi; exact Htc|].
      intros _ Hci. split; [exact Hci | constructor].
  - (* the store is edited *)
    exists (snd (edit s w)), []. unfold edit. simpl. rewrite app_nil_r.
    split; [reflexivity|]. split; [reflexivity|]. split; [exact Htc|].
    intros _ Hci. split; [exact Hci | constructor].
  - (* start *)
    destruct (filterSteps cat (steps_of (animation (store w))))
      as [|s0 fa0] eqn:Efa.
    + pose proof (startAnimationWith_empty (setStatus host) cat w Efa) as E.
      fold (startAnimation host) in E. rewrite E.
      do 2 eexists. split; [reflexivity|]. split; [reflexivity|].
      split; [exact Htc|].
      intros _ Hci. split; [exact Hci|].
      rewrite applied_app.
      destruct (animation (store w)) as [|err| |[|s steps]]; simpl; constructor.
    + assert (Hfa : filterSteps cat (steps_of (animation (store w))) <> [])
        by (rewrite Efa; discriminate).
      destruct (startAnimation_ready host cat w Hfa)
        as (c & evs & m1 & m2 & E & Hev & H1).
      destruct (retry_events_once _ _ _ _ Hev H1) as (Hap & _).
      rewrite E. do 2 eexists. split; [reflexivity|]. split; [reflexivity|].
      split.
      { unfold timers_consistent. simpl.
        rewrite (timers_cleared_consistent w Htc). reflexivity. }
      intros _ _. simpl. split; [lia|].
      rewrite !applied_app, Hap.
      assert (Hce : applied (cancel_events w) = [])
        by (unfold cancel_events; destruct (statusInterval w); reflexivity).
      rewrite Hce, Efa. simpl. constructor; [discriminate | constructor].
  - (* stop *)
    destruct (statusInterval w) as [t|] eqn:Esi.
    + rewrite (stop_running w t Esi). do 2 eexists.
      split; [reflexivity|]. split; [reflexivity|].
      split.
      { unfold timers_consistent in *. simpl. rewrite Htc, Esi. simpl.
        rewrite Nat.eqb_refl. reflexivity. }
      intros _ Hci. split; [exact Hci | constructor].
    + rewrite (stop_stopped w Esi). exists w, []. rewrite app_nil_r.
      split; [reflexivity|]. split; [reflexivity|]. split; [exact Htc|].
      intros _ Hci. split; [exact Hci | constructor].
  - (* the interval is reconfigured *)
    destruct (statusInterval w) as [t|] eqn:Esi.
    + destruct (updateInterval_running s w t Esi) as (m & E).
      rewrite E. do 2 eexists. split; [reflexivity|]. split; [reflexivity|].
      split.
      { unfold timers_consistent. simpl.
        rewrite (timers_cleared_consistent w Htc). reflexivity. }
      intros _ Hci. split; [exact Hci | constructor].
    + rewrite (updateInterval_stopped s w Esi). exists w, []. rewrite app_nil_r.
      split; [reflexivity|]. split; [reflexivity|]. split; [exact Htc|].
      intros _ Hci. split; [exact Hci | constructor].
Qed.

Lemma run_keeps (host : Host) (actions : list Action) :
  forall w, timers_consistent w ->
  exists w' evs,
    run host actions w = (Normal tt, w') /\
    trace w' = trace w ++ evs /\
    timers_consistent w' /\
    (random_in_range host -> 0 <= currentIndex w ->
     0 <= currentIndex w' /\ Forall defined_step (applied evs)).
Proof.
  induction actions as [|a rest IH]; intros w Htc.
  - exists w, []. rewrite app_nil_r.
    split; [reflexivity|]. split; [reflexivity|]. split; [exact Htc|].
    intros _ Hci. split; [exact Hci | constructor].
  - destruct (perform_keeps host a w Htc) as (w1 & evs1 & E1 & Htr1 & Htc1 & H1).
    destruct (IH w1 Htc1) as (w2 & evs2 & E2 & Htr2 & Htc2 & H2).
    exists w2, (evs1 ++ evs2).
    split; [rewrite (run_cons host a rest w w1 E1); exact E2|].
    split; [rewrite Htr2, Htr1, app_assoc; reflexivity|].
    split; [exact Htc2|].
    intros Hr Hci. destruct (H1 Hr Hci) as (Hci1 & Hf1).
    destruct (H2 Hr Hci1) as (Hci2 & Hf2).
    split; [exact Hci2|]. rewrite applied_app. apply Forall_app. auto.
Qed.

(** As long as no two calls overlap and rejections can be rendered,
    whatever is done to the scheduler (ticks, edits of the store, starts
    with any category, stops, interval changes, each settled before the next
    begins, in any order), no timer is leaked: the event loop holds the
    timer in [statusInterval] and no other, so at most one, and one exactly
    when [isRunning()] is true.  The history as a whole completes
    normally. *)
Theorem single_timer (host : Host) (actions : list Action) (w : World) :
  timers_consistent w ->
  let w' := snd (run host actions w) in
  fst (run host actions w) = Normal tt /\
  timers_consistent w' /\
  (List.length (timers w') <= 1)%nat /\
  isRunning w' = negb (Nat.eqb (List.length (timers w')) 0).
Proof.
  intros Htc w'. subst w'.
  destruct (run_keeps host actions w Htc) as (w' & evs & E & _ & Htc' & _).
  rewrite E. simpl. split; [reflexivity|]. split; [exact Htc'|].
  unfold timers_consistent in Htc'. unfold isRunning. rewrite Htc'.
  destruct (statusInterval w'); simpl; auto.
Qed.

Lemma single_timer_witness :
  let w := freshWorld workAndFun 1700000000000 in
  (List.length
     (timers (snd (run obligingHost
                     [AStart None; ATick; AStart (Some "work"%string);
                      AUpdateInterval 7; AUpdateInterval 2; ATick;
                      AStart (Some "fun"%string)] w))) <= 1)%nat.
Proof.
  intros w.
  exact (proj1 (proj2 (proj2 (single_timer obligingHost _ w eq_refl)))).
Defined.



(** ** The throttle *)

Lemma updateStatus_attempts (host : Host) (cat : option string) (w : World) :
  exists w' evs,
    updateStatus host cat w = (Normal tt, w') /\
    trace w' = trace w ++ evs /\
    (attempts evs <= 1)%nat /\
    (throttled w = true -> attempts evs = 0%nat /\ clock w' = clock w /\
                           _lastUpdateTime w' = _lastUpdateTime w) /\
    (throttled w = false -> clock w' = clock w /\
                            _lastUpdateTime w' = Some (clock w)).
Proof.
  destruct (updateStatus_cases host cat w) as (w' & evs & E & Htr & _ & _ & Hc).
  exists w', evs. split; [exact E|]. split; [exact Htr|].
  unfold attempts.
  destruct Hc as [(Hth & Hap & _ & _ & _ & Hck & Hlu)
                 | [(Hth & _ & Hap & _ & _ & _ & Hck & Hlu)
                   | (Hth & _ & Hap & _ & _ & _ & Hck & Hlu)]];
    rewrite Hap, Hth; simpl; repeat split; auto; discriminate.
Qed.

(** Two calls of [updateStatus] less than two seconds apart apply at most
    one step between them, whatever categories they are called with: if the
    first got past the throttle, the second does not. *)
Theorem throttle_absorbs (host : Host) (c1 c2 : option string) (ms : Z)
  (w : World) :
  ms < 2000 ->
  (attempts (new_events (updateStatus host c1 ;; elapse ms ;; updateStatus host c2) w)
   <= 1)%nat.
Proof.
  intros Hms.
  destruct (updateStatus_attempts host c1 w) as (w1 & evs1 & E1 & Htr1 & Hn1 & Ht1 & Hf1).
  set (w1' := snd (elapse ms w1)).
  destruct (updateStatus_attempts host c2 w1') as (w2 & evs2 & E2 & Htr2 & Hn2 & Ht2 & _).
  assert (E : (updateStatus host c1 ;; elapse ms ;; updateStatus host c2) w
              = (Normal tt, w2)).
  { unfold bind at 1. rewrite E1. unfold bind. unfold elapse at 1.
    exact E2. }
  rewrite (new_events_trace _ w (evs1 ++ evs2)).
  2:{ rewrite E. simpl. rewrite Htr2. subst w1'. unfold elapse. simpl.
      rewrite Htr1, app_assoc. reflexivity. }
  rewrite attempts_app.
  destruct (throttled w) eqn:Hth.
  - destruct (Ht1 eq_refl) as (-> & _). simpl. exact Hn2.
  - destruct (Hf1 eq_refl) as (Hck & Hlu).
    assert (Hth2 : throttled w1' = true).
    { unfold throttled. subst w1'. unfold elapse. simpl.
      rewrite Hlu, Hck. apply Z.ltb_lt. lia. }
    destruct (Ht2 Hth2) as (-> & _). lia.
Qed.

Lemma throttle_absorbs_witness :
  let w := runningWorld threeSteps 1700000000000 in
  (attempts (new_events (updateStatus obligingHost None ;; elapse 1999 ;;
                         updateStatus obligingHost None) w) <= 1)%nat.
Proof.
  intros w. apply throttle_absorbs. lia.
Defined.

(** ** Stopping, and running out of steps *)

Lemma run_idle_ticks (host : Host) (k : nat) (w : World) :
  timers w = [] -> run host (repeat ATick k) w = (Normal tt, w).
Proof.
  intros Htm. induction k as [|k IH]; [reflexivity|].
  cbn [repeat]. rewrite (run_cons host ATick _ w w); [exact IH|].
  apply tick_idle. exact Htm.
Qed.

(** When the event loop holds no interval but the one in [statusInterval]
    and no call is waiting to be resumed, nothing rotates after [stop]:
    however many ticks the event loop would have delivered, the world stays
    as [stop] left it. *)
Theorem stop_halts (host : Host) (k : nat) (w : World) :
  timers_consistent w ->
  run host (AStop :: repeat ATick k) w = stop w.
Proof.
  intros Htc. unfold timers_consistent in Htc.
  destruct (statusInterval w) as [t|] eqn:Esi.
  - pose proof (stop_running w t Esi) as E.
    rewrite (run_cons host AStop _ w _ E). rewrite E.
    apply run_idle_ticks. simpl. rewrite Htc. simpl.
    rewrite Nat.eqb_refl. reflexivity.
  - pose proof (stop_stopped w Esi) as E.
    rewrite (run_cons host AStop _ w _ E). rewrite E.
    apply run_idle_ticks. exact Htc.
Qed.

Lemma stop_halts_witness :
  let w := runningWorld threeSteps 1700000000000 in
  run obligingHost (AStop :: repeat ATick 4) w = stop w.
Proof.
  intros w. apply stop_halts. reflexivity.
Defined.

Lemma ticking_consistent (cb : Callback) (st : Settings) (i : Z) (w : World) :
  ticking cb st i w -> timers_consistent w.
Proof.
  intros ((t & Hsi & Htm & _) & _). unfold timers_consistent.
  rewrite Hsi. exact Htm.
Qed.

Lemma ticking_not_throttled (cb : Callback) (st : Settings) (i : Z)
  (w : World) (t : Timer) (log : list Event) :
  ticking cb st i w -> statusInterval w = Some t ->
  throttled (mkWorld (currentIndex w) (statusInterval w) (_lastUpdateTime w)
               (store w) (clock w + delay t) (timers w) (nextTimer w)
               (calls w) (trace w ++ log)) = false.
Proof.
  intros ((t' & Hsi & _ & _ & Hd) & _ & _ & Hl) Ht.
  rewrite Hsi in Ht. injection Ht as <-.
  unfold throttled, last_or_0 in *. simpl. apply Z.ltb_ge. lia.
Qed.

(** Steps deleted in the middle of a run: once an edit of the store leaves
    the timer's category with no step, the next tick cancels the timer and
    the scheduler is stopped for good, without a toast and without an
    apply; [currentIndex] stays where it was. *)
Theorem steps_deleted_mid_run (host : Host) (cb : Callback) (st s' : Settings)
  (i : Z) (k : nat) (w : World) :
  ticking cb st i w ->
  filterSteps (cb_category cb) (steps_of (animation s')) = [] ->
  let w' := snd (run host (AEdit s' :: repeat ATick (S k)) w) in
  let evs := new_events (run host (AEdit s' :: repeat ATick (S k))) w in
  isRunning w' = false /\ timers w' = [] /\
  currentIndex w' = i /\ store w' = s' /\
  applied evs = [] /\ toasts evs = [] /\
  cancelled evs = match statusInterval w with Some t => [t] | None => [] end.
Proof.
  intros Htk Hfa w' evs.
  set (w1 := snd (edit s' w)).
  assert (Htk1 : ticking cb s' i w1).
  { destruct Htk as (Ht & _ & Hci & Hl). subst w1. unfold ticking, edit. simpl.
    auto. }
  assert (E1 : perform host (AEdit s') w = (Normal tt, w1)) by reflexivity.
  assert (Htr1 : trace w1 = trace w) by reflexivity.
  assert (Hsi1 : statusInterval w1 = statusInterval w) by reflexivity.
  clearbody w1.
  destruct Htk1 as ((t & Hsi & Htm & Hcb & Hd) & Hst & Hci & Hl).
  pose proof (ticking_not_throttled cb s' i w1 t (cb_log (callback t))
                (conj (ex_intro _ t (conj Hsi (conj Htm (conj Hcb Hd))))
                      (conj Hst (conj Hci Hl))) Hsi) as Hth.
  pose proof (tick_fires host w1 t [] Htm) as E2.
  match type of E2 with
  | _ = updateStatus (raw host) ?c ?W => set (W0 := W) in *
  end.
  assert (Hfa0 : filterSteps (cb_category (callback t))
                   (steps_of (animation (store W0))) = [])
    by (subst W0; simpl; rewrite Hst, Hcb; exact Hfa).
  pose proof (updateStatusWith_empty (setStatus host) host _ W0 Hth Hfa0) as E3.
  fold (updateStatus host) in E3. rewrite E3 in E2. clear E3.
  match type of E2 with
  | _ = (_, ?W) => set (w2 := W) in *
  end.
  assert (Htm2 : timers w2 = []).
  { subst w2 W0. unfold timers_cleared. simpl. rewrite Hsi, Htm. simpl.
    rewrite Nat.eqb_refl. reflexivity. }
  assert (E : run host (AEdit s' :: repeat ATick (S k)) w = (Normal tt, w2)).
  { rewrite (run_cons host _ _ w w1 E1). cbn [repeat].
    rewrite (run_cons host ATick _ w1 w2 E2).
    apply run_idle_ticks. exact Htm2. }
  subst w' evs. unfold new_events. rewrite E. cbn [snd].
  rewrite <- Hsi1, Hsi.
  subst w2 W0. unfold isRunning, cancel_events, timers_cleared.
  simpl. rewrite Hsi, Htm, Hst, Htr1. simpl. rewrite Nat.eqb_refl. simpl.
  rewrite <- !app_assoc, skipn_app, skipn_all, Nat.sub_diag. cbn [skipn app].
  rewrite !applied_app, !toasts_app, !cancelled_app.
  destruct (callback t); destruct (animation s'); simpl; repeat split; auto.
Qed.

Lemma steps_deleted_mid_run_witness :
  let w := runningWorld threeSteps 1700000000000 in
  isRunning (snd (run obligingHost (AEdit noSteps :: repeat ATick 3) w)) = false.
Proof.
  intros w.
  refine (proj1 (steps_deleted_mid_run obligingHost (StartCallback None)
                   threeSteps noSteps 2 2 w _ eq_refl)).
  unfold ticking, last_or_0. simpl.
  split; [eexists|]; repeat split; first [reflexivity | simpl; lia].
Defined.

(** ** Reconfiguring the interval in the middle of a run *)

Lemma tick_ticks (host : Host) (cb : Callback) (st : Settings)
  (i : Z) (w : World) :
  let fa := filterSteps (cb_category cb) (steps_of (animation st)) in
  let n := Z.of_nat (List.length fa) in
  randomize st = false -> fa <> [] -> 0 <= i ->
  ticking cb st i w ->
  exists w' evs,
    tick host w = (Normal tt, w') /\
    trace w' = trace w ++ evs /\
    applied evs = [index fa ((i + 1) mod n)] /\
    ticking cb st ((i + 1) mod n) w'.
Proof.
  intros fa n Hrand Hfa Hi Htk.
  pose proof Htk as ((t & Hsi & Htm & Hcb & Hd) & Hst & Hci & Hlast).
  pose proof (ticking_not_throttled cb st i w t (cb_log (callback t)) Htk Hsi)
    as Hth.
  subst st.
  rewrite (tick_fires host w t [] Htm). rewrite Hcb in *.
  match goal with
  | |- context [updateStatus (raw host) ?c ?W] =>
      set (W0 := W) in *;
      destruct (updateStatus_cases host c W0)
        as (w' & evs & E & Htr & Hst' & _ & Hcases)
  end.
  assert (HstW : store W0 = store w) by reflexivity.
  assert (HciW : currentIndex W0 = i) by exact Hci.
  assert (HsiW : statusInterval W0 = statusInterval w) by reflexivity.
  assert (HtmW : timers W0 = timers w) by reflexivity.
  assert (HckW : clock W0 = clock w + delay t) by reflexivity.
  assert (HtrW : trace W0 = trace w ++ cb_log cb) by reflexivity.
  clearbody W0.
  rewrite HstW in Hcases. fold fa in Hcases.
  destruct Hcases
    as [(Ht & _) | [(_ & He & _)
                   | (_ & _ & Hap & Hci' & Hsi' & Htm' & Hck & Hlu)]];
    [congruence | contradiction |].
  assert (Hnext : next_index host W0 fa = (i + 1) mod n).
  { unfold next_index. rewrite HstW, Hrand, HciW.
    apply Z.rem_mod_nonneg; [lia|].
    subst n. destruct fa; [contradiction|]. simpl. lia. }
  rewrite Hnext in *.
  exists w', (cb_log cb ++ evs).
  split; [exact E|]. split; [rewrite Htr, HtrW, <- app_assoc; reflexivity|].
  assert (Hlog : applied (cb_log cb) = []) by (destruct cb; reflexivity).
  split; [rewrite applied_app, Hlog; exact Hap|].
  split; [|split; [congruence|split; [exact Hci'|]]].
  - exists t. rewrite Hsi', Htm', HsiW, HtmW. auto.
  - unfold last_or_0. rewrite Hlu, Hck. lia.
Qed.

Lemma run_ticks_ticking (host : Host) (cb : Callback) (st : Settings)
  (k : nat) :
  let fa := filterSteps (cb_category cb) (steps_of (animation st)) in
  let n := Z.of_nat (List.length fa) in
  randomize st = false -> fa <> [] ->
  forall (i : Z) (w : World),
  0 <= i < n -> ticking cb st i w ->
  exists w' evs,
    run host (repeat ATick k) w = (Normal tt, w') /\
    trace w' = trace w ++ evs /\
    applied evs
    = map (fun j => index fa ((i + Z.of_nat j) mod n)) (seq 1 k) /\
    ticking cb st ((i + Z.of_nat k) mod n) w'.
Proof.
  intros fa n Hrand Hfa.
  induction k as [|k IH]; intros i w Hi Htk.
  - exists w, []. simpl. rewrite app_nil_r, Z.add_0_r, Z.mod_small by lia.
    auto.
  - destruct (tick_ticks host cb st i w Hrand Hfa ltac:(lia) Htk)
      as (w1 & evs1 & E1 & Htr1 & Hap1 & Htk1).
    fold fa n in Hap1, Htk1.
    assert (Hi1 : 0 <= (i + 1) mod n < n) by (apply Z.mod_pos_bound; lia).
    destruct (IH ((i + 1) mod n) w1 Hi1 Htk1)
      as (w2 & evs2 & E2 & Htr2 & Hap2 & Htk2).
    exists w2, (evs1 ++ evs2).
    split; [cbn [repeat]; rewrite (run_cons host ATick _ w w1 E1); exact E2|].
    split; [rewrite Htr2, Htr1, app_assoc; reflexivity|].
    split.
    + rewrite applied_app, Hap1, Hap2.
      cbn [seq map app]. f_equal.
      rewrite <- (seq_shift k 1), map_map.
      apply map_ext. intros j.
      rewrite Zplus_mod_idemp_l. f_equal. f_equal. lia.
    + rewrite Zplus_mod_idemp_l in Htk2.
      replace (i + Z.of_nat (S k)) with (i + 1 + Z.of_nat k) by lia.
      exact Htk2.
Qed.

Lemma updateInterval_ticking (cb : Callback) (st : Settings) (i : Z) (s : Z)
  (w : World) :
  ticking cb st i w ->
  exists w' evs,
    updateInterval s w = (Normal tt, w') /\
    trace w' = trace w ++ evs /\
    applied evs = [] /\ toasts evs = [] /\
    _lastUpdateTime w' = _lastUpdateTime w /\
    ticking ReconfigureCallback st i w'.
Proof.
  intros Htk. pose proof (ticking_consistent _ _ _ _ Htk) as Htc.
  destruct Htk as ((t & Hsi & Htm & Hcb & Hd) & Hst & Hci & Hl).
  destruct (updateInterval_running s w t Hsi) as (m & E).
  rewrite E. do 2 eexists. split; [reflexivity|]. simpl.
  split; [reflexivity|]. split; [reflexivity|]. split; [reflexivity|].
  split; [reflexivity|].
  unfold ticking, last_or_0 in *. simpl.
  rewrite (timers_cleared_consistent w Htc). simpl.
  split; [|auto].
  eexists. split; [reflexivity|]. split; [reflexivity|].
  split; [reflexivity|]. simpl. lia.
Qed.

Lemma updateInterval_then_ticks (host : Host) (cb : Callback)
  (st : Settings) (i s : Z) (m : nat) (w : World) :
  let all := steps_of (animation st) in
  let N := Z.of_nat (List.length all) in
  randomize st = false ->
  0 <= i < N ->
  ticking cb st i w ->
  applied (new_events (run host (AUpdateInterval s :: repeat ATick m)) w)
  = map (fun j => index all ((i + Z.of_nat j) mod N)) (seq 1 m) /\
  currentIndex (snd (run host (AUpdateInterval s :: repeat ATick m) w))
  = (i + Z.of_nat m) mod N.
Proof.
  intros all N Hrand Hi Htk.
  destruct (updateInterval_ticking cb st i s w Htk)
    as (w1 & evs1 & E1 & Htr1 & Hap1 & _ & _ & Htk1).
  assert (Hall : filterSteps (cb_category ReconfigureCallback)
                   (steps_of (animation st)) = all) by reflexivity.
  assert (Hne : filterSteps (cb_category ReconfigureCallback)
                  (steps_of (animation st)) <> []).
  { rewrite Hall. subst N. destruct all; [simpl in Hi; lia | discriminate]. }
  destruct (run_ticks_ticking host ReconfigureCallback st m Hrand Hne i w1
              ltac:(rewrite Hall; exact Hi) Htk1)
    as (w2 & evs2 & E2 & Htr2 & Hap2 & Htk2).
  rewrite Hall in Hap2, Htk2. fold N in Hap2, Htk2.
  assert (E : run host (AUpdateInterval s :: repeat ATick m) w = (Normal tt, w2))
    by (rewrite (run_cons host (AUpdateInterval s) _ w w1 E1); exact E2).
  rewrite (new_events_trace _ w (evs1 ++ evs2))
    by (rewrite E; simpl; rewrite Htr2, Htr1, app_assoc; reflexivity).
  rewrite E, applied_app, Hap1. simpl.
  split; [exact Hap2|].
  destruct Htk2 as (_ & _ & Hci & _). exact Hci.
Qed.

(** [updateInterval] does not reset progress and does not re-apply: no
    step is applied by the call itself, and in a run that is not randomized
    the ticks of the new timer go on from the current index, [i + 1],
    [i + 2], ... modulo the length.  The list they go through is the whole
    step list: the callback of the new timer passes no category, whatever
    category the run was started with. *)
Theorem updateInterval_keeps_progress (host : Host) (cb : Callback)
  (st : Settings) (i s : Z) (m : nat) (w : World) :
  let all := steps_of (animation st) in
  let N := Z.of_nat (List.length all) in
  randomize st = false ->
  0 <= i < N ->
  ticking cb st i w ->
  applied (new_events (updateInterval s) w) = [] /\
  applied (new_events (run host (AUpdateInterval s :: repeat ATick m)) w)
  = map (fun j => index all ((i + Z.of_nat j) mod N)) (seq 1 m) /\
  currentIndex (snd (run host (AUpdateInterval s :: repeat ATick m) w))
  = (i + Z.of_nat m) mod N.
Proof.
  intros all N Hrand Hi Htk. split.
  - destruct (updateInterval_ticking cb st i s w Htk)
      as (w1 & evs1 & E1 & Htr1 & Hap1 & _).
    rewrite (new_events_trace _ w evs1) by (rewrite E1; exact Htr1).
    exact Hap1.
  - exact (updateInterval_then_ticks host cb st i s m w Hrand Hi Htk).
Qed.

Lemma updateInterval_keeps_progress_witness :
  let w := runningWorld threeSteps 1700000000000 in
  map (option_map text)
      (applied (new_events (run obligingHost (AUpdateInterval 7 :: repeat ATick 2)) w))
  = [Some "A"; Some "B"]%string.
Proof.
  intros w.
  refine (f_equal (map (option_map text))
            (proj1 (proj2 (updateInterval_keeps_progress obligingHost
                             (StartCallback None) threeSteps 2 7 2 w eq_refl _ _)))).
  - simpl. lia.
  - unfold ticking, last_or_0. simpl.
    split; [eexists|]; repeat split; first [reflexivity | simpl; lia].
Defined.

(** In a run started without a category, [updateInterval] is invisible in
    what is applied: the ticks after it apply what they would have applied
    without it. *)
Theorem updateInterval_transparent (host : Host) (st : Settings) (i s : Z)
  (m : nat) (w : World) :
  randomize st = false ->
  0 <= i < Z.of_nat (List.length (steps_of (animation st))) ->
  ticking (StartCallback None) st i w ->
  applied (new_events (run host (AUpdateInterval s :: repeat ATick m)) w)
  = applied (new_events (run host (repeat ATick m)) w).
Proof.
  intros Hrand Hi Htk.
  rewrite (proj1 (updateInterval_then_ticks host _ st i s m w Hrand Hi Htk)).
  assert (Hne : filterSteps (cb_category (StartCallback None))
                  (steps_of (animation st)) <> []).
  { simpl. unfold filterSteps. simpl.
    destruct (steps_of (animation st)); [simpl in Hi; lia | discriminate]. }
  destruct (run_ticks_ticking host (StartCallback None) st m Hrand Hne i w Hi Htk)
    as (w2 & evs2 & E2 & Htr2 & Hap2 & _).
  rewrite (new_events_trace _ w evs2) by (rewrite E2; exact Htr2).
  rewrite Hap2. reflexivity.
Qed.

Lemma updateInterval_transparent_witness :
  let w := runningWorld threeSteps 1700000000000 in
  applied (new_events (run obligingHost (AUpdateInterval 7 :: repeat ATick 4)) w)
  = applied (new_events (run obligingHost (repeat ATick 4)) w).
Proof.
  intros w.
  apply (updateInterval_transparent obligingHost threeSteps 2 7 4 w eq_refl).
  - simpl. lia.
  - unfold ticking, last_or_0. simpl.
    split; [eexists|]; repeat split; first [reflexivity | simpl; lia].
Defined.

(** ** Auto-start *)

Lemma startAnimation_resolves (host : Host) (cat : option string) (w : World) :
  fst (startAnimation host cat w) = Normal tt.
Proof.
  destruct (filterSteps cat (steps_of (animation (store w)))) as [|s0 fa0] eqn:Efa.
  - pose proof (startAnimationWith_empty (setStatus host) cat w Efa) as E.
    fold (startAnimation host) in E. rewrite E. reflexivity.
  - assert (Hfa : filterSteps cat (steps_of (animation (store w))) <> [])
      by (rewrite Efa; discriminate).
    destruct (startAnimation_ready host cat w Hfa)
      as (c & evs & m1 & m2 & E & _). rewrite E. reflexivity.
Qed.

(** The world the timeout of [start] finds when it comes due. *)
Lemma boot_unfold (host : Host) (w : World) :
  boot host w
  = if autoStart (store w) then
      startAnimation host None
        (mkWorld (currentIndex w) (statusInterval w) (_lastUpdateTime w)
           (store w) (clock w + 3000) (timers w) (nextTimer w) (calls w)
           (trace w ++ [ELog LInfo "Auto-starting animation (3s delay)"]))
    else (Normal tt, w).
Proof.
  destruct w as [ci si lu st ck tm nt cl tr].
  unfold boot, start, elapse. js_unfold. fields.
  destruct (autoStart st); [|reflexivity].
  fields.
  match goal with
  | |- context [startAnimation (raw host) None ?W] =>
      pose proof (startAnimation_resolves host None W) as Hr;
      destruct (startAnimation host None W) as [[[]|e] w']
  end; [reflexivity | discriminate].
Qed.

(** [start()], three seconds on, on a host whose rejections can be
    rendered.  With [autoStart] off nothing happens at all.  With it on and
    a step stored, the scheduler is running at index 0
    on a timer without category whose period is that of the stored timeout,
    the first step of the list has been applied and the success toast shown.
    With it on and nothing stored (or a store that does not parse), the only
    effect is the toast that asks for steps. *)
Theorem boot_autostart (host : Host) (w : World) :
  let w' := snd (boot host w) in
  let evs := new_events (boot host) w in
  fst (boot host w) = Normal tt /\
  if autoStart (store w) then
    clock w' = clock w + 3000 /\
    match steps_of (animation (store w)) with
    | [] =>
        statusInterval w' = statusInterval w /\
        applied evs = [] /\
        toasts evs = [(MESSAGE, "Add some status animations in settings!"%string)]
    | first :: _ =>
        statusInterval w'
        = Some (mkTimer (nextTimer w)
                  (Z.max (timeout (store w) * 1000) 5000) (StartCallback None)) /\
        currentIndex w' = 0 /\
        applied evs = [Some first] /\
        toasts evs = [(SUCCESS, "Status animation started!"%string)]
    end
  else boot host w = (Normal tt, w).
Proof.
  intros w' evs. subst w' evs. unfold new_events.
  rewrite boot_unfold.
  destruct (autoStart (store w)); [|split; reflexivity].
  set (W := mkWorld (currentIndex w) (statusInterval w) (_lastUpdateTime w)
              (store w) (clock w + 3000) (timers w) (nextTimer w) (calls w)
              (trace w ++ [ELog LInfo "Auto-starting animation (3s delay)"])).
  assert (Hfilter : filterSteps None (steps_of (animation (store W)))
                    = steps_of (animation (store w))) by reflexivity.
  assert (HtrW : trace W = trace w ++ [ELog LInfo "Auto-starting animation (3s delay)"])
    by reflexivity.
  destruct (steps_of (animation (store w))) as [|first rest] eqn:Esteps.
  - pose proof (startAnimationWith_empty (setStatus host) None W Hfilter) as E.
    fold (startAnimation host) in E. rewrite E.
    unfold touch. cbn [fst snd trace]. rewrite HtrW.
    rewrite <- !app_assoc, skipn_app, skipn_all, Nat.sub_diag. cbn [skipn app].
    subst W. cbn [clock statusInterval store]. rewrite Esteps.
    split; [reflexivity|]. split; [reflexivity|]. split; [reflexivity|].
    destruct (animation (store w)); simpl; auto; discriminate.
  - assert (Hfa : filterSteps None (steps_of (animation (store W))) <> [])
      by (rewrite Hfilter; discriminate).
    destruct (startAnimation_ready host None W Hfa)
      as (c & evs & m1 & m2 & E & Hev & H1).
    destruct (retry_events_once _ _ _ _ Hev H1) as (Hap & _ & Hto & _).
    rewrite Hfilter in Hap. rewrite E.
    assert (Hce : applied (cancel_events W) = [] /\ toasts (cancel_events W) = [])
      by (unfold cancel_events; destruct (statusInterval W); simpl; auto).
    destruct Hce as (Hc1 & Hc2).
    cbn [fst snd trace]. rewrite HtrW.
    rewrite <- !app_assoc, skipn_app, skipn_all, Nat.sub_diag. cbn [skipn].
    rewrite !applied_app, !toasts_app, Hc1, Hc2, Hap, Hto.
    subst W. simpl. repeat split; reflexivity.
Qed.

(** ** The handlers of the settings panel *)

Lemma remove_at_offset (l : list StatusStep) :
  forall (a : nat) (index : Z),
    map snd
      (filter (fun p => negb (Z.of_nat (fst p) =? index))
         (combine (seq a (List.length l)) l))
    = if (Z.of_nat a <=? index) && (index <? Z.of_nat a + Z.of_nat (List.length l))
      then firstn (Z.to_nat index - a) l ++ skipn (S (Z.to_nat index - a)) l
      else l.
Proof.
  induction l as [|x l IH]; intros a index.
  - simpl. destruct (_ && _); [rewrite firstn_nil|]; reflexivity.
  - cbn [List.length seq combine filter fst].
    destruct (Z.eqb_spec (Z.of_nat a) index) as [Heq|Hne]; cbn [negb].
    + rewrite IH.
      replace (Z.of_nat (S a) <=? index) with false
        by (symmetry; apply Z.leb_gt; lia).
      replace (Z.of_nat a <=? index) with true
        by (symmetry; apply Z.leb_le; lia).
      replace (index <? Z.of_nat a + Z.of_nat (S (List.length l))) with true
        by (symmetry; apply Z.ltb_lt; lia).
      replace (Z.to_nat index - a)%nat with 0%nat by lia.
      reflexivity.
    + cbn [map snd]. rewrite IH.
      destruct (Z.leb_spec (Z.of_nat a) index) as [Hle|Hgt].
      * replace (Z.of_nat (S a) <=? index) with true
          by (symmetry; apply Z.leb_le; lia).
        replace (index <? Z.of_nat (S a) + Z.of_nat (List.length l))
          with (index <? Z.of_nat a + Z.of_nat (S (List.length l)))
          by (destruct (Z.ltb_spec index (Z.of_nat (S a) + Z.of_nat (List.length l)));
              destruct (Z.ltb_spec index (Z.of_nat a + Z.of_nat (S (List.length l))));
              (reflexivity || lia)).
        cbn [andb].
        destruct (index <? Z.of_nat a + Z.of_nat (S (List.length l))); [|reflexivity].
        replace (Z.to_nat index - a)%nat with (S (Z.to_nat index - S a)) by lia.
        reflexivity.
      * replace (Z.of_nat (S a) <=? index) with false
          by (symmetry; apply Z.leb_gt; lia).
        reflexivity.
Qed.

(** [deleteStep(index)] removes the step at [index] and nothing else when
    the index is in range, and removes nothing when it is not (the -1 of an
    [indexOf] that found nothing, say), though it shows its toast all the
    same.  The list it leaves is what it writes to the store, so the
    scheduler reads it on its next tick; the scheduler's own variables are
    not touched. *)
Theorem deleteStep_spec (index : Z) (p : Panel) (w : World) :
  let old := ui_animation p in
  let w' := snd (deleteStep index p w) in
  exists p',
    fst (deleteStep index p w) = Normal p' /\
    ui_animation p'
    = (if (0 <=? index) && (index <? Z.of_nat (List.length old))
       then firstn (Z.to_nat index) old ++ skipn (S (Z.to_nat index)) old
       else old) /\
    List.length (ui_animation p')
    = (if (0 <=? index) && (index <? Z.of_nat (List.length old))
       then (List.length old - 1)%nat else List.length old) /\
    steps_of (animation (store w')) = ui_animation p' /\
    toasts (new_events (deleteStep index p) w)
    = [(SUCCESS, "Status deleted"%string)] /\
    currentIndex w' = currentIndex w /\
    statusInterval w' = statusInterval w /\
    timers w' = timers w /\
    timeout (store w') = timeout (store w) /\
    randomize (store w') = randomize (store w).
Proof.
  intros old w'. subst w'.
  assert (Hrm : remove_at index old
                = if (0 <=? index) && (index <? Z.of_nat (List.length old))
                  then firstn (Z.to_nat index) old ++ skipn (S (Z.to_nat index)) old
                  else old).
  { unfold remove_at. rewrite (remove_at_offset old 0 index).
    rewrite Nat.sub_0_r. reflexivity. }
  destruct w as [ci si lu st ck tm nt cl tr].
  unfold deleteStep, write_animation, edit, new_events. js_unfold. fold old.
  cbn [fst snd trace store currentIndex statusInterval timers timeout
       randomize animation steps_of ui_animation].
  rewrite skipn_app, skipn_all, Nat.sub_diag. cbn [skipn app toasts flat_map].
  eexists. split; [reflexivity|]. cbn [ui_animation].
  split; [exact Hrm|]. split; [|repeat split; reflexivity].
  rewrite Hrm.
  destruct (Z.leb_spec 0 index) as [H0|H0]; [|reflexivity].
  destruct (Z.ltb_spec index (Z.of_nat (List.length old))) as [H1|H1];
    [|reflexivity].
  cbn [andb]. rewrite length_app, length_firstn, length_skipn. lia.
Qed.

Lemma filter_none {A} (f : A -> bool) (l : list A) :
  (forall x, In x l -> f x = false) -> filter f l = [].
Proof.
  induction l as [|x l IH]; intros H; [reflexivity|].
  simpl. rewrite (H x (or_introl eq_refl)). apply IH.
  intros y Hy. apply H. right. exact Hy.
Qed.

Lemma same_entry_refl (step : StatusStep) : same_entry step step = true.
Proof.
  unfold same_entry, strict_eq. rewrite String.eqb_refl.
  destruct (category step); [apply String.eqb_refl | reflexivity].
Qed.

(** What a preset adds leaves nothing of it to add. *)
Lemma preset_news_again (animation presetSteps : list StatusStep) :
  preset_news (animation ++ preset_news animation presetSteps) presetSteps = [].
Proof.
  unfold preset_news at 1. apply filter_none. intros x Hx.
  rewrite existsb_app.
  destruct (existsb (fun existing => same_entry existing x) animation) eqn:E;
    [reflexivity|].
  assert (Hin : In x (preset_news animation presetSteps)).
  { unfold preset_news. apply filter_In. split; [exact Hx|]. rewrite E. reflexivity. }
  assert (H : existsb (fun existing => same_entry existing x)
                (preset_news animation presetSteps) = true).
  { apply existsb_exists. exists x. split; [exact Hin | apply same_entry_refl]. }
  rewrite H. reflexivity.
Qed.

(** [handleAddPreset] only ever appends: the steps the panel had stay where
    they were, what is added comes from the preset, and the panel's list is
    what the store holds whenever something was added.  Adding the same
    preset again adds nothing: the panel and the store stay as they are and
    the toast says that all of it exists. *)
Theorem handleAddPreset_idempotent (presetName : string)
  (presetSteps : list StatusStep) (p : Panel) (w : World) :
  exists p1 w1 added,
    handleAddPreset presetName presetSteps p w = (Normal p1, w1) /\
    ui_animation p1 = ui_animation p ++ added /\
    incl added presetSteps /\
    match added with
    | [] => p1 = p /\ store w1 = store w
    | _ :: _ => steps_of (animation (store w1)) = ui_animation p1 /\
                ui_activeCategory p1 = Some presetName
    end /\
    fst (handleAddPreset presetName presetSteps p1 w1) = Normal p1 /\
    store (snd (handleAddPreset presetName presetSteps p1 w1)) = store w1 /\
    toasts (new_events (handleAddPreset presetName presetSteps p1) w1)
    = [(FAILURE, "All preset statuses already exist"%string)].
Proof.
  assert (Hagain : forall p1 w1,
             preset_news (ui_animation p1) presetSteps = [] ->
             fst (handleAddPreset presetName presetSteps p1 w1) = Normal p1 /\
             store (snd (handleAddPreset presetName presetSteps p1 w1)) = store w1 /\
             toasts (new_events (handleAddPreset presetName presetSteps p1) w1)
             = [(FAILURE, "All preset statuses already exist"%string)]).
  { intros p1 w1 H. unfold handleAddPreset, new_events. rewrite H.
    js_unfold. simpl.
    rewrite skipn_app, skipn_all, Nat.sub_diag. auto. }
  destruct (preset_news (ui_animation p) presetSteps) as [|x news] eqn:En.
  - exists p, (snd (handleAddPreset presetName presetSteps p w)), [].
    split.
    { unfold handleAddPreset. rewrite En. js_unfold. reflexivity. }
    split; [rewrite app_nil_r; reflexivity|].
    split; [intros y []|].
    split.
    { split; [reflexivity|]. apply (Hagain p w En). }
    apply Hagain. exact En.
  - exists (mkPanel (ui_animation p ++ x :: news) (ui_isRunning p) (Some presetName)),
      (snd (handleAddPreset presetName presetSteps p w)), (x :: news).
    split.
    { unfold handleAddPreset. rewrite En. js_unfold. reflexivity. }
    split; [reflexivity|].
    split.
    { intros y Hy. rewrite <- En in Hy. unfold preset_news in Hy.
      apply filter_In in Hy. tauto. }
    split.
    { unfold handleAddPreset, write_animation, edit. rewrite En. js_unfold.
      simpl. auto. }
    apply Hagain. cbn [ui_animation]. rewrite <- En. apply preset_news_again.
Qed.

Lemma handleTimeoutChange_running (value : Z) (p : Panel) (w : World) (t : Timer) :
  ui_isRunning p = true -> statusInterval w = Some t ->
  exists m,
    handleTimeoutChange value p w
    = (Normal tt,
       mkWorld (currentIndex w)
         (Some (mkTimer (nextTimer w) (Z.max (value * 1000) 5000) ReconfigureCallback))
         (_lastUpdateTime w)
         (mkSettings value (animation (store w)) (randomize (store w))
            (autoStart (store w)))
         (clock w)
         (timers_cleared w
          ++ [mkTimer (nextTimer w) (Z.max (value * 1000) 5000) ReconfigureCallback])
         (S (nextTimer w)) (calls w)
         (trace w ++ [EClearInterval t;
                      ESetInterval (mkTimer (nextTimer w) (Z.max (value * 1000) 5000)
                                      ReconfigureCallback);
                      ELog LInfo m])).
Proof.
  intros Hui Hsi. unfold handleTimeoutChange, write_timeout. rewrite Hui.
  unfold bind at 1. unfold bind at 1. unfold get at 1. unfold edit at 1.
  match goal with
  | |- context [updateInterval value ?W] =>
      destruct (updateInterval_running value W t Hsi) as (m & E)
  end.
  exists m. rewrite E. unfold timers_cleared. simpl. rewrite Hsi. reflexivity.
Qed.

(** When the panel's running flag agrees with the scheduler,
    [handleTimeoutChange] stores the new timeout and leaves the live timer
    with the period that timeout asks for, floor included, so the running
    timer and a later restart use the same period.  It applies nothing and
    keeps the index. *)
Theorem handleTimeoutChange_in_sync (value : Z) (p : Panel) (w : World) :
  ui_isRunning p = isRunning w ->
  let w' := snd (handleTimeoutChange value p w) in
  timeout (store w') = value /\
  period_in_sync w' /\
  isRunning w' = isRunning w /\
  currentIndex w' = currentIndex w /\
  applied (new_events (handleTimeoutChange value p) w) = [].
Proof.
  intros Hui w'. subst w'. unfold isRunning in *.
  destruct (statusInterval w) as [t|] eqn:Esi.
  - destruct (handleTimeoutChange_running value p w t Hui Esi) as (m & E).
    rewrite (new_events_trace _ w _ (f_equal (fun r => trace (snd r)) E)).
    rewrite E. unfold period_in_sync. simpl.
    repeat split; try reflexivity.
    intros t' Ht'. injection Ht' as <-. reflexivity.
  - unfold handleTimeoutChange, write_timeout, new_events. rewrite Hui.
    destruct w as [ci si lu st ck tm nt cl tr]. simpl in Esi. subst si.
    unfold edit. js_unfold. simpl. rewrite skipn_all.
    unfold period_in_sync. simpl.
    repeat split; try reflexivity. intros t' Ht'. discriminate.
Qed.

Lemma handleTimeoutChange_in_sync_witness :
  let w := runningWorld threeSteps 1700000000000 in
  let p := mkPanel (steps_of (animation threeSteps)) true None in
  timeout (store (snd (handleTimeoutChange 2 p w))) = 2.
Proof.
  intros w p.
  exact (proj1 (handleTimeoutChange_in_sync 2 p w eq_refl)).
Defined.

(** ** What the callers' [.catch] handlers never see *)

Lemma tp_bind {A B} (m : JS A) (k : A -> JS B) :
  throws_printable m -> (forall a, throws_printable (k a)) ->
  throws_printable (bind m k).
Proof.
  intros Hm Hk w e w' H. unfold bind in H.
  destruct (m w) as [[a|e0] w0] eqn:E.
  - exact (Hk a w0 e w' H).
  - injection H as <- <-. exact (Hm w e0 w0 E).
Qed.

Lemma tp_try_catch {A} (body : JS A) (handler : Thrown -> JS A) :
  (forall e, throws_printable (handler e)) ->
  throws_printable (try_catch body handler).
Proof.
  intros Hh w e w' H. unfold try_catch in H.
  destruct (body w) as [[a|e0] w0]; [discriminate|].
  exact (Hh e0 w0 e w' H).
Qed.

Lemma tp_throw {A} (v : JsValue) : throws_printable (@throw A v).
Proof. intros w e w' H. injection H as <- _. eauto. Qed.

Lemma tp_fail {A B} (v : JsValue) (k : A -> JS B) :
  throws_printable (bind (throw v) k).
Proof. intros w e w' H. injection H as <- _. eauto. Qed.

Ltac tp_step :=
  match goal with
  | |- throws_printable (bind (throw (Printable _)) _) => apply tp_fail
  | |- throws_printable (bind _ _) => apply tp_bind; [|intros ?]
  | |- throws_printable (throw (Printable _)) => apply tp_throw
  | |- throws_printable (if ?c then _ else _) => destruct c
  | |- throws_printable (match ?x with _ => _ end) => destruct x
  | |- throws_printable _ =>
      solve [let H := fresh in intros ? ? ? H; discriminate H]
  end.

(** A retry loop throws what one of its iterations throws, and an iteration
    throws either the value it caught, after rendering it, or the TypeError
    of a rendering that failed. *)
Lemma update_retry_throws_printable (apply : option StatusStep -> JS ApplyResult)
  (fa : list StatusStep) (retries : nat) :
  throws_printable (update_retry apply retries fa).
Proof.
  induction retries as [|r IH]; cbn [update_retry]; [tp_step|].
  apply tp_bind; [|intros [|]; [tp_step | exact IH]].
  unfold update_attempt. apply tp_try_catch. intros [v|];
    unfold toString, logger; repeat tp_step.
Qed.

Lemma initial_set_throws_printable (apply : option StatusStep -> JS ApplyResult)
  (fa : list StatusStep) (left : nat) :
  forall retry, throws_printable (initial_set apply left retry fa).
Proof.
  induction left as [|l IH]; intros retry; cbn [initial_set]; [tp_step|].
  destruct (retry <? 3); [|tp_step].
  apply tp_bind; [|intros [|]; [tp_step | apply IH]].
  unfold initial_attempt. apply tp_try_catch. intros [v|];
    unfold toString, logger; repeat tp_step.
Qed.

(** So the outermost handlers of [startAnimation] and [updateStatus] always
    have something they can render. *)
Lemma startAnimationWith_resolves (apply : option StatusStep -> JS ApplyResult)
  (cat : option string) (w : World) :
  fst (startAnimationWith apply cat w) = Normal tt.
Proof.
  unfold startAnimationWith.
  match goal with
  | |- fst (try_catch ?body ?handler w) = _ =>
      assert (Hb : throws_printable body)
  end.
  { unfold safeParseJSON, clear_if_running, logger, Toasts_show.
    repeat first [apply initial_set_throws_printable | tp_step]. }
  unfold try_catch at 1.
  match goal with
  | |- fst (match ?body w with _ => _ end) = _ =>
      destruct (body w) as [[[]|e] w1] eqn:E
  end; [reflexivity|].
  destruct (Hb w e w1 E) as (v & ->). reflexivity.
Qed.

Lemma updateStatusWith_resolves (host : Raw.Host)
  (apply : option StatusStep -> JS ApplyResult) (cat : option string)
  (w : World) :
  fst (updateStatusWith host apply cat w) = Normal tt.
Proof.
  unfold updateStatusWith.
  match goal with
  | |- fst (try_catch ?body ?handler w) = _ =>
      assert (Hb : throws_printable body)
  end.
  { unfold safeParseJSON, clear_if_running, logger, Date_now.
    repeat first [apply update_retry_throws_printable | tp_step]. }
  unfold try_catch at 1.
  match goal with
  | |- fst (match ?body w with _ => _ end) = _ =>
      destruct (body w) as [[[]|e] w1] eqn:E
  end; [reflexivity|].
  destruct (Hb w e w1 E) as (v & ->).
  unfold clear_if_running. js_unfold. simpl.
  destruct (statusInterval w1); reflexivity.
Qed.

(** Whatever procedure [this.setStatus] is, even one that throws every
    time or tampers with the scheduler, the promises of [startAnimation] and
    [updateStatus] resolve and the interval callbacks return: every
    [.catch] a caller attaches to them is dead, and a failure shows only as
    a toast and a log line. *)
Theorem scheduler_never_rejects (apply : option StatusStep -> JS ApplyResult)
  (host : Host) (cat : option string) (cb : Callback) (w : World) :
  fst (startAnimationWith apply cat w) = Normal tt /\
  fst (updateStatusWith host apply cat w) = Normal tt /\
  fst (intervalCallbackWith host apply cb w) = Normal tt.
Proof.
  split; [apply startAnimationWith_resolves|].
  split; [apply updateStatusWith_resolves|].
  unfold intervalCallbackWith.
  destruct cb as [c|]; unfold detached_catch, try_catch, bind, logger, emit.
  - destruct (updateStatusWith host apply c _) as [[[]|e] w1]; reflexivity.
  - destruct (updateStatusWith host apply None w) as [[[]|e] w1]; reflexivity.
Qed.

(** ** Overlapping calls *)

Lemma settle_sync {A} (m : JS A) (w : World) : settle (sync m w) = m w.
Proof. unfold sync. destruct (m w) as [c w']. reflexivity. Qed.

Lemma settle_then {A B} (t : Task A) (k : A -> Async B) :
  settle (then_task t k)
  = match settle t with
    | (Normal a, w) => settle (k a w)
    | (Abrupt e, w) => (Abrupt e, w)
    end.
Proof.
  induction t as [[a|e] w | w resume IH]; cbn [then_task settle];
    [reflexivity | reflexivity | apply IH].
Qed.

Lemma settle_catch {A} (t : Task A) (handler : Thrown -> Async A) :
  settle (catch_task t handler)
  = match settle t with
    | (Normal a, w) => (Normal a, w)
    | (Abrupt e, w) => settle (handler e w)
    end.
Proof.
  induction t as [[a|e] w | w resume IH]; cbn [catch_task settle];
    [reflexivity | reflexivity | apply IH].
Qed.

Lemma refines_sync {A} (m : JS A) : refines (sync m) m.
Proof. intros w. apply settle_sync. Qed.

Lemma refines_await {A} (m : JS A) : refines (await m) m.
Proof. intros w. unfold await. cbn [settle]. apply settle_sync. Qed.

Lemma refines_bind {A B} (a : Async A) (m : JS A) (k : A -> Async B)
  (k' : A -> JS B) :
  refines a m -> (forall x, refines (k x) (k' x)) ->
  refines (bind_async a k) (bind m k').
Proof.
  intros Ha Hk w. unfold bind_async, bind. rewrite settle_then, Ha.
  destruct (m w) as [[x|e] w']; [apply Hk | reflexivity].
Qed.

Lemma refines_try_catch {A} (a : Async A) (m : JS A)
  (h : Thrown -> Async A) (h' : Thrown -> JS A) :
  refines a m -> (forall e, refines (h e) (h' e)) ->
  refines (try_catch_async a h) (try_catch m h').
Proof.
  intros Ha Hh w. unfold try_catch_async, try_catch. rewrite settle_catch, Ha.
  destruct (m w) as [[x|e] w']; [reflexivity | apply Hh].
Qed.

(** Two binds of the atomic function done in one synchronous block. *)
Lemma refines_sync_bind {A B} (m : JS A) (k : A -> Async B) (k' : A -> JS B) :
  (forall x, refines (k x) (k' x)) ->
  refines (bind_async (sync m) k) (bind m k').
Proof. intros Hk. apply refines_bind; [apply refines_sync | exact Hk]. Qed.

Ltac refine_step :=
  match goal with
  | |- refines (sync ?m) ?m => apply refines_sync
  | |- refines (await ?m) ?m => apply refines_await
  | |- refines (bind_async _ _) (bind _ _) => apply refines_bind; [|intros ?]
  | |- refines (try_catch_async _ _) (try_catch _ _) =>
      apply refines_try_catch; [|intros ?]
  | |- refines (if ?c then _ else _) _ => destruct c
  | |- refines (match ?x with _ => _ end) _ => destruct x
  end.

Lemma updateSetting_async_refines {X} (oracle : nat -> X -> option Thrown)
  (observe : X -> bool -> Event) (x : X) :
  refines (updateSetting_async oracle observe x) (updateSetting oracle observe x).
Proof. unfold updateSetting_async, updateSetting. repeat refine_step. Qed.

Lemma setStatus_async_refines (host : Raw.Host) (so : option StatusStep) :
  refines (setStatus_async host so) (setStatus host so).
Proof.
  unfold setStatus_async, setStatus.
  repeat first [apply updateSetting_async_refines | refine_step].
Qed.

Lemma initial_set_async_refines (host : Raw.Host) (fa : list StatusStep)
  (left : nat) :
  forall retry,
    refines (initial_set_async host left retry fa)
            (initial_set (setStatus host) left retry fa).
Proof.
  induction left as [|l IH]; intros retry;
    cbn [initial_set_async initial_set]; [apply refines_sync|].
  destruct (retry <? 3); [|apply refines_sync].
  apply refines_bind; [|intros [|]; [apply refines_sync | apply IH]].
  unfold initial_attempt_async, initial_attempt, call_setStatus_async,
    call_setStatus.
  repeat first [apply setStatus_async_refines | refine_step].
Qed.

(** With nothing else scheduled while it waits, the suspending
    [startAnimation] is the atomic one. *)
Lemma startAnimation_async_refines (host : Raw.Host) (cat : option string) :
  refines (startAnimation_async host cat) (startAnimation host cat).
Proof.
  unfold startAnimation_async, startAnimation, startAnimationWith.
  repeat first [apply initial_set_async_refines | refine_step].
Qed.

Ltac async_unfold :=
  unfold try_catch_async, bind_async, await, sync in *.

(** Where the host answers and has the setting, [setStatus] makes the
    custom-status call and waits.  Resumed in any world, it returns a
    result object and leaves the scheduler alone. *)
Lemma setStatus_async_waits (host : Host) (step : StatusStep) (w : World)
  (custom : nat -> Payload -> option JsValue) :
  getCached host (calls w) = None ->
  CustomStatus host = Some custom ->
  exists resume,
    setStatus_async host (Some step) w
    = Awaiting (touch w (S (S (calls w))) []) resume /\
    forall w2, exists r c evs,
      settle (resume w2) = (Normal r, touch w2 c evs) /\
      forallb external_only evs = true.
Proof.
  intros Hcached Hcustom.
  destruct w as [ci si lu st ck tm nt cl tr].
  cbn [calls] in *.
  unfold setStatus_async, updateSetting_async. async_unfold.
  unfold interact, Date_now, get, touch.
  cbn -[payload_of append].
  rewrite Hcached. cbn -[payload_of append].
  rewrite Hcustom. cbn -[payload_of append].
  rewrite app_nil_r.
  eexists. split; [reflexivity|].
  intros [ci2 si2 lu2 st2 ck2 tm2 nt2 cl2 tr2].
  unfold logger, toString, bind, ret, throw, emit.
  cbn -[payload_of append].
  destruct (custom (S cl) (payload_of step ck)) as [e|];
    cbn -[payload_of append].
  { rewrite <- ?app_assoc. do 3 eexists. split; reflexivity. }
  destruct (status step) as [k|], (StatusSetting host) as [setting|];
    cbn -[payload_of append];
    try (rewrite <- ?app_assoc; do 3 eexists; split; reflexivity).
  destruct (setting cl2 k) as [e|]; cbn -[payload_of append];
    rewrite <- ?app_assoc; do 3 eexists; split; reflexivity.
Qed.

(** With something to rotate, [startAnimation] is then suspended with the
    old timer cancelled, the handle null and the index at 0.  Resumed in any
    world, it arms a timer on top of the timers it finds there and puts it
    in the handle; it does not touch the index again. *)
Lemma startAnimation_async_waits (host : Host) (cat : option string)
  (w : World) (custom : nat -> Payload -> option JsValue) :
  let fa := filterSteps cat (steps_of (animation (store w))) in
  getCached host (calls w) = None ->
  CustomStatus host = Some custom ->
  fa <> [] ->
  exists resume,
    startAnimation_async host cat w
    = Awaiting (mkWorld 0 None (_lastUpdateTime w) (store w) (clock w)
                  (timers_cleared w) (nextTimer w) (S (S (calls w)))
                  (trace w ++ cancel_events w ++ [EApply (index fa 0)]))
               resume /\
    forall w2, exists c evs m1 m2,
      let t := mkTimer (nextTimer w2) (Z.max (timeout (store w2) * 1000) 5000)
                       (StartCallback cat) in
      settle (resume w2)
      = (Normal tt,
         mkWorld (currentIndex w2) (Some t) (_lastUpdateTime w2) (store w2)
           (clock w2) (timers w2 ++ [t]) (S (nextTimer w2)) c
           (trace w2 ++ evs
            ++ [ELog LInfo m1; ESetInterval t; ELog LInfo m2;
                EToast SUCCESS "Status animation started!"])) /\
      forallb external_only evs = true.
Proof.
  intros fa Hcached Hcustom Hfa.
  destruct w as [ci si lu st ck tm nt cl tr].
  unfold cancel_events, timers_cleared. fields.
  destruct (animation st) as [|err| |steps] eqn:Ejson;
    try (exfalso; apply Hfa; subst fa; destruct cat as [[|]|]; reflexivity).
  cbn [steps_of] in fa.
  destruct steps as [|s steps].
  { exfalso; apply Hfa; subst fa; destruct cat as [[|]|]; reflexivity. }
  destruct fa as [|s0 fa0] eqn:Efa; [congruence|].
  unfold startAnimation_async, safeParseJSON, clear_if_running. async_unfold.
  unfold logger, Toasts_show, Date_now, bind, ret, get, emit, set_currentIndex,
    set_statusInterval, clearInterval.
  cbn -[initial_set_async filterSteps Z.max Z.mul string_of_Z append].
  rewrite Ejson.
  cbn -[initial_set_async filterSteps Z.max Z.mul string_of_Z append].
  subst fa. rewrite Efa.
  cbn -[initial_set_async filterSteps Z.max Z.mul string_of_Z append].
  destruct si as [old|];
    cbn -[filterSteps Z.max Z.mul string_of_Z append setStatus_async];
    unfold initial_attempt_async, call_setStatus_async;
    async_unfold; unfold emit;
    cbn -[filterSteps Z.max Z.mul string_of_Z append setStatus_async];
    match goal with
    | |- context [setStatus_async (raw host) (Some s0) ?W] =>
        destruct (setStatus_async_waits host s0 W custom Hcached Hcustom)
          as (resume0 & E0 & Hres); rewrite E0; clear E0
    end;
    unfold touch;
    cbn -[filterSteps Z.max Z.mul string_of_Z append setStatus_async];
    rewrite ?app_nil_r, <- ?app_assoc;
    (eexists; split; [reflexivity|]);
    intros w2; destruct (Hres w2) as (r & c & evs & Es & Hext);
    cbn beta; repeat (rewrite settle_catch || rewrite settle_then);
    rewrite Es; unfold touch;
    cbn -[filterSteps Z.max Z.mul string_of_Z append setStatus_async];
    rewrite <- ?app_assoc; cbn [app];
    exists c, evs; do 2 eexists; (split; [reflexivity | exact Hext]).
Qed.

(** Two starts that overlap leak a timer.  The first start clears the timer,
    calls [setStatus] and waits for the custom-status update; the second
    start runs meanwhile, from its own clearing to its own arming; the first
    is resumed and arms a timer too.  Both timers are alive, the handle
    holds the one armed last, and [stop] cancels only that one: after it
    [isRunning()] is false and the next tick still applies a step. *)
Theorem overlapping_starts_leak (host : Host) (c1 c2 : option string)
  (w : World) (custom : nat -> Payload -> option JsValue) :
  getCached host (calls w) = None ->
  CustomStatus host = Some custom ->
  filterSteps c1 (steps_of (animation (store w))) <> [] ->
  filterSteps c2 (steps_of (animation (store w))) <> [] ->
  timers_consistent w ->
  last_or_0 w <= clock w ->
  let w' := snd (overlapped (startAnimation_async host c1)
                            (startAnimation host c2) w) in
  let stopped := snd (stop w') in
  exists t1 t2,
    timers w' = [t2; t1] /\ tid t1 <> tid t2 /\
    callback t1 = StartCallback c1 /\ callback t2 = StartCallback c2 /\
    statusInterval w' = Some t1 /\
    isRunning stopped = false /\ timers stopped = [t2] /\
    attempts (new_events (tick host) stopped) = 1%nat.
Proof.
  intros Hcached Hcustom Hfa1 Hfa2 Htc Hl w' stopped.
  destruct (startAnimation_async_waits host c1 w custom Hcached Hcustom Hfa1)
    as (resume & E1 & Hres).
  match type of E1 with
  | _ = Awaiting ?W _ => set (w1 := W) in *
  end.
  assert (Eo : overlapped (startAnimation_async host c1)
                 (startAnimation host c2) w
               = settle (resume (snd (startAnimation host c2 w1))))
    by (unfold overlapped; rewrite E1; reflexivity).
  assert (Hfa2' : filterSteps c2 (steps_of (animation (store w1))) <> [])
    by exact Hfa2.
  destruct (startAnimation_ready host c2 w1 Hfa2')
    as (c & evs & m1 & m2 & E2 & _ & _).
  assert (Hcl : timers_cleared w1 = []).
  { unfold timers_cleared. subst w1. simpl.
    apply timers_cleared_consistent. exact Htc. }
  rewrite Hcl in E2. rewrite E2 in Eo. cbn [snd] in Eo.
  match type of E2 with
  | _ = (_, ?W) => set (w2 := W) in *
  end.
  destruct (Hres w2) as (c' & evs' & m1' & m2' & E3 & _).
  cbv zeta in E3. subst w' stopped. rewrite Eo, E3. cbn [snd].
  match type of E3 with
  | _ = (_, ?W) => set (w3 := W) in *
  end.
  set (t1 := mkTimer (S (nextTimer w)) (Z.max (timeout (store w) * 1000) 5000)
               (StartCallback c1)).
  set (t2 := mkTimer (nextTimer w) (Z.max (timeout (store w) * 1000) 5000)
               (StartCallback c2)).
  assert (Hsi3 : statusInterval w3 = Some t1) by reflexivity.
  assert (Es : stop w3 = (Normal tt,
                 mkWorld 0 None (_lastUpdateTime w) (store w) (clock w) [t2]
                   (S (S (nextTimer w))) c'
                   (trace w3 ++ [EClearInterval t1;
                      ELog LInfo "Status animation stopped, current status preserved"]))).
  { rewrite (stop_running w3 t1 Hsi3). subst w3 w2 w1. simpl.
    rewrite Nat.eqb_refl.
    replace (Nat.eqb (nextTimer w) (S (nextTimer w))) with false
      by (symmetry; apply Nat.eqb_neq; lia).
    reflexivity. }
  rewrite Es. cbn [snd].
  match type of Es with
  | _ = (_, ?W) => set (w4 := W) in *
  end.
  exists t1, t2.
  split; [reflexivity|]. split; [simpl; lia|].
  split; [reflexivity|]. split; [reflexivity|]. split; [reflexivity|].
  split; [reflexivity|]. split; [reflexivity|].
  pose proof (tick_fires host w4 t2 [] eq_refl) as Et.
  match type of Et with
  | _ = updateStatus (raw host) ?cc ?W => set (W0 := W) in *
  end.
  destruct (updateStatus_cases host c2 W0) as (w5 & evs5 & E5 & Htr5 & _ & _ & Hcases).
  assert (Hth : throttled W0 = false).
  { unfold throttled, last_or_0 in *. subst W0 w4. simpl.
    apply Z.ltb_ge. destruct (_lastUpdateTime w); lia. }
  destruct Hcases as [(Ht & _) | [(_ & He & _) | (_ & _ & Hap & _)]];
    [congruence | contradiction |].
  rewrite (new_events_trace _ w4 (cb_log (callback t2) ++ evs5)).
  2:{ rewrite Et. change (cb_category (callback t2)) with c2. rewrite E5.
      simpl. rewrite Htr5. subst W0. simpl. rewrite <- app_assoc. reflexivity. }
  unfold attempts. rewrite applied_app. simpl. rewrite Hap. reflexivity.
Qed.

Lemma overlapping_starts_leak_witness :
  let w := freshWorld workAndFun 1700000000000 in
  let w' := snd (overlapped (startAnimation_async obligingHost (Some "work"%string))
                            (startAnimation obligingHost (Some "fun"%string)) w) in
  List.length (timers w') = 2%nat /\
  isRunning (snd (stop w')) = false /\
  attempts (new_events (tick obligingHost) (snd (stop w'))) = 1%nat.
Proof.
  intros w w'.
  destruct (overlapping_starts_leak obligingHost (Some "work"%string)
              (Some "fun"%string) w (fun _ _ => None))
    as (t1 & t2 & Htm & _ & _ & _ & _ & Hrun & _ & Hap).
  - reflexivity.
  - reflexivity.
  - simpl. discriminate.
  - simpl. discriminate.
  - reflexivity.
  - unfold last_or_0. simpl. lia.
  - fold w' in Htm, Hrun, Hap. rewrite Htm. split; [reflexivity|].
    split; [exact Hrun | exact Hap].
Defined.

(** A [stop] that comes while [startAnimation] waits for its first update
    stops nothing: there is no timer to cancel yet, and the start, resumed,
    arms its timer all the same, so the scheduler ends running. *)
Theorem stop_during_start_is_undone (host : Host) (cat : option string)
  (w : World) (custom : nat -> Payload -> option JsValue) :
  getCached host (calls w) = None ->
  CustomStatus host = Some custom ->
  filterSteps cat (steps_of (animation (store w))) <> [] ->
  let w' := snd (overlapped (startAnimation_async host cat) stop w) in
  let evs := new_events (overlapped (startAnimation_async host cat) stop) w in
  isRunning w' = true /\
  exists t,
    statusInterval w' = Some t /\ In t (timers w') /\
    callback t = StartCallback cat /\
    armed evs = [t] /\
    cancelled evs = cancelled (cancel_events w).
Proof.
  intros Hcached Hcustom Hfa w' evs.
  destruct (startAnimation_async_waits host cat w custom Hcached Hcustom Hfa)
    as (resume & E1 & Hres).
  match type of E1 with
  | _ = Awaiting ?W _ => set (w1 := W) in *
  end.
  assert (Es : stop w1 = (Normal tt, w1)) by (apply stop_stopped; reflexivity).
  assert (Eo : overlapped (startAnimation_async host cat) stop w
               = settle (resume w1))
    by (unfold overlapped; rewrite E1, Es; reflexivity).
  destruct (Hres w1) as (c & evs1 & m1 & m2 & E3 & Hext).
  cbv zeta in E3.
  destruct (external_only_silent evs1 Hext) as (_ & _ & _ & _ & Ha & Hc).
  subst w' evs. unfold new_events. rewrite Eo, E3. cbn [snd trace].
  subst w1. cbn [trace timers nextTimer store].
  rewrite <- !app_assoc, skipn_app, skipn_all, Nat.sub_diag. cbn [skipn].
  rewrite !armed_app, !cancelled_app, Ha, Hc.
  assert (Hce : armed (cancel_events w) = [])
    by (unfold cancel_events; destruct (statusInterval w); reflexivity).
  rewrite Hce. simpl. rewrite app_nil_r.
  split; [reflexivity|].
  eexists. split; [reflexivity|]. split; [|repeat split].
  apply in_or_app. right. left. reflexivity.
Qed.

Lemma stop_during_start_is_undone_witness :
  let w := runningWorld workAndFun 1700000000000 in
  isRunning (snd (overlapped (startAnimation_async obligingHost (Some "work"%string))
                             stop w)) = true.
Proof.
  intros w.
  refine (proj1 (stop_during_start_is_undone obligingHost (Some "work"%string) w
                   (fun _ _ => None) eq_refl eq_refl _)).
  simpl. discriminate.
Defined.
